(** * gortmp client: chunk-stream framing and the connection pipeline

    A shallow embedding of [client.go] (package rtmp): the send loop that
    fragments a message into chunks, the receive loop that resolves chunk
    headers against per-chunk-stream state and reassembles messages, the
    dispatch loop with the protocol and command handlers, and [Disconnect].

    Conventions.
    - Go's [uint32]/[uint8] values are [Z]; wrap-around is written out
      with [uint32].  Bytes are [Z] in [0, 256).
    - The three goroutines are step functions on the shared [Client]
      record; one step is one iteration of the corresponding [for] loop,
      and an interleaving of the goroutines is a sequence of steps.
    - The buffered channels [inMessages]/[outMessages] are FIFO lists of
      capacity [MESSAGE_QUEUE_CAPACITY]; a receive from an empty channel
      or a send to a full one is the outcome [Blocked].
    - [net.Conn] is the record [Conn]: the bytes still to arrive, the
      bytes written so far, and whether the socket was closed or its write
      side is broken.
    - Calls on the [ClientHandler] and [conn.Close] are recorded in the
      [trace] of the client; log lines are not modelled.
    - [header.go], [message.go] and [chunk_stream.go] are not part of the
      sources at hand.  The header codec ([ReadHeader], [Header.Write]),
      [Header.CalculateTimestamp] and [OutboundChunkStream.NewOutboundHeader]
      are parameters of the model; the small constructors and
      [Message.RemainingBytes] are modelled from the specification, and
      so are the contracts of the parameters.  [WireCodec] is a header
      codec in the layout of the specification, [SimpleCodec] a plainer
      one on which the examples run. *)

From Stdlib Require Import ZArith List Lia Bool.
From stdpp Require Import base gmap list.

Local Open Scope Z_scope.

(** ** Package rtmp *)

Module rtmp.

(** *** Constants (const blocks of the package) *)

Definition TIMESTAMP_MAX : Z := 2000000000.
Definition TIMESTAMP_AUTO : Z := 0.
Definition TIMESTAMP_EXTENDED : Z := 0xFFFFFF.

Definition CHUNK_STREAM_ID_PROTOCOL : Z := 2.
Definition CHUNK_STREAM_ID_COMMAND : Z := 3.
Definition CHUNK_STREAM_ID_USER_CONTROL : Z := 4.

Definition HEADER_FORMAT_FULL : Z := 0.
Definition HEADER_FORMAT_SAME_STREAM : Z := 1.
Definition HEADER_FORMAT_SAME_LENGTH_AND_STREAM : Z := 2.
Definition HEADER_FORMAT_CONTINUATION : Z := 3.

Definition MESSAGE_TYPE_CHUNK_SIZE : Z := 1.
Definition MESSAGE_TYPE_ACK_SIZE : Z := 5.
Definition MESSAGE_TYPE_BANDWIDTH : Z := 6.
Definition MESSAGE_TYPE_AMF0 : Z := 20.

Definition DEFAULT_CHUNK_SIZE : Z := 128.
Definition DEFAULT_WINDOW_SIZE : Z := 2500000.

(** Capacity of [make(chan *Message, 100)] in [NewClient]. *)
Definition MESSAGE_QUEUE_CAPACITY : nat := 100.

(** *** Machine integers *)

Definition uint32 (z : Z) : Z := z mod 2 ^ 32.

(** [binary.BigEndian.Uint32(b)]: panics ([None]) when [len(b) < 4],
    otherwise [b[3] | b[2]<<8 | b[1]<<16 | b[0]<<24]. *)
Definition BigEndian_Uint32 (b : list Z) : option Z :=
  match b with
  | b0 :: b1 :: b2 :: b3 :: _ =>
      Some (Z.lor (Z.lor (Z.lor b3 (Z.shiftl b2 8)) (Z.shiftl b1 16))
                  (Z.shiftl b0 24))
  | _ => None
  end.

(** *** Data model *)

(** The fields of [Header] that [client.go] reads and writes. *)
Module Header.
Record t : Type := mk {
  Format : Z;
  ChunkStreamId : Z;
  Timestamp : Z;
  MessageLength : Z;
  MessageTypeId : Z;
  MessageStreamId : Z
}.

Definition set_Format (v : Z) (h : t) : t :=
  mk v (ChunkStreamId h) (Timestamp h) (MessageLength h)
     (MessageTypeId h) (MessageStreamId h).
Definition set_Timestamp (v : Z) (h : t) : t :=
  mk (Format h) (ChunkStreamId h) v (MessageLength h)
     (MessageTypeId h) (MessageStreamId h).
Definition set_MessageLength (v : Z) (h : t) : t :=
  mk (Format h) (ChunkStreamId h) (Timestamp h) v
     (MessageTypeId h) (MessageStreamId h).
Definition set_MessageTypeId (v : Z) (h : t) : t :=
  mk (Format h) (ChunkStreamId h) (Timestamp h) (MessageLength h)
     v (MessageStreamId h).
Definition set_MessageStreamId (v : Z) (h : t) : t :=
  mk (Format h) (ChunkStreamId h) (Timestamp h) (MessageLength h)
     (MessageTypeId h) v.
End Header.

(** [Message]; [Buffer] holds the unread bytes of the [bytes.Buffer]. *)
Module Message.
Record t : Type := mk {
  Type_ : Z;
  ChunkStreamId : Z;
  StreamId : Z;
  Timestamp : Z;
  AbsoluteTimestamp : Z;
  Length : Z;
  Buffer : list Z
}.

Definition set_Buffer (b : list Z) (m : t) : t :=
  mk (Type_ m) (ChunkStreamId m) (StreamId m) (Timestamp m)
     (AbsoluteTimestamp m) (Length m) b.

(** Modelled from the spec: [Message.RemainingBytes] (message.go is
    missing) is the declared length minus the bytes buffered so far, a
    message being complete exactly when the two are equal; the
    subtraction is on [uint32]. *)
Definition RemainingBytes (m : t) : Z :=
  uint32 (Length m - Z.of_nat (length (Buffer m))).
End Message.

Module InboundChunkStream.
Record t : Type := mk {
  Id : Z;
  lastHeader : option Header.t;
  lastInAbsoluteTimestamp : Z;
  currentMessage : option Message.t
}.

Definition set_lastHeader (v : option Header.t) (cs : t) : t :=
  mk (Id cs) v (lastInAbsoluteTimestamp cs) (currentMessage cs).
Definition set_lastInAbsoluteTimestamp (v : Z) (cs : t) : t :=
  mk (Id cs) (lastHeader cs) v (currentMessage cs).
Definition set_currentMessage (v : option Message.t) (cs : t) : t :=
  mk (Id cs) (lastHeader cs) (lastInAbsoluteTimestamp cs) v.
End InboundChunkStream.

Module OutboundChunkStream.
Record t : Type := mk {
  Id : Z;
  lastHeader : option Header.t
}.
End OutboundChunkStream.

(** Modelled from the spec: [NewInboundChunkStream] (chunk_stream.go is
    missing) yields the state of a chunk stream on which nothing was
    received: no last header, no message in progress, timestamp zero. *)
Definition NewInboundChunkStream (id : Z) : InboundChunkStream.t :=
  InboundChunkStream.mk id None 0 None.

(** Modelled from the spec: [NewOutboundChunkStream] (chunk_stream.go is
    missing) yields the state of a chunk stream on which nothing was sent:
    no last header. *)
Definition NewOutboundChunkStream (id : Z) : OutboundChunkStream.t :=
  OutboundChunkStream.mk id None.

(** The connection [net.Conn] as the client sees it. *)
Record Conn : Type := mkConn {
  closed : bool;      (* [Close] was called on the socket *)
  wbroken : bool;     (* the peer no longer accepts writes *)
  rx : list Z;        (* bytes that will arrive, in order *)
  tx : list Z         (* bytes written so far, in order *)
}.

(** Calls the client makes on its collaborators. *)
Inductive Event : Type :=
  | ConnClose
  | OnConnect
  | OnDisconnect
  | OnReceive (m : Message.t).

Record Client : Type := mkClient {
  connected : bool;
  conn : Conn;
  outBytes : Z;
  outMessages : list Message.t;
  outWindowSize : Z;
  outChunkSize : Z;
  outChunkStreams : gmap Z OutboundChunkStream.t;
  inBytes : Z;
  inMessages : list Message.t;
  inWindowSize : Z;
  inChunkSize : Z;
  inChunkStreams : gmap Z InboundChunkStream.t;
  trace : list Event
}.

Definition set_connected (v : bool) (c : Client) : Client :=
  mkClient v (conn c) (outBytes c) (outMessages c) (outWindowSize c)
    (outChunkSize c) (outChunkStreams c) (inBytes c) (inMessages c)
    (inWindowSize c) (inChunkSize c) (inChunkStreams c) (trace c).
Definition set_conn (v : Conn) (c : Client) : Client :=
  mkClient (connected c) v (outBytes c) (outMessages c) (outWindowSize c)
    (outChunkSize c) (outChunkStreams c) (inBytes c) (inMessages c)
    (inWindowSize c) (inChunkSize c) (inChunkStreams c) (trace c).
Definition set_outBytes (v : Z) (c : Client) : Client :=
  mkClient (connected c) (conn c) v (outMessages c) (outWindowSize c)
    (outChunkSize c) (outChunkStreams c) (inBytes c) (inMessages c)
    (inWindowSize c) (inChunkSize c) (inChunkStreams c) (trace c).
Definition set_outMessages (v : list Message.t) (c : Client) : Client :=
  mkClient (connected c) (conn c) (outBytes c) v (outWindowSize c)
    (outChunkSize c) (outChunkStreams c) (inBytes c) (inMessages c)
    (inWindowSize c) (inChunkSize c) (inChunkStreams c) (trace c).
Definition set_outChunkStreams (v : gmap Z OutboundChunkStream.t)
    (c : Client) : Client :=
  mkClient (connected c) (conn c) (outBytes c) (outMessages c)
    (outWindowSize c) (outChunkSize c) v (inBytes c) (inMessages c)
    (inWindowSize c) (inChunkSize c) (inChunkStreams c) (trace c).
Definition set_inBytes (v : Z) (c : Client) : Client :=
  mkClient (connected c) (conn c) (outBytes c) (outMessages c)
    (outWindowSize c) (outChunkSize c) (outChunkStreams c) v (inMessages c)
    (inWindowSize c) (inChunkSize c) (inChunkStreams c) (trace c).
Definition set_inMessages (v : list Message.t) (c : Client) : Client :=
  mkClient (connected c) (conn c) (outBytes c) (outMessages c)
    (outWindowSize c) (outChunkSize c) (outChunkStreams c) (inBytes c) v
    (inWindowSize c) (inChunkSize c) (inChunkStreams c) (trace c).
Definition set_inChunkSize (v : Z) (c : Client) : Client :=
  mkClient (connected c) (conn c) (outBytes c) (outMessages c)
    (outWindowSize c) (outChunkSize c) (outChunkStreams c) (inBytes c)
    (inMessages c) (inWindowSize c) v (inChunkStreams c) (trace c).
Definition set_inChunkStreams (v : gmap Z InboundChunkStream.t)
    (c : Client) : Client :=
  mkClient (connected c) (conn c) (outBytes c) (outMessages c)
    (outWindowSize c) (outChunkSize c) (outChunkStreams c) (inBytes c)
    (inMessages c) (inWindowSize c) (inChunkSize c) v (trace c).
Definition set_trace (v : list Event) (c : Client) : Client :=
  mkClient (connected c) (conn c) (outBytes c) (outMessages c)
    (outWindowSize c) (outChunkSize c) (outChunkStreams c) (inBytes c)
    (inMessages c) (inWindowSize c) (inChunkSize c) (inChunkStreams c) v.

(** The client as [NewClient] builds it, on an established connection. *)
Definition NewClient (k : Conn) : Client :=
  mkClient false k 0 [] DEFAULT_WINDOW_SIZE DEFAULT_CHUNK_SIZE ∅
    0 [] DEFAULT_WINDOW_SIZE DEFAULT_CHUNK_SIZE ∅ [].

(** What one iteration of a loop does to the goroutine that runs it. *)
Inductive outcome (A : Type) : Type :=
  | Next (a : A)       (* the iteration ended, the loop goes on *)
  | Exit (a : A)       (* [return]: the goroutine ends *)
  | Blocked            (* waiting on a channel *)
  | Panicked           (* run-time panic *)
  | Diverged.          (* the inner loop never ends *)
Arguments Next {A} a.
Arguments Exit {A} a.
Arguments Blocked {A}.
Arguments Panicked {A}.
Arguments Diverged {A}.

(** *** Connection and client I/O *)

(** [Client.Disconnect]. *)
Definition Disconnect (c : Client) : Client :=
  let c1 := set_connected false c in
  let k := conn c1 in
  let c2 := set_conn (mkConn true (wbroken k) (rx k) (tx k)) c1 in
  set_trace (trace c2 ++ [ConnClose]) c2.

(** The guarded shutdown every I/O error path performs:
    [if c.connected { c.Disconnect() }]. *)
Definition disconnectIfConnected (c : Client) : Client :=
  if connected c then Disconnect c else c.

(** The client after [Client.Write] put the slice [p] on the connection. *)
Definition wrote (p : list Z) (c : Client) : Client :=
  let k := conn c in
  let c1 := set_conn (mkConn (closed k) (wbroken k) (rx k) (tx k ++ p)) c in
  set_outBytes (uint32 (outBytes c1 + Z.of_nat (length p))) c1.

(** [Client.Write] of a whole slice: [None] is a write error. *)
Definition Client_Write (c : Client) (p : list Z) : option Client :=
  if closed (conn c) || wbroken (conn c) then None else Some (wrote p c).

(** [io.CopyN(dst, c, n)]: reading exactly [n] bytes through
    [Client.Read].  Result: the bytes obtained, whether all [n] arrived,
    and the client afterwards.  For [n = 0] the connection is not touched;
    on a closed socket nothing is read; at end of stream the bytes that
    did arrive are returned with an error. *)
Definition Client_ReadN (c : Client) (n : Z) : list Z * bool * Client :=
  let k := conn c in
  if n =? 0 then ([], true, c)
  else if closed k then ([], false, c)
  else
    let got := take (Z.to_nat n) (rx k) in
    let c1 := set_conn (mkConn (closed k) (wbroken k)
                          (drop (Z.to_nat n) (rx k)) (tx k)) c in
    let c2 := set_inBytes (uint32 (inBytes c1 + Z.of_nat (length got))) c1 in
    (got, Z.of_nat (length got) =? n, c2).

(** [io.CopyN(c, m.Buffer, ws)]: moves up to [ws] bytes from the message
    buffer to the connection.  Result: the client, the buffer left, the
    count copied, and whether [ws] bytes were copied without error. *)
Definition CopyN_out (c : Client) (buf : list Z) (ws : Z)
    : Client * list Z * Z * bool :=
  let avail := take (Z.to_nat ws) buf in
  let rest := drop (Z.to_nat ws) buf in
  match avail with
  | [] => (c, rest, 0, 0 =? ws)
  | _ :: _ =>
      match Client_Write c avail with
      | None => (c, rest, 0, false)
      | Some c1 =>
          (c1, rest, Z.of_nat (length avail), Z.of_nat (length avail) =? ws)
      end
  end.

(** *** The pipeline *)

Section Pipeline.

(** [ReadHeader], applied to the bytes still to arrive: the decoded
    header ([None] on a framing error or short read) and the bytes left
    after the ones it consumed. *)
Variable ReadHeader : list Z -> option Header.t * list Z.

(** The bytes [Header.Write] puts on the connection. *)
Variable Header_Write : Header.t -> list Z.

(** [Header.CalculateTimestamp]. *)
Variable CalculateTimestamp : Header.t -> Z.

(** [OutboundChunkStream.NewOutboundHeader]: the header for a message,
    and the chunk-stream state as the call leaves it (the receiver is a
    pointer). *)
Variable NewOutboundHeader :
  OutboundChunkStream.t -> Message.t -> Header.t * OutboundChunkStream.t.

(** **** Dispatch *)

(** [handleProtocolMessage]; [None] is the panic of
    [binary.BigEndian.Uint32] on a payload shorter than four bytes. *)
Definition handleProtocolMessage (m : Message.t) (c : Client)
    : option Client :=
  if Message.Type_ m =? MESSAGE_TYPE_CHUNK_SIZE then
    match BigEndian_Uint32 (Message.Buffer m) with
    | Some size => Some (set_inChunkSize size c)
    | None => None
    end
  else if Message.Type_ m =? MESSAGE_TYPE_ACK_SIZE then Some c
  else if Message.Type_ m =? MESSAGE_TYPE_BANDWIDTH then
    match BigEndian_Uint32 (Message.Buffer m) with
    | Some _ => Some c
    | None => None
    end
  else Some c.

(** [handleCommandMessage]. *)
Definition handleCommandMessage (m : Message.t) (c : Client) : Client :=
  set_connected true c.

(** One iteration of [dispatchLoop]. *)
Definition dispatchLoop_step (c : Client) : outcome Client :=
  match inMessages c with
  | [] => Blocked
  | m :: q =>
      let c1 := set_inMessages q c in
      if Message.ChunkStreamId m =? CHUNK_STREAM_ID_PROTOCOL then
        match handleProtocolMessage m c1 with
        | Some c2 => Next c2
        | None => Panicked
        end
      else if Message.ChunkStreamId m =? CHUNK_STREAM_ID_COMMAND then
        Next (handleCommandMessage m c1)
      else Next c1
  end.

(** **** Send *)

(** The loop [for rem > 0 { ... }] of [sendLoop], at most [fuel]
    iterations. *)
Fixpoint sendChunks (fuel : nat) (c : Client) (h : Header.t)
    (buf : list Z) (rem : Z) : outcome Client :=
  if rem >? 0 then
    match fuel with
    | O => Diverged
    | S fuel' =>
        match Client_Write c (Header_Write h) with
        | None => Exit (disconnectIfConnected c)
        | Some c1 =>
            let ws := if rem >? outChunkSize c1 then outChunkSize c1
                      else rem in
            match CopyN_out c1 buf ws with
            | (c2, buf', n, true) =>
                sendChunks fuel' c2
                  (Header.set_Format HEADER_FORMAT_CONTINUATION h)
                  buf' (uint32 (rem - n))
            | (c2, _, _, false) => Exit (disconnectIfConnected c2)
            end
        end
    end
  else Next c.

(** The chunk-stream state the send loop works on: the entry of the map,
    or a new one, which is not entered into the map. *)
Definition outboundChunkStream (c : Client) (id : Z)
    : OutboundChunkStream.t :=
  match outChunkStreams c !! id with
  | Some cs => cs
  | None => NewOutboundChunkStream id
  end.

(** One iteration of the outer loop of [sendLoop].  Every pass of the
    inner loop that copies bytes lowers [rem], so [m.Length] passes are
    enough unless the loop runs forever. *)
Definition sendLoop_step (c : Client) : outcome Client :=
  match outMessages c with
  | [] => Blocked
  | m :: q =>
      let c1 := set_outMessages q c in
      let id := Message.ChunkStreamId m in
      let '(h, cs') := NewOutboundHeader (outboundChunkStream c1 id) m in
      let c2 :=
        match outChunkStreams c1 !! id with
        | Some _ => set_outChunkStreams (<[id := cs']> (outChunkStreams c1)) c1
        | None => c1
        end in
      sendChunks (Z.to_nat (Message.Length m)) c2 h
        (Message.Buffer m) (Message.Length m)
  end.

(** **** Receive *)

(** [ReadHeader(c)] through [Client.Read]. *)
Definition Client_ReadHeader (c : Client) : option Header.t * Client :=
  let k := conn c in
  if closed k then (None, c)
  else
    let '(r, rest) := ReadHeader (rx k) in
    let c1 := set_conn (mkConn (closed k) (wbroken k) rest (tx k)) c in
    (r, set_inBytes
          (uint32 (inBytes c1 + (Z.of_nat (length (rx k))
                                 - Z.of_nat (length rest)))) c1).

(** The chunk-stream state the receive loop works on, and the client
    with a new state entered into the map. *)
Definition inboundChunkStream (c : Client) (id : Z)
    : InboundChunkStream.t * Client :=
  match inChunkStreams c !! id with
  | Some cs => (cs, c)
  | None =>
      let cs := NewInboundChunkStream id in
      (cs, set_inChunkStreams (<[id := cs]> (inChunkStreams c)) c)
  end.

(** The [switch h.Format] of [receiveLoop], given the last header [lh]
    of the chunk stream: the chunk-stream state, the header with the
    inherited fields, the working timestamp [ts], and the message [m]
    taken up again ([None] is [nil]). *)
Definition resolveFormat (cs : InboundChunkStream.t) (lh : Header.t)
    (h : Header.t)
    : InboundChunkStream.t * Header.t * Z * option Message.t :=
  if Header.Format h =? HEADER_FORMAT_FULL then
    (InboundChunkStream.set_lastHeader (Some h) cs, h,
     Header.Timestamp h, None)
  else if Header.Format h =? HEADER_FORMAT_SAME_STREAM then
    let h1 := Header.set_MessageStreamId (Header.MessageStreamId lh) h in
    (InboundChunkStream.set_lastHeader (Some h1) cs, h1,
     uint32 (InboundChunkStream.lastInAbsoluteTimestamp cs
             + Header.Timestamp h1),
     None)
  else if Header.Format h =? HEADER_FORMAT_SAME_LENGTH_AND_STREAM then
    let h1 := Header.set_MessageStreamId (Header.MessageStreamId lh) h in
    let h2 := Header.set_MessageLength (Header.MessageLength lh) h1 in
    let h3 := Header.set_MessageTypeId (Header.MessageTypeId lh) h2 in
    (InboundChunkStream.set_lastHeader (Some h3) cs, h3,
     uint32 (InboundChunkStream.lastInAbsoluteTimestamp cs
             + Header.Timestamp h3),
     None)
  else if Header.Format h =? HEADER_FORMAT_CONTINUATION then
    let h1 := Header.set_MessageStreamId (Header.MessageStreamId lh) h in
    let h2 := Header.set_MessageLength (Header.MessageLength lh) h1 in
    let h3 := Header.set_MessageTypeId (Header.MessageTypeId lh) h2 in
    let h4 := Header.set_Timestamp (Header.Timestamp lh) h3 in
    (cs, h4,
     uint32 (InboundChunkStream.lastInAbsoluteTimestamp cs
             + Header.Timestamp lh),
     InboundChunkStream.currentMessage cs)
  else (cs, h, 0, None).

(** The guard [cs.lastHeader == nil && h.Format != HEADER_FORMAT_FULL]
    followed by the [switch]: [None] is the rejected header.  In the
    [FULL] case no field of the last header is read. *)
Definition resolveHeader (cs : InboundChunkStream.t) (h : Header.t)
    : option (InboundChunkStream.t * Header.t * Z * option Message.t) :=
  match InboundChunkStream.lastHeader cs with
  | None =>
      if Header.Format h =? HEADER_FORMAT_FULL
      then Some (resolveFormat cs h h)
      else None
  | Some lh => Some (resolveFormat cs lh h)
  end.

(** [&Message{...}] of [receiveLoop]. *)
Definition newInboundMessage (h : Header.t) (ts : Z) : Message.t :=
  Message.mk (Header.MessageTypeId h) (Header.ChunkStreamId h)
    (Header.MessageStreamId h) (CalculateTimestamp h) ts
    (Header.MessageLength h) [].

Definition storeInbound (id : Z) (cs : InboundChunkStream.t)
    (c : Client) : Client :=
  set_inChunkStreams (<[id := cs]> (inChunkStreams c)) c.

(** The body of [receiveLoop] after a header [h] was read.  The
    chunk-stream state and the message are shared objects: what the
    body writes to them before an error is kept. *)
Definition receiveChunk (c : Client) (h : Header.t) : outcome Client :=
  let id := Header.ChunkStreamId h in
  let '(cs, c1) := inboundChunkStream c id in
  match resolveHeader cs h with
  | None => Exit (Disconnect c1)
  | Some (cs1, h1, ts, mo) =>
      let m := match mo with
               | Some m => m
               | None => newInboundMessage h1 ts
               end in
      let cs2 := InboundChunkStream.set_lastInAbsoluteTimestamp ts cs1 in
      let rs := if Message.RemainingBytes m >? inChunkSize c1
                then inChunkSize c1 else Message.RemainingBytes m in
      let '(got, ok, c2) := Client_ReadN c1 rs in
      let m' := Message.set_Buffer (Message.Buffer m ++ got) m in
      if ok then
        if Message.RemainingBytes m' =? 0 then
          if (length (inMessages c2) <? MESSAGE_QUEUE_CAPACITY)%nat then
            Next (set_inMessages (inMessages c2 ++ [m'])
                    (storeInbound id
                       (InboundChunkStream.set_currentMessage None cs2) c2))
          else Blocked
        else
          Next (storeInbound id
                  (InboundChunkStream.set_currentMessage (Some m') cs2) c2)
      else
        let cs3 := match mo with
                   | Some _ =>
                       InboundChunkStream.set_currentMessage (Some m') cs2
                   | None => cs2
                   end in
        Exit (disconnectIfConnected (storeInbound id cs3 c2))
  end.

(** One iteration of [receiveLoop]. *)
Definition receiveLoop_step (c : Client) : outcome Client :=
  match Client_ReadHeader c with
  | (None, c1) => Exit (disconnectIfConnected c1)
  | (Some h, c1) => receiveChunk c1 h
  end.

(** [n] iterations of a loop, as long as the goroutine goes on. *)
Fixpoint iterate (step : Client -> outcome Client) (n : nat) (c : Client)
    : outcome Client :=
  match n with
  | O => Next c
  | S n' =>
      match step c with
      | Next c1 => iterate step n' c1
      | o => o
      end
  end.

Definition receiveLoop (n : nat) (c : Client) : outcome Client :=
  iterate receiveLoop_step n c.

End Pipeline.

End rtmp.

Import rtmp.

(** ** The contract of the header codec *)

(** Modelled from the spec: the headers the wire format can carry
    (header.go is missing).  The format takes two bits.  The chunk-stream
    id goes from 2 to 65599: the basic header has six bits for it, one
    more byte from 64 on and two more bytes from 320 on, and two of the
    six-bit values announce the longer forms.  The timestamp has up to 32
    bits (three bytes, or the marker and the four bytes of the extended
    timestamp), the length three bytes, the type one byte and the stream
    id four bytes. *)
Definition wfHeader (h : Header.t) : Prop :=
  0 <= Header.Format h < 4 /\
  2 <= Header.ChunkStreamId h <= 65599 /\
  0 <= Header.Timestamp h < 2 ^ 32 /\
  0 <= Header.MessageLength h < 2 ^ 24 /\
  0 <= Header.MessageTypeId h < 256 /\
  0 <= Header.MessageStreamId h < 2 ^ 32.

(** Modelled from the spec: the fields each header format carries on the
    wire (header.go is missing).  [onWire h h'] says that [h'] has the
    format and chunk-stream id of [h] and agrees with [h] on the fields
    physically present in that format: timestamp, length, type and stream
    id for FULL; timestamp, length and type for SAME_STREAM; the timestamp
    for SAME_LENGTH_AND_STREAM; none for CONTINUATION. *)
Definition onWire (h h' : Header.t) : Prop :=
  Header.Format h' = Header.Format h /\
  Header.ChunkStreamId h' = Header.ChunkStreamId h /\
  (Header.Format h <= HEADER_FORMAT_SAME_LENGTH_AND_STREAM ->
     Header.Timestamp h' = Header.Timestamp h) /\
  (Header.Format h <= HEADER_FORMAT_SAME_STREAM ->
     Header.MessageLength h' = Header.MessageLength h /\
     Header.MessageTypeId h' = Header.MessageTypeId h) /\
  (Header.Format h = HEADER_FORMAT_FULL ->
     Header.MessageStreamId h' = Header.MessageStreamId h).

(** Modelled from the spec: what the pipeline expects of the header codec
    (header.go is missing): for a header the wire format can carry,
    decoding what was encoded, whatever follows on the stream, gives back
    the fields that were on the wire and consumes exactly the header.
    The codec [WireCodec] below, which follows the layout of the spec,
    meets it. *)
Definition codec_contract (ReadHeader : list Z -> option Header.t * list Z)
    (Header_Write : Header.t -> list Z) : Prop :=
  forall h rest, wfHeader h ->
    exists h', ReadHeader (Header_Write h ++ rest) = (Some h', rest)
               /\ onWire h h'.

(** ** A codec for the examples

    One codec that meets the contracts, to run the pipeline on concrete
    inputs.  It is not the wire format of the protocol: every field takes
    four bytes (one for the format and for the type). *)

Module SimpleCodec.

Definition put32 (x : Z) : list Z :=
  [x / 2 ^ 24 mod 256; x / 2 ^ 16 mod 256; x / 2 ^ 8 mod 256; x mod 256].

Definition get32 (b0 b1 b2 b3 : Z) : Z :=
  ((b0 * 256 + b1) * 256 + b2) * 256 + b3.

(** One byte of format, the chunk-stream id, then the fields the format
    carries. *)
Definition Header_Write (h : Header.t) : list Z :=
  Header.Format h :: put32 (Header.ChunkStreamId h) ++
  (if Header.Format h =? HEADER_FORMAT_FULL then
     put32 (Header.Timestamp h) ++ put32 (Header.MessageLength h) ++
     Header.MessageTypeId h :: put32 (Header.MessageStreamId h)
   else if Header.Format h =? HEADER_FORMAT_SAME_STREAM then
     put32 (Header.Timestamp h) ++ put32 (Header.MessageLength h) ++
     [Header.MessageTypeId h]
   else if Header.Format h =? HEADER_FORMAT_SAME_LENGTH_AND_STREAM then
     put32 (Header.Timestamp h)
   else []).

Definition ReadHeader (s : list Z) : option Header.t * list Z :=
  match s with
  | f :: c0 :: c1 :: c2 :: c3 :: s1 =>
      let id := get32 c0 c1 c2 c3 in
      if f =? HEADER_FORMAT_FULL then
        match s1 with
        | t0 :: t1 :: t2 :: t3 :: l0 :: l1 :: l2 :: l3 :: ty
          :: s0 :: s1' :: s2 :: s3 :: rest =>
            (Some (Header.mk f id (get32 t0 t1 t2 t3) (get32 l0 l1 l2 l3)
                     ty (get32 s0 s1' s2 s3)), rest)
        | _ => (None, [])
        end
      else if f =? HEADER_FORMAT_SAME_STREAM then
        match s1 with
        | t0 :: t1 :: t2 :: t3 :: l0 :: l1 :: l2 :: l3 :: ty :: rest =>
            (Some (Header.mk f id (get32 t0 t1 t2 t3) (get32 l0 l1 l2 l3)
                     ty 0), rest)
        | _ => (None, [])
        end
      else if f =? HEADER_FORMAT_SAME_LENGTH_AND_STREAM then
        match s1 with
        | t0 :: t1 :: t2 :: t3 :: rest =>
            (Some (Header.mk f id (get32 t0 t1 t2 t3) 0 0 0), rest)
        | _ => (None, [])
        end
      else (Some (Header.mk f id 0 0 0 0), s1)
  | _ => (None, [])
  end.

(** The header of a message: FULL format, fields of the message. *)
Definition NewOutboundHeader (cs : OutboundChunkStream.t) (m : Message.t)
    : Header.t * OutboundChunkStream.t :=
  let h := Header.mk HEADER_FORMAT_FULL (OutboundChunkStream.Id cs)
             (Message.Timestamp m) (Message.Length m) (Message.Type_ m)
             (Message.StreamId m) in
  (h, OutboundChunkStream.mk (OutboundChunkStream.Id cs) (Some h)).

Definition CalculateTimestamp (h : Header.t) : Z := Header.Timestamp h.

End SimpleCodec.

(** ** The wire format of the spec

    Modelled from the spec: the header codec in the layout of the spec
    (header.go is missing).  The basic header holds the format in its top
    two bits and the chunk-stream id in the six below, with one more byte
    for ids from 64 and two more for ids from 320; the message header
    holds, as the format has them, the timestamp and the length in three
    bytes each, the type in one byte and the stream id in four; a
    timestamp field that reads as the marker is followed, after the
    message header, by the four bytes of the extended timestamp, which
    takes its place.  The spec does not give the byte order of the fields
    nor the two six-bit values that announce the longer forms: the fields
    are taken most significant byte first, the values as 0 and 1.  It
    shows that the contract of the codec can be met on the wire of the
    protocol. *)

Module WireCodec.

Definition put24 (x : Z) : list Z :=
  [x / 2 ^ 16 mod 256; x / 2 ^ 8 mod 256; x mod 256].

Definition get24 (b0 b1 b2 : Z) : Z := (b0 * 256 + b1) * 256 + b2.

Definition basicHeader (f id : Z) : list Z :=
  if id <? 64 then [f * 64 + id]
  else if id <? 320 then [f * 64; id - 64]
  else [f * 64 + 1; (id - 64) mod 256; (id - 64) / 256].

(** The three-byte timestamp field and the extended timestamp. *)
Definition timestampField (t : Z) : Z :=
  if t <? TIMESTAMP_EXTENDED then t else TIMESTAMP_EXTENDED.

Definition extendedTimestamp (t : Z) : list Z :=
  if t <? TIMESTAMP_EXTENDED then [] else SimpleCodec.put32 t.

Definition Header_Write (h : Header.t) : list Z :=
  basicHeader (Header.Format h) (Header.ChunkStreamId h) ++
  (if Header.Format h =? HEADER_FORMAT_FULL then
     put24 (timestampField (Header.Timestamp h)) ++
     put24 (Header.MessageLength h) ++
     Header.MessageTypeId h :: SimpleCodec.put32 (Header.MessageStreamId h) ++
     extendedTimestamp (Header.Timestamp h)
   else if Header.Format h =? HEADER_FORMAT_SAME_STREAM then
     put24 (timestampField (Header.Timestamp h)) ++
     put24 (Header.MessageLength h) ++
     Header.MessageTypeId h :: extendedTimestamp (Header.Timestamp h)
   else if Header.Format h =? HEADER_FORMAT_SAME_LENGTH_AND_STREAM then
     put24 (timestampField (Header.Timestamp h)) ++
     extendedTimestamp (Header.Timestamp h)
   else []).

Definition readBasic (s : list Z) : option (Z * Z * list Z) :=
  match s with
  | [] => None
  | b :: s1 =>
      if b mod 64 =? 0 then
        match s1 with
        | b1 :: s2 => Some (b / 64, b1 + 64, s2)
        | _ => None
        end
      else if b mod 64 =? 1 then
        match s1 with
        | b1 :: b2 :: s2 => Some (b / 64, b2 * 256 + b1 + 64, s2)
        | _ => None
        end
      else Some (b / 64, b mod 64, s1)
  end.

Definition readTimestamp (t : Z) (s : list Z) : option (Z * list Z) :=
  if t =? TIMESTAMP_EXTENDED then
    match s with
    | e0 :: e1 :: e2 :: e3 :: rest => Some (SimpleCodec.get32 e0 e1 e2 e3, rest)
    | _ => None
    end
  else Some (t, s).

Definition ReadHeader (s : list Z) : option Header.t * list Z :=
  match readBasic s with
  | None => (None, [])
  | Some (f, id, s1) =>
      if f =? HEADER_FORMAT_FULL then
        match s1 with
        | t0 :: t1 :: t2 :: l0 :: l1 :: l2 :: ty :: i0 :: i1 :: i2 :: i3
          :: s2 =>
            match readTimestamp (get24 t0 t1 t2) s2 with
            | Some (t, rest) =>
                (Some (Header.mk f id t (get24 l0 l1 l2) ty
                         (SimpleCodec.get32 i0 i1 i2 i3)), rest)
            | None => (None, [])
            end
        | _ => (None, [])
        end
      else if f =? HEADER_FORMAT_SAME_STREAM then
        match s1 with
        | t0 :: t1 :: t2 :: l0 :: l1 :: l2 :: ty :: s2 =>
            match readTimestamp (get24 t0 t1 t2) s2 with
            | Some (t, rest) =>
                (Some (Header.mk f id t (get24 l0 l1 l2) ty 0), rest)
            | None => (None, [])
            end
        | _ => (None, [])
        end
      else if f =? HEADER_FORMAT_SAME_LENGTH_AND_STREAM then
        match s1 with
        | t0 :: t1 :: t2 :: s2 =>
            match readTimestamp (get24 t0 t1 t2) s2 with
            | Some (t, rest) => (Some (Header.mk f id t 0 0 0), rest)
            | None => (None, [])
            end
        | _ => (None, [])
        end
      else (Some (Header.mk f id 0 0 0 0), s1)
  end.

End WireCodec.

(** ** Vocabulary of the statements *)

(** The client a loop iteration leaves behind, when it ends. *)
Definition final (o : outcome Client) : option Client :=
  match o with
  | Next c | Exit c => Some c
  | _ => None
  end.

(** The state of the inbound chunk stream [id], if there is one. *)
Definition inbound (c : Client) (id : Z) : option InboundChunkStream.t :=
  inChunkStreams c !! id.

(** The message a chunk on stream [id] was added to: still in progress on
    the chunk stream, or complete and last in the dispatch queue. *)
Definition chunkMessage (c : Client) (id : Z) : option Message.t :=
  match inbound c id with
  | Some cs =>
      match InboundChunkStream.currentMessage cs with
      | Some m => Some m
      | None => last (inMessages c)
      end
  | None => None
  end.

(** The wire image of a message cut into the payload slices [pieces]: the
    header as given before the first slice, the same header in
    CONTINUATION format before every later one. *)
Fixpoint frames (Header_Write : Header.t -> list Z) (h : Header.t)
    (pieces : list (list Z)) : list Z :=
  match pieces with
  | [] => []
  | p :: ps =>
      Header_Write h ++ p ++
      frames Header_Write (Header.set_Format HEADER_FORMAT_CONTINUATION h) ps
  end.

(** [pieces] cuts a payload into chunks of size [C]: every slice but the
    last has exactly [C] bytes, the last has between 1 and [C]. *)
Fixpoint chunking (C : Z) (pieces : list (list Z)) : Prop :=
  match pieces with
  | [] => True
  | p :: ps =>
      match ps with
      | [] => 0 < Z.of_nat (length p) <= C
      | _ :: _ => Z.of_nat (length p) = C
      end /\ chunking C ps
  end.

(** Range of the fields of a message. *)
Definition wfMessage (m : Message.t) : Prop :=
  0 <= Message.Type_ m < 256 /\
  0 <= Message.ChunkStreamId m < 2 ^ 32 /\
  0 <= Message.StreamId m < 2 ^ 32 /\
  0 <= Message.Timestamp m < 2 ^ 32 /\
  0 <= Message.Length m < 2 ^ 32.

(** Modelled from the spec: what the send path expects of
    [NewOutboundHeader] (chunk_stream.go is missing): a header in FULL
    format that carries the timestamp, length, type and stream id of the
    message, and that the wire format can carry. *)
Definition outbound_header_contract
    (NewOutboundHeader :
       OutboundChunkStream.t -> Message.t -> Header.t * OutboundChunkStream.t)
    (cs : OutboundChunkStream.t) (m : Message.t) : Prop :=
  let h := fst (NewOutboundHeader cs m) in
  wfHeader h /\
  Header.Format h = HEADER_FORMAT_FULL /\
  Header.Timestamp h = Message.Timestamp m /\
  Header.MessageLength h = Message.Length m /\
  Header.MessageTypeId h = Message.Type_ m /\
  Header.MessageStreamId h = Message.StreamId m.

(** Modelled from the spec: what the receive path expects of
    [Header.CalculateTimestamp] (header.go is missing).  Decoding has put
    the extended timestamp, where there is one, in the place of the
    three-byte field, so the timestamp of a decoded FULL header is its
    timestamp field. *)
Definition timestamp_contract (CalculateTimestamp : Header.t -> Z) : Prop :=
  forall h, Header.Format h = HEADER_FORMAT_FULL ->
            CalculateTimestamp h = Header.Timestamp h.

(** No step but the command handler raises [connected]. *)
Definition keeps_down (c c' : Client) : Prop :=
  connected c' = true -> connected c = true.

(** What writing to the connection and shutting it down leave alone. *)
Definition send_frame (c c' : Client) : Prop :=
  outChunkStreams c' = outChunkStreams c /\
  outMessages c' = outMessages c /\
  outChunkSize c' = outChunkSize c /\
  inChunkStreams c' = inChunkStreams c /\
  inMessages c' = inMessages c /\
  inChunkSize c' = inChunkSize c /\
  inBytes c' = inBytes c /\
  rx (conn c') = rx (conn c).

(** [c'] is [c] after the bytes [bs] were written to the connection and
    nothing else happened. *)
Definition after_writing (bs : list Z) (c c' : Client) : Prop :=
  tx (conn c') = tx (conn c) ++ bs /\
  closed (conn c') = closed (conn c) /\
  wbroken (conn c') = wbroken (conn c) /\
  connected c' = connected c /\
  trace c' = trace c /\
  uint32 (outBytes c') = uint32 (outBytes c + Z.of_nat (length bs)) /\
  send_frame c c'.

(** The state in which a loop that was connected leaves the client when
    it ends: not connected, socket closed, one close added to the trace. *)
Definition disconnected_from (c c' : Client) : Prop :=
  connected c' = false /\ closed (conn c') = true /\
  trace c' = trace c ++ [ConnClose].

(** The header of a CONTINUATION chunk on chunk stream [id]. *)
Definition continues (id : Z) (h : Header.t) : Prop :=
  Header.Format h = HEADER_FORMAT_CONTINUATION /\
  Header.ChunkStreamId h = id.

(** The body of the receive loop on the headers [hs], one chunk after the
    other, for as long as the loop goes on. *)
Fixpoint receiveChunks (CalculateTimestamp : Header.t -> Z)
    (hs : list Header.t) (c : Client) : outcome Client :=
  match hs with
  | [] => Next c
  | h :: hs' =>
      match receiveChunk CalculateTimestamp c h with
      | Next c1 => receiveChunks CalculateTimestamp hs' c1
      | o => o
      end
  end.


(** ** Inputs of the examples *)

(** An open connection on which the bytes [bytes] will arrive. *)
Definition openConn (bytes : list Z) : Conn := mkConn false false bytes [].

(** A client that has been connected on [k], with default chunk sizes. *)
Definition connectedClient (k : Conn) : Client :=
  set_connected true (NewClient k).

(** An audio message of one byte on chunk stream 5. *)
Definition audioMessage : Message.t := Message.mk 8 5 1 0 0 1 [7].

(** A command message of [n] zero bytes on the command chunk stream. *)
Definition commandMessage (n : nat) : Message.t :=
  Message.mk MESSAGE_TYPE_AMF0 CHUNK_STREAM_ID_COMMAND 0 0 0 (Z.of_nat n)
    (repeat 0 n).

(** A connected client on [k] with the given outbound and inbound chunk
    sizes and the messages [out] waiting to be sent. *)
Definition clientWith (k : Conn) (outC inC : Z) (out : list Message.t)
    : Client :=
  mkClient true k 0 out DEFAULT_WINDOW_SIZE outC ∅
    0 [] DEFAULT_WINDOW_SIZE inC ∅ [].

(** A command message of five bytes, and one with no payload. *)
Definition fiveByteMessage : Message.t :=
  Message.mk MESSAGE_TYPE_AMF0 CHUNK_STREAM_ID_COMMAND 7 5 5 5 [1; 2; 3; 4; 5].

Definition emptyMessage : Message.t :=
  Message.mk MESSAGE_TYPE_AMF0 CHUNK_STREAM_ID_COMMAND 7 5 5 0 [].

(** A chunk-size message that announces chunks of 4096 bytes. *)
Definition chunkSizeMessage : Message.t :=
  Message.mk MESSAGE_TYPE_CHUNK_SIZE CHUNK_STREAM_ID_PROTOCOL 0 0 0 4
    [0; 0; 16; 0].

(** The bytes the send loop writes for a message, with the simple codec
    and outbound chunk size [C]. *)
Definition wireOf (C : Z) (m : Message.t) : list Z :=
  match sendLoop_step SimpleCodec.Header_Write SimpleCodec.NewOutboundHeader
          (clientWith (openConn []) C C [m]) with
  | Next c => tx (conn c)
  | _ => []
  end.

(** A receiving client with chunk size [C] on which [bytes] arrive, after
    [n] iterations of the receive loop. *)
Definition receiverAfter (n : nat) (C : Z) (bytes : list Z)
    : outcome Client :=
  receiveLoop SimpleCodec.ReadHeader SimpleCodec.CalculateTimestamp n
    (clientWith (openConn bytes) C C []).

(** The working timestamp recorded on chunk stream [id]. *)
Definition timestampOf (id : Z) (o : outcome Client) : option Z :=
  match final o with
  | Some c => InboundChunkStream.lastInAbsoluteTimestamp <$> inbound c id
  | None => None
  end.

(** A client whose connection has a broken write side and no bytes to
    read, with one message waiting to be sent. *)
Definition faultyClient : Client :=
  set_outMessages [audioMessage] (connectedClient (mkConn false true [] [])).

(** A receiving client whose chunk stream 5 carries the last header [lh],
    the last timestamp [abs] and the message in progress [cur]. *)
Definition receiverOn (lh : Header.t) (abs : Z) (cur : option Message.t)
    (bytes : list Z) (C : Z) : Client :=
  storeInbound 5 (InboundChunkStream.mk 5 (Some lh) abs cur)
    (clientWith (openConn bytes) C C []).

(** ** The rest of the client *)

(** [Client.NextTransactionId] on the counter [lastTransactionId]:
    [atomic.AddUint32(&c.lastTransactionId, 1)] stores and returns the
    incremented value.  Result: the id and the counter afterwards. *)
Definition NextTransactionId (last : Z) : Z * Z :=
  let next := uint32 (last + 1) in (next, next).

(** The ids that [n] calls of [NextTransactionId] return, in order,
    starting from the counter [last]. *)
Fixpoint transactionIds (n : nat) (last : Z) : list Z :=
  match n with
  | O => []
  | S n' =>
      let '(id, last') := NextTransactionId last in
      id :: transactionIds n' last'
  end.

(** [connectCommand]: takes the next transaction id, fills a buffer with
    the encoded command and puts the message on [outMessages].  The
    encoders are an external package and the command carries the URL and a
    new UUID; [buf] stands for the bytes they wrote, whatever they are.
    Result: the counter afterwards and the outcome for the client; the
    send on the channel blocks when it is full. *)
Definition connectCommand (buf : list Z) (last : Z) (c : Client)
    : Z * outcome Client :=
  let '(tid, last') := NextTransactionId last in
  let m := Message.mk MESSAGE_TYPE_AMF0 CHUNK_STREAM_ID_COMMAND 0 0 0
             (uint32 (Z.of_nat (length buf))) buf in
  (last',
   if (length (outMessages c) <? MESSAGE_QUEUE_CAPACITY)%nat
   then Next (set_outMessages (outMessages c ++ [m]) c)
   else Blocked).

(** ** Vocabulary of the further statements *)

(** A message the protocol handler can read: a chunk-size or bandwidth
    message on the protocol chunk stream holds the four bytes of its
    value. *)
Definition readable (m : Message.t) : Prop :=
  Message.ChunkStreamId m = CHUNK_STREAM_ID_PROTOCOL ->
  Message.Type_ m = MESSAGE_TYPE_CHUNK_SIZE
  \/ Message.Type_ m = MESSAGE_TYPE_BANDWIDTH ->
  (4 <= length (Message.Buffer m))%nat.

(** Whether a message travels on the command chunk stream. *)
Definition onCommandStream (m : Message.t) : bool :=
  Message.ChunkStreamId m =? CHUNK_STREAM_ID_COMMAND.

(** The state of an inbound chunk stream is sound: the length recorded in
    its last header is a [uint32], and a message in progress holds fewer
    bytes than it declares. *)
Definition stream_ok (cs : InboundChunkStream.t) : Prop :=
  (forall lh, InboundChunkStream.lastHeader cs = Some lh ->
     0 <= Header.MessageLength lh < 2 ^ 32) /\
  (forall m, InboundChunkStream.currentMessage cs = Some m ->
     Z.of_nat (length (Message.Buffer m)) < Message.Length m < 2 ^ 32).

(** [bytes] is what the send loop writes for the message [m] with chunk
    size [C] when the chunk stream of [m] has no recorded state: the
    frames of a chunking of the buffer, under the header made for [m]. *)
Definition wire_image (Header_Write : Header.t -> list Z)
    (NewOutboundHeader :
       OutboundChunkStream.t -> Message.t -> Header.t * OutboundChunkStream.t)
    (C : Z) (m : Message.t) (bytes : list Z) : Prop :=
  exists pieces,
    chunking C pieces /\ concat pieces = Message.Buffer m /\
    bytes = frames Header_Write
              (NewOutboundHeader
                 (NewOutboundChunkStream (Message.ChunkStreamId m)) m).1
              pieces.

(** The events of a trace that are calls on the application handler. *)
Definition isHandlerCall (e : Event) : bool :=
  match e with
  | ConnClose => false
  | OnConnect | OnDisconnect | OnReceive _ => true
  end.

Definition handlerCalls (t : list Event) : list Event :=
  List.filter isHandlerCall t.

(** What the receive loop leaves alone: everything outbound, and the
    inbound chunk size. *)
Definition recv_frame (c c' : Client) : Prop :=
  tx (conn c') = tx (conn c) /\
  wbroken (conn c') = wbroken (conn c) /\
  outBytes c' = outBytes c /\
  outMessages c' = outMessages c /\
  outChunkSize c' = outChunkSize c /\
  outChunkStreams c' = outChunkStreams c /\
  inChunkSize c' = inChunkSize c.

(** A step added nothing to the trace, or the one close of [Disconnect]. *)
Definition at_most_one_close (c c' : Client) : Prop :=
  trace c' = trace c \/ trace c' = trace c ++ [ConnClose].

(** [c'] is [c] after more bytes were written, each of them counted in
    [outBytes]. *)
Definition wrote_more (c c' : Client) : Prop :=
  exists bytes,
    tx (conn c') = tx (conn c) ++ bytes /\
    uint32 (outBytes c') = uint32 (outBytes c + Z.of_nat (length bytes)).

(** [c'] is [c] after more bytes were read, each of them counted in
    [inBytes]. *)
Definition read_more (c c' : Client) : Prop :=
  exists got,
    rx (conn c) = got ++ rx (conn c') /\
    uint32 (inBytes c') = uint32 (inBytes c + Z.of_nat (length got)).

(** A header decoder that only consumes: what it leaves is the end of
    what it was given. *)
Definition consumes_prefix (ReadHeader : list Z -> option Header.t * list Z)
    : Prop :=
  forall s, exists pre, s = pre ++ (ReadHeader s).2.

(** A message ready to be sent: the buffer holds the declared number of
    bytes, a [uint32]. *)
Definition sendable (m : Message.t) : Prop :=
  Z.of_nat (length (Message.Buffer m)) = Message.Length m /\
  Message.Length m < 2 ^ 32.

(** ** Inputs of the further examples *)

(** An acknowledgement-size message with no payload, and a chunk-size
    message cut short. *)
Definition emptyAckSizeMessage : Message.t :=
  Message.mk MESSAGE_TYPE_ACK_SIZE CHUNK_STREAM_ID_PROTOCOL 0 0 0 0 [].

Definition shortChunkSizeMessage : Message.t :=
  Message.mk MESSAGE_TYPE_CHUNK_SIZE CHUNK_STREAM_ID_PROTOCOL 0 0 0 2 [0; 1].

(** A chunk-size message that announces zero. *)
Definition zeroChunkSizeMessage : Message.t :=
  Message.mk MESSAGE_TYPE_CHUNK_SIZE CHUNK_STREAM_ID_PROTOCOL 0 0 0 4
    [0; 0; 0; 0].

(** A message that declares three bytes and holds one. *)
Definition truncatedMessage : Message.t := Message.mk 8 5 1 0 0 3 [7].

(** A receiver in the middle of a message of three bytes on chunk stream
    5, of which one arrived, with chunk size one. *)
Definition midMessageReceiver (bytes : list Z) : Client :=
  receiverOn (Header.mk HEADER_FORMAT_FULL 5 5 3 8 1) 5
    (Some (Message.mk 8 5 1 5 5 3 [1])) bytes 1.

(** A client on a faulty connection on which a command message is still
    waiting to be dispatched, and the client after the read fault. *)
Definition faultyClientWithReply : Client :=
  set_inMessages [commandMessage 3] faultyClient.

Definition afterReadFault : Client :=
  default faultyClientWithReply
    (final (receiveLoop_step SimpleCodec.ReadHeader
              SimpleCodec.CalculateTimestamp faultyClientWithReply)).

(** Bytes that stand for an encoded connect command. *)
Definition exampleCommand : list Z := [2; 0; 7; 99].

(** ** Basic facts *)

Lemma uint32_small z : 0 <= z < 2 ^ 32 -> uint32 z = z.
Proof. intros Hz. unfold uint32. apply Z.mod_small. exact Hz. Qed.

Lemma uint32_range z : 0 <= uint32 z < 2 ^ 32.
Proof. unfold uint32. apply Z.mod_pos_bound. lia. Qed.

Lemma Disconnect_connected c : connected (Disconnect c) = false.
Proof. reflexivity. Qed.

Lemma Disconnect_closed c : closed (conn (Disconnect c)) = true.
Proof. reflexivity. Qed.

Lemma Disconnect_trace c : trace (Disconnect c) = trace c ++ [ConnClose].
Proof. reflexivity. Qed.


Lemma disconnectIfConnected_on c :
  connected c = true -> disconnectIfConnected c = Disconnect c.
Proof. unfold disconnectIfConnected. intros ->. reflexivity. Qed.

Lemma Client_Write_fails c p :
  closed (conn c) || wbroken (conn c) = true -> Client_Write c p = None.
Proof. unfold Client_Write. intros ->. reflexivity. Qed.

Lemma Client_Write_ok c p :
  closed (conn c) = false -> wbroken (conn c) = false ->
  Client_Write c p = Some (wrote p c).
Proof. unfold Client_Write. intros -> ->. reflexivity. Qed.

Lemma keeps_down_refl c : keeps_down c c.
Proof. unfold keeps_down. auto. Qed.

Lemma keeps_down_trans c1 c2 c3 :
  keeps_down c1 c2 -> keeps_down c2 c3 -> keeps_down c1 c3.
Proof. unfold keeps_down. auto. Qed.

Lemma keeps_down_Disconnect c : keeps_down c (Disconnect c).
Proof. unfold keeps_down. rewrite Disconnect_connected. discriminate. Qed.

Lemma keeps_down_guard c : keeps_down c (disconnectIfConnected c).
Proof.
  unfold disconnectIfConnected. destruct (connected c) eqn:E.
  - unfold keeps_down. auto.
  - apply keeps_down_refl.
Qed.

Lemma keeps_down_Client_Write c p c' :
  Client_Write c p = Some c' -> keeps_down c c'.
Proof.
  unfold Client_Write. destruct (closed (conn c) || wbroken (conn c)); [discriminate|].
  intros [= <-]. unfold keeps_down. auto.
Qed.

Lemma keeps_down_CopyN_out c buf ws :
  keeps_down c (CopyN_out c buf ws).1.1.1.
Proof.
  unfold CopyN_out. destruct (take (Z.to_nat ws) buf) as [|b l].
  - apply keeps_down_refl.
  - destruct (Client_Write c (b :: l)) as [c1|] eqn:E; simpl.
    + eapply keeps_down_Client_Write; eauto.
    + apply keeps_down_refl.
Qed.

Lemma keeps_down_Client_ReadN c n :
  keeps_down c (Client_ReadN c n).2.
Proof.
  unfold Client_ReadN, keeps_down.
  destruct (n =? 0); [|destruct (closed (conn c))]; simpl; auto.
Qed.

Create HintDb pipeline.
#[local] Hint Resolve keeps_down_refl keeps_down_Disconnect keeps_down_guard
  keeps_down_CopyN_out keeps_down_Client_ReadN : pipeline.

(** ** Facts that do not depend on the codec *)

Lemma handleProtocolMessage_cases m c c' :
  handleProtocolMessage m c = Some c' ->
  c' = c \/ exists size, c' = set_inChunkSize size c.
Proof.
  unfold handleProtocolMessage.
  destruct (Message.Type_ m =? MESSAGE_TYPE_CHUNK_SIZE).
  { destruct (BigEndian_Uint32 _) as [size|]; [|discriminate].
    intros [= <-]. right. eexists. reflexivity. }
  destruct (Message.Type_ m =? MESSAGE_TYPE_ACK_SIZE).
  { intros [= <-]. left. reflexivity. }
  destruct (Message.Type_ m =? MESSAGE_TYPE_BANDWIDTH).
  { destruct (BigEndian_Uint32 _); [|discriminate].
    intros [= <-]. left. reflexivity. }
  intros [= <-]. left. reflexivity.
Qed.

Lemma send_frame_refl c : send_frame c c.
Proof. unfold send_frame. tauto. Qed.

Lemma send_frame_trans c1 c2 c3 :
  send_frame c1 c2 -> send_frame c2 c3 -> send_frame c1 c3.
Proof. unfold send_frame. intuition congruence. Qed.

Lemma send_frame_guard c : send_frame c (disconnectIfConnected c).
Proof.
  unfold disconnectIfConnected, send_frame.
  destruct (connected c); simpl; tauto.
Qed.

Lemma send_frame_Client_Write c p c' :
  Client_Write c p = Some c' -> send_frame c c'.
Proof.
  unfold Client_Write.
  destruct (closed (conn c) || wbroken (conn c)); [discriminate|].
  intros [= <-]. unfold send_frame. simpl. tauto.
Qed.

Lemma send_frame_CopyN_out c buf ws : send_frame c (CopyN_out c buf ws).1.1.1.
Proof.
  unfold CopyN_out. destruct (take (Z.to_nat ws) buf) as [|b l].
  - apply send_frame_refl.
  - destruct (Client_Write c (b :: l)) as [c1|] eqn:E; simpl.
    + eapply send_frame_Client_Write; eauto.
    + apply send_frame_refl.
Qed.

Lemma inbound_storeInbound id cs c : inbound (storeInbound id cs c) id = Some cs.
Proof. unfold inbound, storeInbound. simpl. apply lookup_insert_eq. Qed.

Lemma inbound_guard c id :
  inbound (disconnectIfConnected c) id = inbound c id.
Proof. unfold disconnectIfConnected. destruct (connected c); reflexivity. Qed.

Lemma inboundChunkStream_lookup c id :
  inbound (inboundChunkStream c id).2 id = Some (inboundChunkStream c id).1.
Proof.
  unfold inboundChunkStream, inbound.
  destruct (inChunkStreams c !! id) eqn:E; simpl; [exact E|].
  apply lookup_insert_eq.
Qed.

Lemma inboundChunkStream_frame c id :
  let c1 := (inboundChunkStream c id).2 in
  conn c1 = conn c /\ inMessages c1 = inMessages c /\
  inChunkSize c1 = inChunkSize c /\ connected c1 = connected c /\
  trace c1 = trace c /\ inBytes c1 = inBytes c.
Proof.
  unfold inboundChunkStream.
  destruct (inChunkStreams c !! id); simpl; repeat split; reflexivity.
Qed.

Lemma min_by_test a b : (if a >? b then b else a) = Z.min a b.
Proof. destruct (Z.gtb_spec a b); lia. Qed.

(** What a successful read of [n] bytes does. *)
Lemma Client_ReadN_ok c n got c2 :
  Client_ReadN c n = (got, true, c2) ->
  rx (conn c) = got ++ rx (conn c2) /\ Z.of_nat (length got) = n /\
  closed (conn c2) = closed (conn c) /\
  inMessages c2 = inMessages c /\ inChunkStreams c2 = inChunkStreams c /\
  inChunkSize c2 = inChunkSize c /\ connected c2 = connected c /\
  trace c2 = trace c.
Proof.
  unfold Client_ReadN. destruct (Z.eqb_spec n 0) as [->|Hn].
  { intros [= <- <-]. repeat split; reflexivity. }
  destruct (closed (conn c)) eqn:Ec; [discriminate|].
  intros [= <- Hok <-]. simpl. apply Z.eqb_eq in Hok.
  split; [symmetry; apply take_drop|]. split; [exact Hok|].
  repeat split; try reflexivity.
Qed.

Lemma inboundChunkStream_found c id cs :
  inbound c id = Some cs -> inboundChunkStream c id = (cs, c).
Proof. unfold inbound, inboundChunkStream. intros ->. reflexivity. Qed.

Lemma uint32_add_idemp a b : uint32 (uint32 a + b) = uint32 (a + b).
Proof. unfold uint32. apply Zplus_mod_idemp_l. Qed.

(** Adding [d] to a [uint32] leaves it as it is exactly when [d] is 0
    modulo 2^32. *)
Lemma uint32_fixed a d :
  0 <= a < 2 ^ 32 -> (uint32 (a + d) = a <-> uint32 d = 0).
Proof.
  intros Ha. unfold uint32. split; intros H.
  - rewrite Z.add_mod, (Z.mod_small a) in H by lia.
    pose proof (Z.mod_pos_bound d (2 ^ 32) ltac:(lia)) as Hd.
    destruct (Z.ltb_spec (a + d mod 2 ^ 32) (2 ^ 32)) as [Hlt|Hge].
    + rewrite Z.mod_small in H by lia. lia.
    + replace (a + d mod 2 ^ 32) with (a + d mod 2 ^ 32 - 2 ^ 32 + 1 * 2 ^ 32)
        in H by lia.
      rewrite Z.mod_add, Z.mod_small in H by lia. lia.
  - rewrite Z.add_mod, H, Z.add_0_r, Z.mod_mod, Z.mod_small by lia.
    reflexivity.
Qed.

Lemma lor_shiftl_add lo hi k :
  0 <= k -> 0 <= lo < 2 ^ k -> Z.lor lo (Z.shiftl hi k) = lo + hi * 2 ^ k.
Proof.
  intros Hk Hlo. rewrite Z.shiftl_mul_pow2 by exact Hk.
  assert (Z.land lo (hi * 2 ^ k) = 0) as Hdisj.
  { apply Z.bits_inj'. intros n Hn. rewrite Z.land_spec, Z.bits_0.
    destruct (Z.lt_ge_cases n k) as [Hlt|Hge].
    - rewrite Z.mul_pow2_bits_low by exact Hlt. apply andb_false_r.
    - rewrite <- (Z.mod_small lo (2 ^ k)) by exact Hlo.
      rewrite Z.mod_pow2_bits_high by lia. reflexivity. }
  rewrite <- Z.lxor_lor by exact Hdisj.
  symmetry. apply Z.add_nocarry_lxor. exact Hdisj.
Qed.

(** The value [binary.BigEndian.Uint32] reads from four bytes. *)
Lemma BigEndian_Uint32_value b0 b1 b2 b3 rest :
  0 <= b0 < 256 -> 0 <= b1 < 256 -> 0 <= b2 < 256 -> 0 <= b3 < 256 ->
  BigEndian_Uint32 (b0 :: b1 :: b2 :: b3 :: rest)
  = Some (b0 * 2 ^ 24 + b1 * 2 ^ 16 + b2 * 2 ^ 8 + b3).
Proof.
  intros H0 H1 H2 H3. unfold BigEndian_Uint32. f_equal.
  rewrite (lor_shiftl_add b3 b2 8) by lia.
  rewrite (lor_shiftl_add (b3 + b2 * 2 ^ 8) b1 16) by lia.
  rewrite (lor_shiftl_add (b3 + b2 * 2 ^ 8 + b1 * 2 ^ 16) b0 24) by lia.
  lia.
Qed.

Lemma after_writing_nil c : after_writing [] c c.
Proof.
  unfold after_writing. rewrite app_nil_r, Z.add_0_r.
  repeat split; try reflexivity.
Qed.

Lemma after_writing_wrote p c : after_writing p c (wrote p c).
Proof.
  unfold after_writing, wrote, send_frame. simpl.
  repeat split; try reflexivity.
  unfold uint32. apply Z.mod_mod. lia.
Qed.

Lemma after_writing_trans bs1 bs2 c1 c2 c3 :
  after_writing bs1 c1 c2 -> after_writing bs2 c2 c3 ->
  after_writing (bs1 ++ bs2) c1 c3.
Proof.
  unfold after_writing.
  intros (Htx1 & Hcl1 & Hwb1 & Hcn1 & Htr1 & Hob1 & Hfr1)
         (Htx2 & Hcl2 & Hwb2 & Hcn2 & Htr2 & Hob2 & Hfr2).
  split; [rewrite Htx2, Htx1, app_assoc; reflexivity|].
  do 4 (split; [congruence|]).
  split; [|eapply send_frame_trans; eauto].
  rewrite Hob2, <- uint32_add_idemp, Hob1, uint32_add_idemp.
  f_equal. rewrite length_app. lia.
Qed.

(** Every slice of a chunking holds at least one byte. *)
Lemma chunking_pieces_nonempty C pieces :
  0 < C -> chunking C pieces ->
  Forall (fun p => 0 < Z.of_nat (length p) <= C) pieces.
Proof.
  intros HC. induction pieces as [|p ps IH]; intros Hch; [constructor|].
  destruct Hch as [Hp Hps]. constructor; [|apply IH; exact Hps].
  destruct ps; lia.
Qed.

Lemma chunking_count C pieces :
  0 < C -> chunking C pieces ->
  (length pieces <= length (concat pieces))%nat.
Proof.
  intros HC Hch. apply chunking_pieces_nonempty in Hch; [|exact HC].
  induction Hch as [|p ps Hp _ IH]; simpl; [lia|].
  rewrite length_app. lia.
Qed.

(** The slice the loops take next: all that remains when it fits in a
    chunk, a full chunk otherwise. *)
Lemma chunking_slice C p ps :
  0 < C -> chunking C (p :: ps) ->
  Z.min (Z.of_nat (length (concat (p :: ps)))) C = Z.of_nat (length p).
Proof.
  intros HC [Hp Hps]. simpl. rewrite length_app.
  destruct ps as [|p2 ps].
  - simpl. lia.
  - apply chunking_pieces_nonempty in Hps; [|exact HC].
    pose proof (Forall_inv Hps) as Hp2. simpl in Hp2.
    simpl. rewrite length_app. lia.
Qed.

Lemma CopyN_out_slice c p rest :
  closed (conn c) = false -> wbroken (conn c) = false -> p <> [] ->
  CopyN_out c (p ++ rest) (Z.of_nat (length p))
  = (wrote p c, rest, Z.of_nat (length p), true).
Proof.
  intros Hcl Hwb Hp. unfold CopyN_out. rewrite Nat2Z.id.
  rewrite take_app_length, drop_app_length.
  destruct p as [|b p]; [contradiction|].
  rewrite Client_Write_ok by assumption. rewrite Z.eqb_refl. reflexivity.
Qed.

Lemma uniform_pieces C (k : nat) : forall l : list Z,
  0 < C -> Z.of_nat (length l) = Z.of_nat k * C ->
  exists pieces,
    concat pieces = l /\ length pieces = k /\
    Forall (fun p => Z.of_nat (length p) = C) pieces.
Proof.
  induction k as [|k IH]; intros l HC Hlen.
  - exists []. destruct l; [|simpl in Hlen; lia].
    repeat split. constructor.
  - destruct (IH (drop (Z.to_nat C) l) HC) as (ps & Hcat & Hk & Hall).
    { rewrite length_drop. lia. }
    exists (take (Z.to_nat C) l :: ps).
    split; [simpl; rewrite Hcat; apply take_drop|].
    split; [simpl; congruence|].
    constructor; [|exact Hall]. rewrite length_take. lia.
Qed.

Lemma chunking_app C ps tl :
  0 < C -> Forall (fun p => Z.of_nat (length p) = C) ps ->
  chunking C tl -> chunking C (ps ++ tl).
Proof.
  intros HC Hall Htl. induction Hall as [|p ps Hp _ IH]; [exact Htl|].
  simpl. split; [|exact IH]. destruct (ps ++ tl); lia.
Qed.

Lemma RemainingBytes_eq m r :
  Message.Length m = Z.of_nat (length (Message.Buffer m)) + r ->
  0 <= r -> Message.Length m < 2 ^ 32 ->
  Message.RemainingBytes m = r.
Proof.
  intros Hlen Hr Hlt. unfold Message.RemainingBytes.
  rewrite uint32_small; lia.
Qed.

Lemma Client_ReadN_slice c p rest :
  closed (conn c) = false -> rx (conn c) = p ++ rest ->
  exists c2, Client_ReadN c (Z.of_nat (length p)) = (p, true, c2).
Proof.
  intros Hcl Hrx. unfold Client_ReadN.
  destruct (Z.eqb_spec (Z.of_nat (length p)) 0) as [H0|H0].
  - destruct p; [|simpl in H0; lia]. eexists. reflexivity.
  - rewrite Hcl, Hrx, Nat2Z.id, take_app_length, Z.eqb_refl.
    eexists. reflexivity.
Qed.

Lemma wfHeader_continuation h :
  wfHeader h -> wfHeader (Header.set_Format HEADER_FORMAT_CONTINUATION h).
Proof.
  unfold wfHeader, HEADER_FORMAT_CONTINUATION. simpl. intuition lia.
Qed.

Lemma chunking_exists C (n : nat) : forall l : list Z,
  0 < C -> (length l <= n)%nat ->
  exists pieces, chunking C pieces /\ concat pieces = l.
Proof.
  induction n as [|n IH]; intros l HC Hn.
  - destruct l; [|simpl in Hn; lia]. exists []. split; [exact I|reflexivity].
  - destruct l as [|b l]; [exists []; split; [exact I|reflexivity]|].
    destruct (IH (drop (Z.to_nat C) (b :: l)) HC) as (ps & Hch & Hcat).
    { rewrite length_drop. simpl in Hn |- *. lia. }
    exists (take (Z.to_nat C) (b :: l) :: ps).
    split; [|simpl; rewrite Hcat; apply take_drop].
    split; [|exact Hch].
    destruct ps as [|p2 ps].
    + rewrite length_take. simpl. lia.
    + pose proof (chunking_pieces_nonempty C _ HC Hch) as Hall.
      pose proof (Forall_inv Hall) as Hp2. simpl in Hp2.
      apply (f_equal length) in Hcat. rewrite length_drop in Hcat.
      simpl in Hcat. rewrite length_app in Hcat.
      rewrite length_take. simpl. lia.
Qed.

(** ** The pipeline, for any codec *)

Section PipelineFacts.

Set Default Proof Using "Type".

Variable ReadHeader : list Z -> option Header.t * list Z.
Variable Header_Write : Header.t -> list Z.
Variable CalculateTimestamp : Header.t -> Z.
Variable NewOutboundHeader :
  OutboundChunkStream.t -> Message.t -> Header.t * OutboundChunkStream.t.

Local Abbreviation sendChunks := (rtmp.sendChunks Header_Write).
Local Abbreviation sendLoop_step := (rtmp.sendLoop_step Header_Write NewOutboundHeader).
Local Abbreviation receiveChunk := (rtmp.receiveChunk CalculateTimestamp).
Local Abbreviation receiveLoop_step :=
  (rtmp.receiveLoop_step ReadHeader CalculateTimestamp).
Local Abbreviation receiveLoop := (rtmp.receiveLoop ReadHeader CalculateTimestamp).
Local Abbreviation Client_ReadHeader := (rtmp.Client_ReadHeader ReadHeader).

(** *** [connected] is raised by the command handler only *)

Lemma keeps_down_sendChunks fuel : forall c h buf rem c',
  final (sendChunks fuel c h buf rem) = Some c' -> keeps_down c c'.
Proof.
  induction fuel as [|fuel IH]; intros c h buf rem c'; simpl.
  - destruct (rem >? 0); simpl; [discriminate|].
    intros [= <-]. apply keeps_down_refl.
  - destruct (rem >? 0); simpl; [|intros [= <-]; apply keeps_down_refl].
    destruct (Client_Write c (Header_Write h)) as [c1|] eqn:Ew; simpl.
    + pose proof (keeps_down_CopyN_out c1 buf
        (if rem >? outChunkSize c1 then outChunkSize c1 else rem)) as Hc.
      destruct (CopyN_out c1 buf _) as [[[c2 buf'] n] ok]; simpl in Hc.
      assert (keeps_down c c2) as H2
        by (eapply keeps_down_trans; [eapply keeps_down_Client_Write|]; eauto).
      destruct ok; simpl.
      * intros Hf. eapply keeps_down_trans; [exact H2|]. eapply IH; eauto.
      * intros [= <-]. eapply keeps_down_trans; eauto with pipeline.
    + intros [= <-]. auto with pipeline.
Qed.

Lemma keeps_down_sendLoop_step c c' :
  final (sendLoop_step c) = Some c' -> keeps_down c c'.
Proof.
  unfold rtmp.sendLoop_step. destruct (outMessages c) as [|m q]; [discriminate|].
  destruct (NewOutboundHeader _ m) as [h cs']. intros Hf.
  apply keeps_down_sendChunks in Hf. revert Hf.
  unfold keeps_down. destruct (outChunkStreams _ !! _); simpl; auto.
Qed.

Lemma keeps_down_inboundChunkStream c id :
  keeps_down c (inboundChunkStream c id).2.
Proof.
  unfold inboundChunkStream, keeps_down.
  destruct (inChunkStreams c !! id); simpl; auto.
Qed.

Lemma keeps_down_receiveChunk c h c' :
  final (receiveChunk c h) = Some c' -> keeps_down c c'.
Proof.
  unfold rtmp.receiveChunk.
  pose proof (keeps_down_inboundChunkStream c (Header.ChunkStreamId h)) as H1.
  destruct (inboundChunkStream c _) as [cs c1]; simpl in H1.
  destruct (resolveHeader cs h) as [[[[cs1 h1] ts] mo]|]; simpl.
  2:{ intros [= <-]. eapply keeps_down_trans; eauto with pipeline. }
  match goal with |- context [Client_ReadN c1 ?n] =>
    pose proof (keeps_down_Client_ReadN c1 n) as H2;
    destruct (Client_ReadN c1 n) as [[got ok] c2] end.
  simpl in H2.
  assert (keeps_down c c2) as H3 by (eapply keeps_down_trans; eauto).
  destruct ok.
  - destruct (Message.RemainingBytes _ =? 0).
    + destruct (_ <? _)%nat; simpl; [|discriminate].
      intros [= <-]. exact H3.
    + simpl. intros [= <-]. exact H3.
  - simpl. intros [= <-].
    eapply keeps_down_trans; [|apply keeps_down_guard]. exact H3.
Qed.

Lemma keeps_down_Client_ReadHeader c :
  keeps_down c (Client_ReadHeader c).2.
Proof.
  unfold rtmp.Client_ReadHeader, keeps_down.
  destruct (closed (conn c)); simpl; auto.
  destruct (ReadHeader _); simpl; auto.
Qed.

Lemma keeps_down_receiveLoop_step c c' :
  final (receiveLoop_step c) = Some c' -> keeps_down c c'.
Proof.
  unfold rtmp.receiveLoop_step.
  pose proof (keeps_down_Client_ReadHeader c) as H1.
  destruct (Client_ReadHeader c) as [[h|] c1]; simpl in H1.
  - intros Hf. eapply keeps_down_trans; [exact H1|].
    eapply keeps_down_receiveChunk; eauto.
  - simpl. intros [= <-]. eapply keeps_down_trans; eauto with pipeline.
Qed.

Lemma keeps_down_handleProtocolMessage m c c' :
  handleProtocolMessage m c = Some c' -> keeps_down c c'.
Proof.
  unfold handleProtocolMessage, keeps_down.
  repeat match goal with
         | |- context [if ?b then _ else _] => destruct b
         | |- context [match ?o with Some _ => _ | None => _ end] => destruct o
         end; intros [= <-]; auto.
Qed.

(** C10. Handling a message dispatched on the command chunk stream sets
    [connected] to true whatever the message and the state are (also
    after [Disconnect] lowered it), and nothing else in the pipeline
    does: after a [Disconnect], after the protocol handler, after a
    dispatch of a message on another chunk stream, and after an
    iteration of the send loop or of the receive loop, [connected] is
    true only if it was true before. *)
Theorem command_message_is_the_only_connect :
  (forall m c, connected (handleCommandMessage m c) = true) /\
  (forall m c, connected (handleCommandMessage m (Disconnect c)) = true) /\
  (forall c m q,
      inMessages c = m :: q ->
      Message.ChunkStreamId m = CHUNK_STREAM_ID_COMMAND ->
      exists c', dispatchLoop_step c = Next c' /\ connected c' = true) /\
  (forall c, keeps_down c (Disconnect c)) /\
  (forall m c c', handleProtocolMessage m c = Some c' -> keeps_down c c') /\
  (forall c m q c',
      inMessages c = m :: q ->
      Message.ChunkStreamId m <> CHUNK_STREAM_ID_COMMAND ->
      final (dispatchLoop_step c) = Some c' -> keeps_down c c') /\
  (forall c c', final (sendLoop_step c) = Some c' -> keeps_down c c') /\
  (forall c c', final (receiveLoop_step c) = Some c' -> keeps_down c c').
Proof.
  split; [reflexivity|]. split; [reflexivity|].
  split; [|split; [|split; [|split; [|split]]]].
  - intros c m q Hq Hid. unfold dispatchLoop_step. rewrite Hq, Hid.
    simpl. eexists. split; reflexivity.
  - apply keeps_down_Disconnect.
  - apply keeps_down_handleProtocolMessage.
  - intros c m q c' Hq Hid. unfold dispatchLoop_step. rewrite Hq.
    destruct (Message.ChunkStreamId m =? CHUNK_STREAM_ID_PROTOCOL).
    + destruct (handleProtocolMessage m _) as [c2|] eqn:E; simpl; [|discriminate].
      intros [= <-]. apply keeps_down_handleProtocolMessage in E.
      revert E. unfold keeps_down. simpl. auto.
    + destruct (Z.eqb_spec (Message.ChunkStreamId m) CHUNK_STREAM_ID_COMMAND);
        [contradiction|].
      simpl. intros [= <-]. unfold keeps_down. simpl. auto.
  - apply keeps_down_sendLoop_step.
  - apply keeps_down_receiveLoop_step.
Qed.

(** *** Dispatch routing *)

(** C2 (as amended). A dequeued message is routed by its chunk-stream id:
    a message on the protocol chunk stream (2) goes to the protocol
    handler, a message on the command chunk stream (3) to the command
    handler, and a message on any other chunk stream is dropped: the step
    leaves the client as it was but for the shortened queue.  In no case is
    the application handler called: the trace is unchanged. *)
Theorem dispatch_routes_by_chunk_stream_id (c : Client) (m : Message.t)
    (q : list Message.t) :
  inMessages c = m :: q ->
  (Message.ChunkStreamId m = CHUNK_STREAM_ID_PROTOCOL ->
     match handleProtocolMessage m (set_inMessages q c) with
     | Some c' => dispatchLoop_step c = Next c'
     | None => dispatchLoop_step c = Panicked
     end) /\
  (Message.ChunkStreamId m = CHUNK_STREAM_ID_COMMAND ->
     dispatchLoop_step c = Next (handleCommandMessage m (set_inMessages q c))) /\
  (Message.ChunkStreamId m <> CHUNK_STREAM_ID_PROTOCOL ->
   Message.ChunkStreamId m <> CHUNK_STREAM_ID_COMMAND ->
     dispatchLoop_step c = Next (set_inMessages q c)) /\
  (forall c', final (dispatchLoop_step c) = Some c' ->
     trace c' = trace c /\ inMessages c' = q).
Proof.
  intros Hq. unfold dispatchLoop_step. rewrite Hq.
  split; [|split; [|split]].
  - intros ->. simpl. destruct (handleProtocolMessage m _); reflexivity.
  - intros ->. reflexivity.
  - intros H2 H3.
    destruct (Z.eqb_spec (Message.ChunkStreamId m) CHUNK_STREAM_ID_PROTOCOL);
      [contradiction|].
    destruct (Z.eqb_spec (Message.ChunkStreamId m) CHUNK_STREAM_ID_COMMAND);
      [contradiction|].
    reflexivity.
  - intros c'.
    destruct (Message.ChunkStreamId m =? CHUNK_STREAM_ID_PROTOCOL).
    + destruct (handleProtocolMessage m _) as [c2|] eqn:E; simpl;
        [|discriminate].
      intros [= <-].
      destruct (handleProtocolMessage_cases _ _ _ E) as [->|[size ->]];
        split; reflexivity.
    + destruct (Message.ChunkStreamId m =? CHUNK_STREAM_ID_COMMAND);
        simpl; intros [= <-]; split; reflexivity.
Qed.

(** *** What the send path leaves alone *)

Lemma send_frame_sendChunks fuel : forall c h buf rem c',
  final (sendChunks fuel c h buf rem) = Some c' -> send_frame c c'.
Proof.
  induction fuel as [|fuel IH]; intros c h buf rem c'; simpl.
  - destruct (rem >? 0); simpl; [discriminate|].
    intros [= <-]. apply send_frame_refl.
  - destruct (rem >? 0); simpl; [|intros [= <-]; apply send_frame_refl].
    destruct (Client_Write c (Header_Write h)) as [c1|] eqn:Ew; simpl.
    + pose proof (send_frame_CopyN_out c1 buf
        (if rem >? outChunkSize c1 then outChunkSize c1 else rem)) as Hc.
      destruct (CopyN_out c1 buf _) as [[[c2 buf'] n] ok]; simpl in Hc.
      assert (send_frame c c2) as H2
        by (eapply send_frame_trans; [eapply send_frame_Client_Write|]; eauto).
      destruct ok; simpl.
      * intros Hf. eapply send_frame_trans; [exact H2|]. eapply IH; eauto.
      * intros [= <-]. eapply send_frame_trans; [exact H2|].
        apply send_frame_guard.
    + intros [= <-]. apply send_frame_guard.
Qed.

(** *** The outbound chunk-stream map *)

(** C9 (what the code does). When the send loop takes a message whose
    chunk-stream id has no entry in [outChunkStreams], the iteration ends
    with the map exactly as it was: the state built by
    [NewOutboundChunkStream] is used for the header and then lost, so the
    id still has no entry and the next message on it starts from a new
    state again.  This holds whatever [NewOutboundHeader] does and however
    the iteration ends. *)
Theorem sendLoop_does_not_record_chunk_stream (c : Client) (m : Message.t)
    (q : list Message.t) (c' : Client) :
  outMessages c = m :: q ->
  outChunkStreams c !! Message.ChunkStreamId m = None ->
  final (sendLoop_step c) = Some c' ->
  outChunkStreams c' = outChunkStreams c /\
  outChunkStreams c' !! Message.ChunkStreamId m = None.
Proof.
  intros Hq Hnone Hf.
  assert (outChunkStreams c' = outChunkStreams c) as E.
  2:{ split; [exact E|]. rewrite E. exact Hnone. }
  revert Hf. unfold rtmp.sendLoop_step. rewrite Hq. simpl. rewrite Hnone.
  destruct (NewOutboundHeader _ m) as [h cs'].
  intros Hf. apply send_frame_sendChunks in Hf. destruct Hf as [Hf _].
  exact Hf.
Qed.

(** *** The receive path: one chunk *)

(** The chunk-stream state after a chunk whose header was accepted,
    however the iteration ends: the last header and the working timestamp
    are the ones the [switch] produced. *)
Lemma receiveChunk_state c h cs1 h1 ts mo c' :
  resolveHeader (inboundChunkStream c (Header.ChunkStreamId h)).1 h
    = Some (cs1, h1, ts, mo) ->
  final (receiveChunk c h) = Some c' ->
  exists cs',
    inbound c' (Header.ChunkStreamId h) = Some cs' /\
    InboundChunkStream.lastHeader cs' = InboundChunkStream.lastHeader cs1 /\
    InboundChunkStream.lastInAbsoluteTimestamp cs' = ts.
Proof.
  unfold rtmp.receiveChunk.
  destruct (inboundChunkStream c _) as [cs c1]. simpl. intros ->.
  match goal with |- context [Client_ReadN c1 ?n] =>
    destruct (Client_ReadN c1 n) as [[got ok] c2] end.
  destruct ok.
  - destruct (Message.RemainingBytes _ =? 0).
    + destruct (_ <? _)%nat; simpl; [|discriminate].
      intros [= <-]. eexists. split; [apply inbound_storeInbound|].
      split; reflexivity.
    + simpl. intros [= <-]. eexists. split; [apply inbound_storeInbound|].
      split; reflexivity.
  - simpl. intros [= <-]. rewrite inbound_guard.
    eexists. split; [apply inbound_storeInbound|].
    destruct mo; split; reflexivity.
Qed.

(** A chunk that was read completely: the bytes taken from the connection
    are the slice [min(RemainingBytes, inChunkSize)] of the message the
    chunk belongs to, and they are appended to its buffer. *)
Lemma receiveChunk_next c h cs1 h1 ts mo c' :
  resolveHeader (inboundChunkStream c (Header.ChunkStreamId h)).1 h
    = Some (cs1, h1, ts, mo) ->
  receiveChunk c h = Next c' ->
  let m := default (newInboundMessage CalculateTimestamp h1 ts) mo in
  exists got,
    rx (conn c) = got ++ rx (conn c') /\
    Z.of_nat (length got) = Z.min (Message.RemainingBytes m) (inChunkSize c) /\
    chunkMessage c' (Header.ChunkStreamId h)
      = Some (Message.set_Buffer (Message.Buffer m ++ got) m) /\
    (if Message.RemainingBytes (Message.set_Buffer (Message.Buffer m ++ got) m)
        =? 0
     then inMessages c' =
            inMessages c ++ [Message.set_Buffer (Message.Buffer m ++ got) m]
     else inMessages c' = inMessages c) /\
    closed (conn c') = closed (conn c) /\ trace c' = trace c /\
    connected c' = connected c /\ inChunkSize c' = inChunkSize c /\
    inbound c' (Header.ChunkStreamId h)
      = Some (InboundChunkStream.set_currentMessage
                (if Message.RemainingBytes
                      (Message.set_Buffer (Message.Buffer m ++ got) m) =? 0
                 then None
                 else Some (Message.set_Buffer (Message.Buffer m ++ got) m))
                (InboundChunkStream.set_lastInAbsoluteTimestamp ts cs1)).
Proof.
  unfold rtmp.receiveChunk.
  pose proof (inboundChunkStream_frame c (Header.ChunkStreamId h)) as Hfr.
  destruct (inboundChunkStream c _) as [cs c1]. simpl in Hfr |- *.
  destruct Hfr as (Hk & Hq & Hsz & Hcn & Htr & _).
  intros ->. rewrite min_by_test.
  set (m := match mo with Some m => m | None => _ end).
  change (default (newInboundMessage CalculateTimestamp h1 ts) mo) with m.
  destruct (Client_ReadN c1 _) as [[got ok] c2] eqn:Er.
  destruct ok; [|discriminate].
  apply Client_ReadN_ok in Er.
  destruct Er as (Hrx & Hlen & Hcl & Hq2 & _ & Hsz2 & Hcn2 & Htr2).
  rewrite Hk in Hrx. rewrite Hsz in Hlen.
  destruct (Message.RemainingBytes _ =? 0) eqn:Erem.
  - destruct (_ <? _)%nat; [|discriminate].
    intros [= <-]. exists got. simpl.
    split; [exact Hrx|]. split; [exact Hlen|].
    split.
    { unfold chunkMessage.
      change (inbound (set_inMessages ?q ?c0) ?i) with (inbound c0 i).
      rewrite inbound_storeInbound. simpl. apply last_snoc. }
    rewrite Erem. split; [congruence|].
    do 4 (split; [congruence|]).
    try change (inbound (set_inMessages ?q ?c0) ?i) with (inbound c0 i).
    apply inbound_storeInbound.
  - intros [= <-]. exists got. simpl.
    split; [exact Hrx|]. split; [exact Hlen|].
    split.
    { unfold chunkMessage. rewrite inbound_storeInbound. reflexivity. }
    rewrite Erem. split; [congruence|].
    do 4 (split; [congruence|]).
    try change (inbound (set_inMessages ?q ?c0) ?i) with (inbound c0 i).
    apply inbound_storeInbound.
Qed.

(** A chunk whose slice is on the connection is read completely. *)
Lemma receiveChunk_slice c h cs1 h1 ts mo p rest :
  resolveHeader (inboundChunkStream c (Header.ChunkStreamId h)).1 h
    = Some (cs1, h1, ts, mo) ->
  closed (conn c) = false -> rx (conn c) = p ++ rest ->
  Z.min (Message.RemainingBytes
           (default (newInboundMessage CalculateTimestamp h1 ts) mo))
        (inChunkSize c) = Z.of_nat (length p) ->
  (length (inMessages c) < MESSAGE_QUEUE_CAPACITY)%nat ->
  let m := default (newInboundMessage CalculateTimestamp h1 ts) mo in
  let m' := Message.set_Buffer (Message.Buffer m ++ p) m in
  exists c',
    receiveChunk c h = Next c' /\
    rx (conn c') = rest /\ closed (conn c') = false /\
    inChunkSize c' = inChunkSize c /\
    (if Message.RemainingBytes m' =? 0
     then inMessages c' = inMessages c ++ [m']
     else inMessages c' = inMessages c) /\
    inbound c' (Header.ChunkStreamId h)
      = Some (InboundChunkStream.set_currentMessage
                (if Message.RemainingBytes m' =? 0 then None else Some m')
                (InboundChunkStream.set_lastInAbsoluteTimestamp ts cs1)).
Proof.
  intros Hr Hcl Hrx Hmin Hcap m m'.
  assert (exists c', receiveChunk c h = Next c') as [c' Hnext].
  { unfold rtmp.receiveChunk.
    pose proof (inboundChunkStream_frame c (Header.ChunkStreamId h)) as Hfr.
    destruct (inboundChunkStream c _) as [cs c1]. simpl in Hfr, Hr |- *.
    destruct Hfr as (Hk & Hq & Hsz & _).
    rewrite Hr, min_by_test, Hsz.
    change (match mo with
            | Some m0 => m0
            | None => newInboundMessage CalculateTimestamp h1 ts
            end) with m.
    fold m in Hmin. rewrite Hmin.
    destruct (Client_ReadN_slice c1 p rest) as [c2 Er];
      [rewrite Hk; exact Hcl|rewrite Hk; exact Hrx|].
    rewrite Er. apply Client_ReadN_ok in Er.
    destruct Er as (_ & _ & _ & Hq2 & _).
    destruct (Message.RemainingBytes _ =? 0); [|eexists; reflexivity].
    assert ((length (inMessages c2) <? MESSAGE_QUEUE_CAPACITY)%nat = true)
      as -> by (apply Nat.ltb_lt; rewrite Hq2, Hq; exact Hcap).
    eexists. reflexivity. }
  exists c'. split; [exact Hnext|].
  destruct (receiveChunk_next _ _ _ _ _ _ _ Hr Hnext)
    as (got & Hgot & Hlen & _ & Hq & Hcl' & _ & _ & Hsz & Hin).
  rewrite Hmin in Hlen. fold m in Hq, Hin.
  assert (got = p /\ rx (conn c') = rest) as [-> Hrest].
  { apply app_inj_1; [lia|congruence]. }
  fold m' in Hq, Hin.
  split; [exact Hrest|]. split; [congruence|]. split; [exact Hsz|].
  split; [exact Hq|exact Hin].
Qed.

(** *** Header resolution *)

(** A FULL header replaces the last header of its chunk stream and sets
    the working timestamp to its own. *)
Lemma full_header_establishes c h c' :
  Header.Format h = HEADER_FORMAT_FULL ->
  final (receiveChunk c h) = Some c' ->
  exists cs',
    inbound c' (Header.ChunkStreamId h) = Some cs' /\
    InboundChunkStream.lastHeader cs' = Some h /\
    InboundChunkStream.lastInAbsoluteTimestamp cs' = Header.Timestamp h.
Proof.
  intros Hfmt Hf.
  destruct (inboundChunkStream c (Header.ChunkStreamId h)) as [cs c1] eqn:Ei.
  assert (resolveHeader cs h
          = Some (InboundChunkStream.set_lastHeader (Some h) cs, h,
                  Header.Timestamp h, None)) as Hr.
  { unfold resolveHeader, resolveFormat. rewrite Hfmt. simpl.
    destruct (InboundChunkStream.lastHeader cs); reflexivity. }
  eapply receiveChunk_state in Hf; [|rewrite Ei; exact Hr].
  exact Hf.
Qed.

(** C4. On a chunk stream with no header recorded (no state for the id
    at all, or a state whose last header is nil), a header of a format
    other than FULL ends the receive loop with a [Disconnect]: the client
    is no longer connected and the socket is closed.  Nothing but the
    header was taken from the connection, no message was queued, and the
    chunk stream still has no last header: its state is the one it had, or
    the new, empty one. *)
Theorem fresh_non_full_header_rejected (c : Client) (h : Header.t)
    (rest : list Z) :
  closed (conn c) = false ->
  ReadHeader (rx (conn c)) = (Some h, rest) ->
  Header.Format h <> HEADER_FORMAT_FULL ->
  (forall cs, inbound c (Header.ChunkStreamId h) = Some cs ->
              InboundChunkStream.lastHeader cs = None) ->
  exists c',
    receiveLoop_step c = Exit c' /\
    connected c' = false /\ closed (conn c') = true /\
    trace c' = trace c ++ [ConnClose] /\
    rx (conn c') = rest /\
    inMessages c' = inMessages c /\
    inbound c' (Header.ChunkStreamId h)
      = Some (default (NewInboundChunkStream (Header.ChunkStreamId h))
                (inbound c (Header.ChunkStreamId h))) /\
    (forall cs', inbound c' (Header.ChunkStreamId h) = Some cs' ->
       InboundChunkStream.lastHeader cs' = None) /\
    (forall id', id' <> Header.ChunkStreamId h -> inbound c' id' = inbound c id').
Proof.
  intros Hopen Hread Hfmt Hfresh.
  unfold rtmp.receiveLoop_step, rtmp.Client_ReadHeader.
  rewrite Hopen, Hread.
  match goal with |- context [rtmp.receiveChunk _ ?c0 h] => set (c1 := c0) end.
  assert (inbound c1 (Header.ChunkStreamId h)
          = inbound c (Header.ChunkStreamId h)) as Hin by reflexivity.
  unfold rtmp.receiveChunk.
  pose proof (inboundChunkStream_lookup c1 (Header.ChunkStreamId h)) as Hlk.
  assert ((inboundChunkStream c1 (Header.ChunkStreamId h)).1
          = default (NewInboundChunkStream (Header.ChunkStreamId h))
              (inbound c (Header.ChunkStreamId h))) as Hcs.
  { unfold inboundChunkStream. fold (inbound c1 (Header.ChunkStreamId h)).
    rewrite Hin. destruct (inbound c _); reflexivity. }
  assert (forall id', id' <> Header.ChunkStreamId h ->
            inbound (inboundChunkStream c1 (Header.ChunkStreamId h)).2 id'
            = inbound c id') as Hother.
  { intros id' Hne. unfold inboundChunkStream.
    fold (inbound c1 (Header.ChunkStreamId h)). rewrite Hin.
    destruct (inbound c _); [reflexivity|]. unfold inbound. simpl.
    apply lookup_insert_ne. congruence. }
  pose proof (inboundChunkStream_frame c1 (Header.ChunkStreamId h)) as Hfr.
  destruct (inboundChunkStream c1 _) as [cs c2]. simpl in *.
  destruct Hfr as (Hk & Hq & _ & _ & Htr & _).
  assert (InboundChunkStream.lastHeader cs = None) as Hnil.
  { rewrite Hcs. destruct (inbound c _) as [cs0|] eqn:E; simpl; [|reflexivity].
    apply Hfresh. reflexivity. }
  unfold resolveHeader. rewrite Hnil.
  destruct (Z.eqb_spec (Header.Format h) HEADER_FORMAT_FULL); [contradiction|].
  eexists. split; [reflexivity|].
  split; [reflexivity|]. split; [reflexivity|].
  split; [rewrite Disconnect_trace, Htr; reflexivity|].
  split; [simpl; rewrite Hk; reflexivity|].
  split; [simpl; rewrite Hq; reflexivity|].
  split; [rewrite <- Hcs; exact Hlk|].
  split; [|exact Hother].
  intros cs'. change (inbound (Disconnect c2) ?i) with (inbound c2 i).
  rewrite Hlk. intros [= <-]. exact Hnil.
Qed.

(** On a chunk stream whose last header carries stream id [S], length
    [N] and type [T] and whose last resolved absolute timestamp is
    [prevAbsolute], a SAME_LENGTH_AND_STREAM header with timestamp delta
    [d] resolves to stream id [S], length [N], type [T] and absolute
    timestamp [prevAbsolute + d] (on [uint32]); the resolved header
    becomes the last header of the chunk stream, and the message the chunk
    starts carries the resolved values. *)
Lemma same_length_and_stream_resolves (c : Client) (h : Header.t)
    (cs : InboundChunkStream.t) (lh : Header.t) (c' : Client) :
  inbound c (Header.ChunkStreamId h) = Some cs ->
  InboundChunkStream.lastHeader cs = Some lh ->
  Header.Format h = HEADER_FORMAT_SAME_LENGTH_AND_STREAM ->
  final (receiveChunk c h) = Some c' ->
  let S := Header.MessageStreamId lh in
  let N := Header.MessageLength lh in
  let T := Header.MessageTypeId lh in
  let prevAbsolute := InboundChunkStream.lastInAbsoluteTimestamp cs in
  let d := Header.Timestamp h in
  exists cs',
    inbound c' (Header.ChunkStreamId h) = Some cs' /\
    InboundChunkStream.lastHeader cs'
      = Some (Header.mk HEADER_FORMAT_SAME_LENGTH_AND_STREAM
                (Header.ChunkStreamId h) d N T S) /\
    InboundChunkStream.lastInAbsoluteTimestamp cs' = uint32 (prevAbsolute + d) /\
    (receiveChunk c h = Next c' ->
       exists m, chunkMessage c' (Header.ChunkStreamId h) = Some m /\
                 Message.StreamId m = S /\ Message.Length m = N /\
                 Message.Type_ m = T /\
                 Message.AbsoluteTimestamp m = uint32 (prevAbsolute + d)).
Proof.
  intros Hin Hlh Hfmt Hf. simpl.
  assert (resolveHeader cs h
          = Some (InboundChunkStream.set_lastHeader
                    (Some (Header.mk HEADER_FORMAT_SAME_LENGTH_AND_STREAM
                             (Header.ChunkStreamId h) (Header.Timestamp h)
                             (Header.MessageLength lh) (Header.MessageTypeId lh)
                             (Header.MessageStreamId lh))) cs,
                  Header.mk HEADER_FORMAT_SAME_LENGTH_AND_STREAM
                    (Header.ChunkStreamId h) (Header.Timestamp h)
                    (Header.MessageLength lh) (Header.MessageTypeId lh)
                    (Header.MessageStreamId lh),
                  uint32 (InboundChunkStream.lastInAbsoluteTimestamp cs
                          + Header.Timestamp h),
                  None)) as Hr.
  { unfold resolveHeader, resolveFormat. rewrite Hlh, Hfmt. cbn.
    unfold Header.set_MessageTypeId, Header.set_MessageLength,
      Header.set_MessageStreamId. cbn. rewrite Hfmt. reflexivity. }
  pose proof (inboundChunkStream_found _ _ _ Hin) as Ei.
  edestruct (receiveChunk_state c h) as (cs' & Hin' & Hlh' & Hts');
    [rewrite Ei; exact Hr|exact Hf|].
  exists cs'. split; [exact Hin'|]. split; [exact Hlh'|].
  split; [exact Hts'|].
  intros Hnext.
  edestruct (receiveChunk_next c h) as (got & _ & _ & Hm & _);
    [rewrite Ei; exact Hr|exact Hnext|].
  eexists. split; [exact Hm|]. repeat split; reflexivity.
Qed.

(** A CONTINUATION chunk leaves the last header of its chunk stream in
    place and adds the timestamp field of that header to the working
    timestamp; a message in progress is taken up again. *)
Lemma continuation_chunk (c : Client) (h : Header.t)
    (cs : InboundChunkStream.t) (lh : Header.t) (c' : Client) :
  inbound c (Header.ChunkStreamId h) = Some cs ->
  InboundChunkStream.lastHeader cs = Some lh ->
  Header.Format h = HEADER_FORMAT_CONTINUATION ->
  final (receiveChunk c h) = Some c' ->
  exists cs',
    inbound c' (Header.ChunkStreamId h) = Some cs' /\
    InboundChunkStream.lastHeader cs' = Some lh /\
    InboundChunkStream.lastInAbsoluteTimestamp cs'
      = uint32 (InboundChunkStream.lastInAbsoluteTimestamp cs
                + Header.Timestamp lh) /\
    (forall m,
       InboundChunkStream.currentMessage cs = Some m ->
       receiveChunk c h = Next c' ->
       exists m', chunkMessage c' (Header.ChunkStreamId h) = Some m' /\
                  Message.AbsoluteTimestamp m' = Message.AbsoluteTimestamp m /\
                  Message.Timestamp m' = Message.Timestamp m).
Proof.
  intros Hin Hlh Hfmt Hf.
  assert (exists h1,
            resolveHeader cs h
            = Some (cs, h1,
                    uint32 (InboundChunkStream.lastInAbsoluteTimestamp cs
                            + Header.Timestamp lh),
                    InboundChunkStream.currentMessage cs)) as [h1 Hr1].
  { unfold resolveHeader, resolveFormat. rewrite Hlh, Hfmt.
    eexists. reflexivity. }
  pose proof (inboundChunkStream_found _ _ _ Hin) as Ei.
  edestruct (receiveChunk_state c h) as (cs' & Hin' & Hlh' & Hts');
    [rewrite Ei; exact Hr1|exact Hf|].
  rewrite Hlh in Hlh'.
  exists cs'. split; [exact Hin'|]. split; [exact Hlh'|].
  split; [exact Hts'|].
  intros m Hm Hnext.
  edestruct (receiveChunk_next c h) as (got & _ & _ & Hcm & _);
    [rewrite Ei; exact Hr1|exact Hnext|].
  rewrite Hm in Hcm. eexists. split; [exact Hcm|]. split; reflexivity.
Qed.

(** CONTINUATION chunks in a row on one chunk stream: the last header
    stays, and its timestamp field has been added to the working
    timestamp once for every chunk. *)
Lemma continuation_run (id : Z) (lh : Header.t) (hs : list Header.t) :
  forall c cs c',
  Forall (continues id) hs ->
  inbound c id = Some cs ->
  InboundChunkStream.lastHeader cs = Some lh ->
  receiveChunks CalculateTimestamp hs c = Next c' ->
  exists cs',
    inbound c' id = Some cs' /\
    InboundChunkStream.lastHeader cs' = Some lh /\
    uint32 (InboundChunkStream.lastInAbsoluteTimestamp cs')
      = uint32 (InboundChunkStream.lastInAbsoluteTimestamp cs
                + Z.of_nat (length hs) * Header.Timestamp lh) /\
    (hs <> [] ->
     InboundChunkStream.lastInAbsoluteTimestamp cs'
       = uint32 (InboundChunkStream.lastInAbsoluteTimestamp cs
                 + Z.of_nat (length hs) * Header.Timestamp lh)).
Proof.
  induction hs as [|h hs IH]; intros c cs c' Hall Hin Hlh Hrun.
  - simpl in Hrun. injection Hrun as <-. exists cs.
    split; [exact Hin|]. split; [exact Hlh|].
    split; [f_equal; simpl; lia|]. intros Hn. contradiction.
  - simpl in Hrun.
    pose proof (Forall_inv Hall) as [Hfmt Hid].
    pose proof (Forall_inv_tail Hall) as Hall'.
    destruct (receiveChunk c h) as [c1| | | |] eqn:E1; try discriminate.
    rewrite <- Hid in Hin.
    destruct (continuation_chunk c h cs lh c1 Hin Hlh Hfmt)
      as (cs1 & Hin1 & Hlh1 & Hts1 & _); [rewrite E1; reflexivity|].
    rewrite Hid in Hin1.
    destruct (IH c1 cs1 c' Hall' Hin1 Hlh1 Hrun)
      as (cs' & Hin' & Hlh' & Hts' & Hnz).
    assert (uint32 (InboundChunkStream.lastInAbsoluteTimestamp cs1
                    + Z.of_nat (length hs) * Header.Timestamp lh)
            = uint32 (InboundChunkStream.lastInAbsoluteTimestamp cs
                      + Z.of_nat (length (h :: hs)) * Header.Timestamp lh))
      as Hsum.
    { rewrite Hts1, uint32_add_idemp. f_equal. simpl length. lia. }
    exists cs'. split; [exact Hin'|]. split; [exact Hlh'|].
    split; [rewrite Hts'; exact Hsum|].
    intros _. destruct hs as [|h2 hs].
    + simpl in Hrun. injection Hrun as <-.
      rewrite Hin1 in Hin'. injection Hin' as <-.
      rewrite Hts1. f_equal. simpl. lia.
    + rewrite Hnz by discriminate. exact Hsum.
Qed.

(** C6 (as amended). A FULL header establishes stream id [S], length
    [N], type [T] and the timestamp of its chunk stream.  A
    SAME_LENGTH_AND_STREAM header with timestamp delta [d] that is
    received on that stream after the chunk of the FULL header and the
    CONTINUATION chunks that follow it resolves to stream id [S], length
    [N], type [T] and the absolute timestamp
    [lastInAbsoluteTimestamp + d] (on [uint32]), and the resolved header
    becomes the last header of the chunk stream.  The base
    [lastInAbsoluteTimestamp] is what the last chunk on the stream left:
    the timestamp of the FULL header when that header's chunk was the last
    one, and that timestamp added once more for each of the [n]
    CONTINUATION chunks received in between. *)
Theorem same_length_and_stream_inherits (c : Client) (hf : Header.t)
    (hs : list Header.t) (h : Header.t) (c1 c2 c' : Client) :
  Header.Format hf = HEADER_FORMAT_FULL ->
  receiveChunk c hf = Next c1 ->
  Forall (continues (Header.ChunkStreamId hf)) hs ->
  receiveChunks CalculateTimestamp hs c1 = Next c2 ->
  Header.Format h = HEADER_FORMAT_SAME_LENGTH_AND_STREAM ->
  Header.ChunkStreamId h = Header.ChunkStreamId hf ->
  final (receiveChunk c2 h) = Some c' ->
  let S := Header.MessageStreamId hf in
  let N := Header.MessageLength hf in
  let T := Header.MessageTypeId hf in
  let d := Header.Timestamp h in
  let n := Z.of_nat (length hs) in
  let prevAbsolute := (n + 1) * Header.Timestamp hf in
  exists cs2 cs',
    inbound c2 (Header.ChunkStreamId h) = Some cs2 /\
    uint32 (InboundChunkStream.lastInAbsoluteTimestamp cs2)
      = uint32 prevAbsolute /\
    (hs = [] ->
     InboundChunkStream.lastInAbsoluteTimestamp cs2 = Header.Timestamp hf) /\
    inbound c' (Header.ChunkStreamId h) = Some cs' /\
    InboundChunkStream.lastHeader cs'
      = Some (Header.mk HEADER_FORMAT_SAME_LENGTH_AND_STREAM
                (Header.ChunkStreamId h) d N T S) /\
    InboundChunkStream.lastInAbsoluteTimestamp cs'
      = uint32 (InboundChunkStream.lastInAbsoluteTimestamp cs2 + d) /\
    InboundChunkStream.lastInAbsoluteTimestamp cs'
      = uint32 (prevAbsolute + d) /\
    (receiveChunk c2 h = Next c' ->
       exists m, chunkMessage c' (Header.ChunkStreamId h) = Some m /\
                 Message.StreamId m = S /\ Message.Length m = N /\
                 Message.Type_ m = T /\
                 Message.AbsoluteTimestamp m = uint32 (prevAbsolute + d)).
Proof.
  intros Hff Hfull Hall Hrun Hfmt Hid Hf. simpl.
  destruct (full_header_establishes c hf c1 Hff) as (cs1 & Hin1 & Hlh1 & Hts1);
    [rewrite Hfull; reflexivity|].
  destruct (continuation_run _ hf hs c1 cs1 c2 Hall Hin1 Hlh1 Hrun)
    as (cs2 & Hin2 & Hlh2 & Hts2 & _).
  rewrite <- Hid in Hin2.
  destruct (same_length_and_stream_resolves c2 h cs2 hf c' Hin2 Hlh2 Hfmt Hf)
    as (cs' & Hin' & Hlh' & Hts' & Hmsg).
  assert (uint32 (InboundChunkStream.lastInAbsoluteTimestamp cs2)
          = uint32 ((Z.of_nat (length hs) + 1) * Header.Timestamp hf))
    as Hbase.
  { rewrite Hts2, Hts1. f_equal. lia. }
  assert (uint32 (InboundChunkStream.lastInAbsoluteTimestamp cs2
                  + Header.Timestamp h)
          = uint32 ((Z.of_nat (length hs) + 1) * Header.Timestamp hf
                    + Header.Timestamp h)) as Hsum.
  { rewrite <- uint32_add_idemp, Hbase, uint32_add_idemp. reflexivity. }
  exists cs2, cs'. split; [exact Hin2|]. split; [exact Hbase|].
  split.
  { intros ->. simpl in Hrun. injection Hrun as <-.
    rewrite <- Hid in Hin1. rewrite Hin1 in Hin2.
    injection Hin2 as <-. exact Hts1. }
  split; [exact Hin'|]. split; [exact Hlh'|]. split; [exact Hts'|].
  split; [rewrite Hts'; exact Hsum|].
  intros Hnext. destruct (Hmsg Hnext) as (m & Hm & Hs & Hn & Ht & Ha).
  exists m. split; [exact Hm|]. split; [exact Hs|]. split; [exact Hn|].
  split; [exact Ht|]. rewrite Ha. exact Hsum.
Qed.

(** C3 (as amended). A CONTINUATION chunk resolves its absolute timestamp
    as [cs.lastInAbsoluteTimestamp + cs.lastHeader.Timestamp] (on
    [uint32]).  The chunk leaves the last header in place and stores the
    resolved timestamp as the new [lastInAbsoluteTimestamp], so the next
    continuation chunk applies the same delta to a base that has moved:
    the [k]-th CONTINUATION chunk in a row resolves [base + k * delta]
    modulo 2^32.  Two chunks in a row resolve the same timestamp exactly
    when the stored delta is 0 modulo 2^32.  The message in progress keeps
    the timestamps it got from its first chunk. *)
Theorem continuation_timestamp_advances (c : Client) (id : Z)
    (cs : InboundChunkStream.t) (lh : Header.t) :
  inbound c id = Some cs ->
  InboundChunkStream.lastHeader cs = Some lh ->
  let base := InboundChunkStream.lastInAbsoluteTimestamp cs in
  let delta := Header.Timestamp lh in
  (forall h c',
     continues id h ->
     final (receiveChunk c h) = Some c' ->
     exists cs',
       inbound c' id = Some cs' /\
       InboundChunkStream.lastInAbsoluteTimestamp cs' = uint32 (base + delta) /\
       InboundChunkStream.lastHeader cs' = Some lh /\
       (forall m,
          InboundChunkStream.currentMessage cs = Some m ->
          receiveChunk c h = Next c' ->
          exists m', chunkMessage c' id = Some m' /\
                     Message.AbsoluteTimestamp m' = Message.AbsoluteTimestamp m /\
                     Message.Timestamp m' = Message.Timestamp m)) /\
  (forall hs c',
     hs <> [] -> Forall (continues id) hs ->
     receiveChunks CalculateTimestamp hs c = Next c' ->
     let k := Z.of_nat (length hs) in
     exists cs',
       inbound c' id = Some cs' /\
       InboundChunkStream.lastHeader cs' = Some lh /\
       InboundChunkStream.lastInAbsoluteTimestamp cs'
         = uint32 (base + k * delta) /\
       (forall h c'' cs'',
          continues id h ->
          final (receiveChunk c' h) = Some c'' ->
          inbound c'' id = Some cs'' ->
          InboundChunkStream.lastInAbsoluteTimestamp cs''
            = uint32 (base + (k + 1) * delta) /\
          (InboundChunkStream.lastInAbsoluteTimestamp cs''
             = InboundChunkStream.lastInAbsoluteTimestamp cs'
           <-> uint32 delta = 0))).
Proof.
  intros Hin Hlh. simpl. split.
  - intros h c' [Hfmt Hid] Hf. rewrite <- Hid in Hin.
    destruct (continuation_chunk c h cs lh c' Hin Hlh Hfmt Hf)
      as (cs' & Hin' & Hlh' & Hts' & Hm).
    rewrite Hid in Hin', Hm.
    exists cs'. split; [exact Hin'|]. split; [exact Hts'|].
    split; [exact Hlh'|exact Hm].
  - intros hs c' Hne Hall Hrun.
    destruct (continuation_run id lh hs c cs c' Hall Hin Hlh Hrun)
      as (cs' & Hin' & Hlh' & _ & Hts').
    specialize (Hts' Hne).
    exists cs'. split; [exact Hin'|]. split; [exact Hlh'|].
    split; [exact Hts'|].
    intros h c'' cs'' [Hfmt Hid] Hf Hin''.
    rewrite <- Hid in Hin', Hin''.
    destruct (continuation_chunk c' h cs' lh c'' Hin' Hlh' Hfmt Hf)
      as (cs2 & Hin2 & _ & Hts2 & _).
    rewrite Hin'' in Hin2. injection Hin2 as <-.
    split.
    + rewrite Hts2, Hts', uint32_add_idemp. f_equal. lia.
    + rewrite Hts2. apply uint32_fixed. rewrite Hts'. apply uint32_range.
Qed.
(** *** The chunk-size message *)

(** C8 (as amended). A chunk-size message (type 1) with a payload of at
    least four bytes, dispatched on the protocol chunk stream, makes the
    big-endian value of the first four bytes of its payload the inbound
    chunk size.  Handling it changes nothing else: the chunk-stream
    states, with the messages in progress and the bytes they hold, and the
    position on the connection are as before, so no chunk read earlier is
    cut differently.  A chunk read afterwards takes
    [min(RemainingBytes, new size)] bytes, appended to what its message
    already holds: whenever the read returns it has taken that many, and
    it does return when that many bytes are on the connection. *)
Theorem chunk_size_message_sets_inbound_size (c : Client) (m : Message.t)
    (q : list Message.t) (b0 b1 b2 b3 : Z) (rest : list Z) :
  inMessages c = m :: q ->
  Message.ChunkStreamId m = CHUNK_STREAM_ID_PROTOCOL ->
  Message.Type_ m = MESSAGE_TYPE_CHUNK_SIZE ->
  Message.Buffer m = b0 :: b1 :: b2 :: b3 :: rest ->
  0 <= b0 < 256 -> 0 <= b1 < 256 -> 0 <= b2 < 256 -> 0 <= b3 < 256 ->
  let C2 := b0 * 2 ^ 24 + b1 * 2 ^ 16 + b2 * 2 ^ 8 + b3 in
  exists c',
    dispatchLoop_step c = Next c' /\
    handleProtocolMessage m (set_inMessages q c) = Some c' /\
    inChunkSize c' = C2 /\
    inChunkStreams c' = inChunkStreams c /\
    conn c' = conn c /\
    inMessages c' = q /\
    (forall h cs1 h1 ts mo,
       resolveHeader (inboundChunkStream c' (Header.ChunkStreamId h)).1 h
         = Some (cs1, h1, ts, mo) ->
       let m0 := default (newInboundMessage CalculateTimestamp h1 ts) mo in
       (forall c'',
          receiveChunk c' h = Next c'' ->
          exists got,
            rx (conn c) = got ++ rx (conn c'') /\
            Z.of_nat (length got) = Z.min (Message.RemainingBytes m0) C2 /\
            chunkMessage c'' (Header.ChunkStreamId h)
              = Some (Message.set_Buffer (Message.Buffer m0 ++ got) m0)) /\
       (forall p tail,
          closed (conn c) = false ->
          rx (conn c) = p ++ tail ->
          Z.of_nat (length p) = Z.min (Message.RemainingBytes m0) C2 ->
          (length q < MESSAGE_QUEUE_CAPACITY)%nat ->
          exists c'',
            receiveChunk c' h = Next c'' /\
            rx (conn c'') = tail /\
            chunkMessage c'' (Header.ChunkStreamId h)
              = Some (Message.set_Buffer (Message.Buffer m0 ++ p) m0))).
Proof.
  intros Hq Hid Hty Hbuf H0 H1 H2 H3 C2.
  assert (handleProtocolMessage m (set_inMessages q c)
          = Some (set_inChunkSize C2 (set_inMessages q c))) as Hh.
  { unfold handleProtocolMessage. rewrite Hty, Hbuf. simpl Z.eqb. cbv iota.
    rewrite BigEndian_Uint32_value by assumption. reflexivity. }
  exists (set_inChunkSize C2 (set_inMessages q c)).
  split.
  { unfold dispatchLoop_step. rewrite Hq, Hid. simpl Z.eqb. cbv iota.
    rewrite Hh. reflexivity. }
  split; [exact Hh|].
  do 4 (split; [reflexivity|]).
  intros h cs1 h1 ts mo Hr m0. split.
  - intros c'' Hnext.
    destruct (receiveChunk_next _ _ _ _ _ _ _ Hr Hnext)
      as (got & Hrx & Hlen & Hcm & _).
    exists got. split; [exact Hrx|]. split; [exact Hlen|]. exact Hcm.
  - intros p tail Hcl Hrx Hlen Hcap.
    destruct (receiveChunk_slice _ h _ _ _ _ p tail Hr Hcl Hrx)
      as (c'' & Hnext & Hrx' & _); [symmetry; exact Hlen|exact Hcap|].
    exists c''. split; [exact Hnext|]. split; [exact Hrx'|].
    destruct (receiveChunk_next _ _ _ _ _ _ _ Hr Hnext)
      as (got & Hgot & Hlen' & Hcm & _).
    fold m0 in Hlen', Hcm. simpl in Hgot, Hlen'.
    assert (got = p) as ->.
    { rewrite Hrx, Hrx' in Hgot.
      apply (app_inj_1 p got tail tail) in Hgot; [symmetry; apply Hgot|lia]. }
    exact Hcm.
Qed.

(** *** Transport faults *)




Lemma Client_Write_keeps c p c' :
  Client_Write c p = Some c' -> connected c' = connected c /\ trace c' = trace c.
Proof.
  unfold Client_Write. destruct (closed (conn c) || wbroken (conn c));
    [discriminate|].
  intros [= <-]. split; reflexivity.
Qed.

Lemma CopyN_out_keeps c buf ws :
  connected (CopyN_out c buf ws).1.1.1 = connected c /\
  trace (CopyN_out c buf ws).1.1.1 = trace c.
Proof.
  unfold CopyN_out. destruct (take (Z.to_nat ws) buf) as [|b l].
  - split; reflexivity.
  - destruct (Client_Write c (b :: l)) as [c1|] eqn:E; simpl.
    + eapply Client_Write_keeps; eauto.
    + split; reflexivity.
Qed.

Lemma Client_ReadN_keeps c n :
  connected (Client_ReadN c n).2 = connected c /\
  trace (Client_ReadN c n).2 = trace c.
Proof.
  unfold Client_ReadN.
  destruct (n =? 0); [|destruct (closed (conn c))]; split; reflexivity.
Qed.

Lemma Client_ReadHeader_keeps c :
  connected (Client_ReadHeader c).2 = connected c /\
  trace (Client_ReadHeader c).2 = trace c.
Proof.
  unfold rtmp.Client_ReadHeader. destruct (closed (conn c)).
  - split; reflexivity.
  - destruct (ReadHeader _). split; reflexivity.
Qed.

Lemma disconnected_from_guard c0 c :
  connected c = true -> trace c = trace c0 ->
  disconnected_from c0 (disconnectIfConnected c).
Proof.
  intros Hcn Htr. rewrite disconnectIfConnected_on by exact Hcn.
  unfold disconnected_from. rewrite Disconnect_trace, Htr.
  repeat split; reflexivity.
Qed.

(** Whenever the send loop ends while connected, it has run [Disconnect]
    exactly once. *)
Lemma sendChunks_exit fuel : forall c0 c h buf rem c',
  connected c = true -> trace c = trace c0 ->
  sendChunks fuel c h buf rem = Exit c' -> disconnected_from c0 c'.
Proof.
  induction fuel as [|fuel IH]; intros c0 c h buf rem c' Hcn Htr; simpl.
  - destruct (rem >? 0); discriminate.
  - destruct (rem >? 0); [|discriminate].
    destruct (Client_Write c (Header_Write h)) as [c1|] eqn:Ew.
    + apply Client_Write_keeps in Ew. destruct Ew as [Hcn1 Htr1].
      pose proof (CopyN_out_keeps c1 buf
        (if rem >? outChunkSize c1 then outChunkSize c1 else rem)) as Hk.
      destruct (CopyN_out c1 buf _) as [[[c2 buf'] n] ok].
      simpl in Hk. destruct Hk as [Hcn2 Htr2].
      destruct ok.
      * apply IH; congruence.
      * intros [= <-]. apply disconnected_from_guard; congruence.
    + intros [= <-]. apply disconnected_from_guard; assumption.
Qed.

Lemma sendLoop_step_exit c c' :
  connected c = true -> sendLoop_step c = Exit c' -> disconnected_from c c'.
Proof.
  intros Hcn. unfold rtmp.sendLoop_step.
  destruct (outMessages c) as [|m q]; [discriminate|].
  destruct (NewOutboundHeader _ m) as [h cs'].
  apply sendChunks_exit; destruct (outChunkStreams _ !! _); simpl; auto.
Qed.

(** Whenever the receive loop ends while connected, it has run
    [Disconnect] exactly once. *)
Lemma receiveLoop_step_exit c c' :
  connected c = true -> receiveLoop_step c = Exit c' -> disconnected_from c c'.
Proof.
  intros Hcn. unfold rtmp.receiveLoop_step.
  pose proof (Client_ReadHeader_keeps c) as [Hcn0 Htr0].
  destruct (Client_ReadHeader c) as [[h|] c0]; simpl in Hcn0, Htr0.
  2:{ intros [= <-]. apply disconnected_from_guard; congruence. }
  unfold rtmp.receiveChunk.
  pose proof (inboundChunkStream_frame c0 (Header.ChunkStreamId h)) as Hfr.
  destruct (inboundChunkStream c0 _) as [cs c1]. simpl in Hfr.
  destruct Hfr as (_ & _ & _ & Hcn1 & Htr1 & _).
  destruct (resolveHeader cs h) as [[[[cs1 h1] ts] mo]|].
  2:{ intros [= <-]. unfold disconnected_from.
      rewrite Disconnect_trace, Htr1, Htr0. repeat split; reflexivity. }
  match goal with |- context [Client_ReadN c1 ?n] =>
    pose proof (Client_ReadN_keeps c1 n) as [Hcn2 Htr2];
    destruct (Client_ReadN c1 n) as [[got ok] c2] end.
  simpl in Hcn2, Htr2.
  destruct ok.
  - destruct (Message.RemainingBytes _ =? 0); [|discriminate].
    destruct (_ <? _)%nat; discriminate.
  - intros [= <-]. apply disconnected_from_guard; simpl; congruence.
Qed.




(** *** The bound on the inner loop of the send path *)

Lemma CopyN_out_count c buf ws c2 buf' n :
  CopyN_out c buf ws = (c2, buf', n, true) -> n = ws /\ send_frame c c2.
Proof.
  intros E. pose proof (send_frame_CopyN_out c buf ws) as Hfr.
  rewrite E in Hfr. simpl in Hfr. split; [|exact Hfr].
  revert E. unfold CopyN_out.
  destruct (take (Z.to_nat ws) buf) as [|b l].
  - destruct (Z.eqb_spec 0 ws) as [Hws|]; [|discriminate].
    intros [= _ _ <-]. exact Hws.
  - destruct (Client_Write c (b :: l)); [|discriminate].
    destruct (Z.eqb_spec (Z.of_nat (length (b :: l))) ws) as [Hws|];
      [|discriminate].
    intros [= _ _ <-]. exact Hws.
Qed.

(** With a chunk size of at least one byte every pass that goes on lowers
    [rem], so [rem] passes always suffice: the bound that [sendLoop_step]
    gives the loop is never what ends it. *)
Lemma sendChunks_terminates fuel : forall c h buf rem,
  0 < outChunkSize c -> rem < 2 ^ 32 -> rem <= Z.of_nat fuel ->
  sendChunks fuel c h buf rem <> Diverged.
Proof.
  induction fuel as [|fuel IH]; intros c h buf rem HC Hlt Hfuel; simpl.
  - destruct (Z.gtb_spec rem 0); [lia|discriminate].
  - destruct (Z.gtb_spec rem 0) as [Hpos|]; [|discriminate].
    destruct (Client_Write c (Header_Write h)) as [c1|] eqn:Ew; [|discriminate].
    apply send_frame_Client_Write in Ew. destruct Ew as (_ & _ & Hsz1 & _).
    rewrite min_by_test.
    destruct (CopyN_out c1 buf _) as [[[c2 buf'] n] ok] eqn:Ec.
    destruct ok; [|discriminate].
    apply CopyN_out_count in Ec. destruct Ec as [-> (_ & _ & Hsz2 & _)].
    apply IH.
    + congruence.
    + apply uint32_range.
    + rewrite uint32_small; lia.
Qed.

(** With a chunk size of zero the loop writes a header and no payload on
    every pass and never ends, whatever the number of passes. *)
Lemma sendChunks_zero_chunk_size fuel : forall c h buf rem,
  outChunkSize c = 0 -> 0 < rem < 2 ^ 32 ->
  closed (conn c) = false -> wbroken (conn c) = false ->
  sendChunks fuel c h buf rem = Diverged.
Proof.
  induction fuel as [|fuel IH]; intros c h buf rem HC Hrem Hcl Hwb; simpl.
  - destruct (Z.gtb_spec rem 0); [reflexivity|lia].
  - destruct (Z.gtb_spec rem 0) as [_|]; [|lia].
    rewrite Client_Write_ok by assumption.
    change (outChunkSize (wrote (Header_Write h) c)) with (outChunkSize c).
    rewrite HC. destruct (Z.gtb_spec rem 0) as [_|]; [|lia].
    unfold CopyN_out. simpl. rewrite Z.sub_0_r, uint32_small by lia.
    rewrite drop_0. apply IH; assumption.
Qed.

(** *** The send path: cutting a message into chunks *)

(** The inner loop of [sendLoop] on a healthy connection writes the
    frames of the chunking of the first [rem] bytes of the buffer. *)
Lemma sendChunks_frames C pieces : forall fuel c h extra,
  0 < C -> chunking C pieces ->
  (length pieces <= fuel)%nat ->
  closed (conn c) = false -> wbroken (conn c) = false ->
  outChunkSize c = C ->
  Z.of_nat (length (concat pieces)) < 2 ^ 32 ->
  exists c',
    sendChunks fuel c h (concat pieces ++ extra)
      (Z.of_nat (length (concat pieces))) = Next c' /\
    after_writing (frames Header_Write h pieces) c c'.
Proof.
  induction pieces as [|p ps IH]; intros fuel c h extra HC Hch Hfuel Hcl Hwb Hsz Hlt.
  - exists c. split; [destruct fuel; reflexivity|apply after_writing_nil].
  - pose proof (chunking_slice C p ps HC Hch) as Hslice.
    pose proof (chunking_pieces_nonempty C _ HC Hch) as Hne.
    pose proof (Forall_inv Hne) as Hp. simpl in Hp.
    destruct Hch as [_ Hps].
    destruct fuel as [|fuel]; [simpl in Hfuel; lia|].
    cbn [rtmp.sendChunks].
    assert ((Z.of_nat (length (concat (p :: ps))) >? 0) = true) as ->.
    { apply Z.gtb_lt. simpl. rewrite length_app. lia. }
    rewrite Client_Write_ok by assumption.
    change (outChunkSize (wrote (Header_Write h) c)) with (outChunkSize c).
    rewrite Hsz, min_by_test, Hslice.
    change (concat (p :: ps)) with (p ++ concat ps) at 1.
    rewrite <- app_assoc.
    rewrite CopyN_out_slice; [|exact Hcl|exact Hwb|].
    2:{ intros ->. simpl in Hp. lia. }
    assert (uint32 (Z.of_nat (length (concat (p :: ps))) - Z.of_nat (length p))
            = Z.of_nat (length (concat ps))) as ->.
    { simpl. rewrite length_app. rewrite uint32_small; [lia|].
      simpl in Hlt. rewrite length_app in Hlt. lia. }
    destruct (IH fuel (wrote p (wrote (Header_Write h) c))
                (Header.set_Format HEADER_FORMAT_CONTINUATION h) extra)
      as (c' & Hrun & Haw); try assumption.
    + simpl in Hfuel. lia.
    + simpl in Hlt. rewrite length_app in Hlt. lia.
    + exists c'. split; [exact Hrun|].
      simpl. rewrite app_assoc.
      eapply after_writing_trans; [|exact Haw].
      eapply after_writing_trans; apply after_writing_wrote.
Qed.

(** One iteration of the send loop on a healthy connection, for a buffer
    that starts with the payload cut as [pieces]. *)
Lemma sendLoop_step_frames C pieces c m q extra :
  0 < C -> chunking C pieces ->
  outMessages c = m :: q ->
  closed (conn c) = false -> wbroken (conn c) = false ->
  outChunkSize c = C ->
  Message.Buffer m = concat pieces ++ extra ->
  Message.Length m = Z.of_nat (length (concat pieces)) ->
  Message.Length m < 2 ^ 32 ->
  exists c',
    sendLoop_step c = Next c' /\
    tx (conn c') = tx (conn c) ++
      frames Header_Write
        (NewOutboundHeader
           (outboundChunkStream c (Message.ChunkStreamId m)) m).1 pieces /\
    outMessages c' = q.
Proof.
  intros HC Hch Hq Hcl Hwb Hsz Hbuf Hlen Hlt.
  unfold rtmp.sendLoop_step. rewrite Hq.
  change (outboundChunkStream (set_outMessages q c) ?i)
    with (outboundChunkStream c i).
  destruct (NewOutboundHeader _ m) as [h cs']. simpl fst.
  match goal with |- context [rtmp.sendChunks _ _ ?c0] => set (c1 := c0) end.
  assert (closed (conn c1) = false /\ wbroken (conn c1) = false /\
          outChunkSize c1 = C /\ tx (conn c1) = tx (conn c) /\
          outMessages c1 = q) as (Hcl1 & Hwb1 & Hsz1 & Htx1 & Hq1).
  { subst c1. destruct (outChunkStreams _ !! _); simpl; auto. }
  rewrite Hbuf, Hlen.
  destruct (sendChunks_frames C pieces (Z.to_nat (Z.of_nat (length (concat pieces))))
              c1 h extra) as (c' & Hrun & Haw); try assumption.
  - rewrite Nat2Z.id. apply chunking_count with (C := C); assumption.
  - lia.
  - exists c'. split; [exact Hrun|].
    destruct Haw as (Htx & _ & _ & _ & _ & _ & Hfr).
    split; [rewrite Htx, Htx1; reflexivity|].
    destruct Hfr as (_ & Hq' & _). congruence.
Qed.

(** C5. With an outbound chunk size [C] of at least one byte and a
    healthy connection, a message of declared length [k * C] is written
    as exactly [k] chunks, each a header followed by [C] bytes of payload,
    with nothing after the last; a message of length [k * C + 1] is
    written as [k] such chunks followed by one chunk that carries the one
    remaining byte.  The payload slices are, in order, the first
    [Length] bytes of the buffer. *)
Theorem chunking_boundary (c : Client) (m : Message.t) (q : list Message.t)
    (C : Z) (k : nat) :
  outMessages c = m :: q ->
  closed (conn c) = false -> wbroken (conn c) = false ->
  outChunkSize c = C -> 0 < C ->
  Message.Length m <= Z.of_nat (length (Message.Buffer m)) ->
  Message.Length m < 2 ^ 32 ->
  let h := (NewOutboundHeader
              (outboundChunkStream c (Message.ChunkStreamId m)) m).1 in
  let payload := take (Z.to_nat (Message.Length m)) (Message.Buffer m) in
  (Message.Length m = Z.of_nat k * C ->
     exists c' pieces,
       sendLoop_step c = Next c' /\
       tx (conn c') = tx (conn c) ++ frames Header_Write h pieces /\
       length pieces = k /\
       Forall (fun p => Z.of_nat (length p) = C) pieces /\
       concat pieces = payload) /\
  (Message.Length m = Z.of_nat k * C + 1 ->
     exists c' pieces b,
       sendLoop_step c = Next c' /\
       tx (conn c') = tx (conn c) ++ frames Header_Write h (pieces ++ [[b]]) /\
       length pieces = k /\
       Forall (fun p => Z.of_nat (length p) = C) pieces /\
       concat pieces ++ [b] = payload).
Proof.
  intros Hq Hcl Hwb Hsz HC Hbuf Hlt h payload.
  assert (Z.of_nat (length payload) = Message.Length m
          \/ Message.Length m < 0) as Hpay.
  { subst payload. rewrite length_take. lia. }
  assert (Message.Buffer m
          = payload ++ drop (Z.to_nat (Message.Length m)) (Message.Buffer m))
    as Hsplit by (symmetry; apply take_drop).
  split; intros Hlen.
  - destruct Hpay as [Hpay|]; [|lia].
    destruct (uniform_pieces C k payload HC) as (pieces & Hcat & Hk & Hall);
      [lia|].
    destruct (sendLoop_step_frames C pieces c m q
                (drop (Z.to_nat (Message.Length m)) (Message.Buffer m)))
      as (c' & Hrun & Htx & _); try assumption.
    + rewrite <- (app_nil_r pieces). apply chunking_app; simpl; auto.
    + rewrite Hcat. exact Hsplit.
    + rewrite Hcat. lia.
    + exists c', pieces. auto.
  - destruct Hpay as [Hpay|]; [|lia].
    destruct (uniform_pieces C k (take (Z.to_nat (Z.of_nat k * C)) payload) HC)
      as (pieces & Hcat & Hk & Hall).
    { rewrite length_take. lia. }
    destruct (drop (Z.to_nat (Z.of_nat k * C)) payload) as [|b tl] eqn:Etl.
    { apply (f_equal length) in Etl. rewrite length_drop in Etl.
      simpl in Etl. lia. }
    assert (tl = []) as ->.
    { apply (f_equal length) in Etl. rewrite length_drop in Etl.
      simpl in Etl. destruct tl; [reflexivity|simpl in Etl; lia]. }
    assert (concat (pieces ++ [[b]]) = payload) as Hcat'.
    { rewrite concat_app, Hcat. simpl. rewrite <- Etl. apply take_drop. }
    destruct (sendLoop_step_frames C (pieces ++ [[b]]) c m q
                (drop (Z.to_nat (Message.Length m)) (Message.Buffer m)))
      as (c' & Hrun & Htx & _); try assumption.
    + apply chunking_app; [exact HC|exact Hall|]. simpl. lia.
    + rewrite Hcat'. exact Hsplit.
    + rewrite Hcat'. lia.
    + exists c', pieces, b. repeat split; try assumption.
      rewrite concat_app in Hcat'. simpl in Hcat'. exact Hcat'.
Qed.

(** *** Reassembly of what the send path wrote *)

(** Reading a header that follows the codec contract. *)
Lemma receiveLoop_step_header c h rest :
  codec_contract ReadHeader Header_Write -> wfHeader h ->
  closed (conn c) = false -> rx (conn c) = Header_Write h ++ rest ->
  exists h' c1,
    onWire h h' /\
    receiveLoop_step c = receiveChunk c1 h' /\
    rx (conn c1) = rest /\ closed (conn c1) = false /\
    inChunkStreams c1 = inChunkStreams c /\
    inMessages c1 = inMessages c /\ inChunkSize c1 = inChunkSize c.
Proof.
  intros Hcodec Hwf Hcl Hrx.
  destruct (Hcodec h rest Hwf) as (h' & Hread & Hwire).
  unfold rtmp.receiveLoop_step, rtmp.Client_ReadHeader.
  rewrite Hcl, Hrx, Hread.
  exists h'. eexists. split; [exact Hwire|]. split; [reflexivity|].
  repeat split; reflexivity.
Qed.

Lemma receiveLoop_S n c :
  receiveLoop (S n) c
  = match receiveLoop_step c with
    | Next c1 => receiveLoop n c1
    | o => o
    end.
Proof. reflexivity. Qed.

(** The continuation chunks of a message in progress complete it. *)
Lemma receive_continuations C pieces : forall c hc cs lh mp tail,
  codec_contract ReadHeader Header_Write ->
  0 < C -> chunking C pieces -> pieces <> [] ->
  wfHeader hc -> Header.Format hc = HEADER_FORMAT_CONTINUATION ->
  closed (conn c) = false -> inChunkSize c = C ->
  (length (inMessages c) < MESSAGE_QUEUE_CAPACITY)%nat ->
  inbound c (Header.ChunkStreamId hc) = Some cs ->
  InboundChunkStream.lastHeader cs = Some lh ->
  InboundChunkStream.currentMessage cs = Some mp ->
  Message.Length mp
    = Z.of_nat (length (Message.Buffer mp))
      + Z.of_nat (length (concat pieces)) ->
  Message.Length mp < 2 ^ 32 ->
  rx (conn c) = frames Header_Write hc pieces ++ tail ->
  exists c',
    receiveLoop (length pieces) c = Next c' /\
    inMessages c'
      = inMessages c
        ++ [Message.set_Buffer (Message.Buffer mp ++ concat pieces) mp] /\
    rx (conn c') = tail.
Proof.
  induction pieces as [|p ps IH];
    intros c hc cs lh mp tail Hcodec HC Hch Hne Hwf Hfmt Hcl Hsz Hcap
           Hin Hlh Hmp Hlen Hlt Hrx; [contradiction|].
  pose proof (chunking_slice C p ps HC Hch) as Hslice.
  destruct Hch as [_ Hps].
  simpl in Hrx. rewrite <- !app_assoc in Hrx.
  destruct (receiveLoop_step_header c hc _ Hcodec Hwf Hcl Hrx)
    as (h' & c1 & Hwire & Hstep & Hrx1 & Hcl1 & Hmap1 & Hq1 & Hsz1).
  destruct Hwire as (Hfmt' & Hid' & _).
  rewrite Hfmt in Hfmt'.
  assert (inbound c1 (Header.ChunkStreamId h') = Some cs) as Hin1.
  { unfold inbound. rewrite Hmap1, Hid'. exact Hin. }
  assert (exists h1,
            resolveHeader
              (inboundChunkStream c1 (Header.ChunkStreamId h')).1 h'
            = Some (cs, h1,
                    uint32 (InboundChunkStream.lastInAbsoluteTimestamp cs
                            + Header.Timestamp lh),
                    Some mp)) as [h1 Hr].
  { rewrite (inboundChunkStream_found _ _ _ Hin1). simpl.
    unfold resolveHeader, resolveFormat. rewrite Hlh, Hfmt', Hmp.
    eexists. reflexivity. }
  destruct (receiveChunk_slice c1 h' _ _ _ _ p
              (frames Header_Write
                 (Header.set_Format HEADER_FORMAT_CONTINUATION hc) ps ++ tail)
              Hr Hcl1 Hrx1)
    as (c' & Hnext & Hrx' & Hcl' & Hsz' & Hq' & Hin').
  { simpl. rewrite Hsz1, Hsz.
    rewrite (RemainingBytes_eq mp _ Hlen) by lia. exact Hslice. }
  { rewrite Hq1. exact Hcap. }
  simpl in Hq', Hin'.
  assert (Message.RemainingBytes
            (Message.set_Buffer (Message.Buffer mp ++ p) mp)
          = Z.of_nat (length (concat ps))) as Hrem.
  { apply RemainingBytes_eq; simpl; [|lia|exact Hlt].
    rewrite Hlen. simpl. rewrite !length_app. lia. }
  rewrite Hrem in Hq', Hin'.
  change (length (p :: ps)) with (S (length ps)).
  rewrite receiveLoop_S, Hstep, Hnext.
  destruct ps as [|p2 ps].
  - simpl in Hq', Hrx' |- *. exists c'.
    split; [reflexivity|]. split; [|exact Hrx'].
    rewrite Hq', Hq1, app_nil_r. reflexivity.
  - assert ((Z.of_nat (length (concat (p2 :: ps))) =? 0) = false) as Hnz.
    { apply Z.eqb_neq.
      pose proof (chunking_pieces_nonempty C _ HC Hps) as Hall.
      pose proof (Forall_inv Hall) as Hp2. simpl in Hp2 |- *.
      rewrite length_app. lia. }
    rewrite Hnz in Hq', Hin'.
    rewrite Hid' in Hin'.
    edestruct (IH c' (Header.set_Format HEADER_FORMAT_CONTINUATION hc))
      as (c'' & Hrun & Hq'' & Hrx'');
      [ exact Hcodec | exact HC | exact Hps | discriminate
      | apply wfHeader_continuation; exact Hwf | reflexivity
      | exact Hcl' | rewrite Hsz', Hsz1; exact Hsz
      | rewrite Hq', Hq1; exact Hcap
      | exact Hin' | exact Hlh | reflexivity
      | | exact Hlt | exact Hrx' | ].
    + simpl. rewrite Hlen. simpl. rewrite !length_app. lia.
    + exists c''. split; [exact Hrun|]. split; [|exact Hrx''].
      rewrite Hq'', Hq', Hq1. simpl. rewrite <- app_assoc. reflexivity.
Qed.

(** The chunks of a whole message, FULL header first, are reassembled
    into one message that is handed to the dispatch queue. *)
Lemma receive_message C pieces c h0 tail :
  codec_contract ReadHeader Header_Write ->
  0 < C -> chunking C pieces -> pieces <> [] ->
  wfHeader h0 -> Header.Format h0 = HEADER_FORMAT_FULL ->
  closed (conn c) = false -> inChunkSize c = C ->
  (length (inMessages c) < MESSAGE_QUEUE_CAPACITY)%nat ->
  Header.MessageLength h0 = Z.of_nat (length (concat pieces)) ->
  rx (conn c) = frames Header_Write h0 pieces ++ tail ->
  exists c' h',
    onWire h0 h' /\
    receiveLoop (length pieces) c = Next c' /\
    inMessages c'
      = inMessages c
        ++ [Message.set_Buffer (concat pieces)
              (newInboundMessage CalculateTimestamp h' (Header.Timestamp h'))] /\
    rx (conn c') = tail.
Proof.
  intros Hcodec HC Hch Hne Hwf Hfmt Hcl Hsz Hcap Hlen Hrx.
  destruct pieces as [|p ps]; [contradiction|].
  pose proof (chunking_slice C p ps HC Hch) as Hslice.
  destruct Hch as [_ Hps].
  simpl in Hrx. rewrite <- !app_assoc in Hrx.
  destruct (receiveLoop_step_header c h0 _ Hcodec Hwf Hcl Hrx)
    as (h' & c1 & Hwire & Hstep & Hrx1 & Hcl1 & Hmap1 & Hq1 & Hsz1).
  pose proof Hwire as (Hfmt' & Hid' & _ & Hlen' & _).
  rewrite Hfmt in Hfmt'.
  destruct Hlen' as [Hlen' _]; [rewrite Hfmt; discriminate|].
  assert (Header.MessageLength h' < 2 ^ 32) as Hlt.
  { rewrite Hlen'. destruct Hwf as (_ & _ & _ & Hl & _). lia. }
  set (cs := (inboundChunkStream c1 (Header.ChunkStreamId h')).1).
  assert (resolveHeader cs h'
          = Some (InboundChunkStream.set_lastHeader (Some h') cs, h',
                  Header.Timestamp h', None)) as Hr.
  { unfold resolveHeader, resolveFormat. rewrite Hfmt'. simpl.
    destruct (InboundChunkStream.lastHeader cs); reflexivity. }
  set (m0 := newInboundMessage CalculateTimestamp h' (Header.Timestamp h')).
  assert (Message.Length m0
          = Z.of_nat (length (Message.Buffer m0))
            + Z.of_nat (length (concat (p :: ps)))) as Hlen0.
  { simpl. rewrite Hlen', Hlen. reflexivity. }
  destruct (receiveChunk_slice c1 h' _ _ _ _ p
              (frames Header_Write
                 (Header.set_Format HEADER_FORMAT_CONTINUATION h0) ps ++ tail)
              Hr Hcl1 Hrx1)
    as (c' & Hnext & Hrx' & Hcl' & Hsz' & Hq' & Hin').
  { simpl. fold m0. rewrite Hsz1, Hsz.
    rewrite (RemainingBytes_eq m0 _ Hlen0) by (simpl; lia). exact Hslice. }
  { rewrite Hq1. exact Hcap. }
  simpl in Hq', Hin'. fold m0 in Hq', Hin'.
  assert (Message.RemainingBytes (Message.set_Buffer p m0)
          = Z.of_nat (length (concat ps))) as Hrem.
  { apply RemainingBytes_eq; simpl; [|lia|exact Hlt].
    rewrite Hlen', Hlen. simpl. rewrite !length_app. lia. }
  rewrite Hrem in Hq', Hin'.
  change (length (p :: ps)) with (S (length ps)).
  rewrite receiveLoop_S, Hstep, Hnext.
  destruct ps as [|p2 ps].
  - simpl in Hq', Hrx' |- *. exists c', h'.
    split; [exact Hwire|]. split; [reflexivity|]. split; [|exact Hrx'].
    rewrite Hq', Hq1, app_nil_r. reflexivity.
  - assert ((Z.of_nat (length (concat (p2 :: ps))) =? 0) = false) as Hnz.
    { apply Z.eqb_neq.
      pose proof (chunking_pieces_nonempty C _ HC Hps) as Hall.
      pose proof (Forall_inv Hall) as Hp2. simpl in Hp2 |- *.
      rewrite length_app. lia. }
    rewrite Hnz in Hq', Hin'. rewrite Hid' in Hin'.
    edestruct (receive_continuations C (p2 :: ps) c'
                 (Header.set_Format HEADER_FORMAT_CONTINUATION h0))
      as (c'' & Hrun & Hq'' & Hrx'');
      [ exact Hcodec | exact HC | exact Hps | discriminate
      | apply wfHeader_continuation; exact Hwf | reflexivity
      | exact Hcl' | rewrite Hsz', Hsz1; exact Hsz
      | rewrite Hq', Hq1; exact Hcap
      | exact Hin' | reflexivity | reflexivity
      | | exact Hlt | exact Hrx' | ].
    + simpl. rewrite Hlen', Hlen. simpl. rewrite !length_app. lia.
    + exists c'', h'. split; [exact Hwire|].
      split; [exact Hrun|]. split; [|exact Hrx''].
      rewrite Hq'', Hq', Hq1. reflexivity.
Qed.

(** C1 (as amended). For a message with a declared length of at least
    one byte and below 2^24, the most the three-byte length field of the
    header carries, whose buffer holds exactly that many bytes, and a
    chunk size of at least one byte, the send loop writes the message on a
    healthy connection, and a receive loop with the same chunk size that
    reads those bytes (whatever follows them, whatever its chunk-stream
    states) queues, after as many iterations as there are chunks, exactly
    one message, with the type, the stream id, the timestamp, the length
    and the payload bytes of the original.  The code that is missing
    enters through three contracts, one for each part: [ReadHeader]
    decodes what [Header.Write] encodes, for the headers the wire format
    can carry; [NewOutboundHeader] builds a FULL header from the fields of
    the message; [CalculateTimestamp] of a decoded FULL header is its
    timestamp field.  The timestamp of the message received follows from
    the three together along the receive path, which hands the first
    header as decoded to [CalculateTimestamp] and takes the timestamp
    field of that header as the absolute timestamp. *)
Theorem roundtrip (cS : Client) (m : Message.t) (q : list Message.t) (C : Z) :
  codec_contract ReadHeader Header_Write ->
  outbound_header_contract NewOutboundHeader
    (outboundChunkStream cS (Message.ChunkStreamId m)) m ->
  timestamp_contract CalculateTimestamp ->
  0 < Message.Length m < 2 ^ 24 ->
  Z.of_nat (length (Message.Buffer m)) = Message.Length m ->
  outMessages cS = m :: q ->
  closed (conn cS) = false -> wbroken (conn cS) = false ->
  outChunkSize cS = C -> 0 < C ->
  exists cS' bytes,
    sendLoop_step cS = Next cS' /\
    tx (conn cS') = tx (conn cS) ++ bytes /\
    forall cR tail,
      closed (conn cR) = false ->
      rx (conn cR) = bytes ++ tail ->
      inChunkSize cR = C ->
      (length (inMessages cR) < MESSAGE_QUEUE_CAPACITY)%nat ->
      exists n cR' m',
        receiveLoop n cR = Next cR' /\
        inMessages cR' = inMessages cR ++ [m'] /\
        rx (conn cR') = tail /\
        Message.Type_ m' = Message.Type_ m /\
        Message.StreamId m' = Message.StreamId m /\
        Message.Timestamp m' = Message.Timestamp m /\
        Message.AbsoluteTimestamp m' = Message.Timestamp m /\
        Message.Length m' = Message.Length m /\
        Message.Buffer m' = Message.Buffer m.
Proof.
  intros Hcodec Hnew Hts Hlen Hbuf Hq Hcl Hwb Hsz HC.
  destruct (chunking_exists C (length (Message.Buffer m)) (Message.Buffer m) HC)
    as (pieces & Hch & Hcat); [lia|].
  destruct (sendLoop_step_frames C pieces cS m q [] HC Hch Hq Hcl Hwb Hsz)
    as (cS' & Hrun & Htx & _).
  { rewrite Hcat, app_nil_r. reflexivity. }
  { rewrite Hcat. lia. }
  { lia. }
  set (h0 := (NewOutboundHeader
                (outboundChunkStream cS (Message.ChunkStreamId m)) m).1) in *.
  destruct Hnew as (Hwf & Hfmt & Ht0 & Hl0 & Hty0 & Hsid0).
  fold h0 in Hwf, Hfmt, Ht0, Hl0, Hty0, Hsid0.
  exists cS', (frames Header_Write h0 pieces).
  split; [exact Hrun|]. split; [exact Htx|].
  intros cR tail HclR HrxR HszR HcapR.
  destruct (receive_message C pieces cR h0 tail Hcodec HC Hch)
    as (cR' & h' & Hwire & Hrecv & HqR & HrxR'); try assumption.
  { intros ->. simpl in Hcat. rewrite <- Hcat in Hbuf. simpl in Hbuf. lia. }
  { rewrite Hl0, Hcat. lia. }
  exists (length pieces), cR'. eexists.
  split; [exact Hrecv|]. split; [exact HqR|]. split; [exact HrxR'|].
  destruct Hwire as (Hfmt' & _ & Ht' & Hlt & Hsid).
  rewrite Hfmt in Hfmt'.
  destruct Hlt as [Hl' Hty']; [rewrite Hfmt; discriminate|].
  rewrite Ht' in * by (rewrite Hfmt; discriminate).
  simpl. rewrite (Hts h' Hfmt'), Ht'.
  - repeat split; try congruence.
    rewrite Hsid by exact Hfmt. exact Hsid0.
  - rewrite Hfmt. discriminate.
Qed.

End PipelineFacts.

(** ** The simple codec meets the contracts *)

Lemma get32_put32 x :
  0 <= x < 2 ^ 32 ->
  match SimpleCodec.put32 x with
  | [b0; b1; b2; b3] => SimpleCodec.get32 b0 b1 b2 b3 = x
  | _ => False
  end.
Proof.
  intros Hx. unfold SimpleCodec.put32, SimpleCodec.get32.
  change (2 ^ 24) with 16777216. change (2 ^ 16) with 65536.
  change (2 ^ 8) with 256. change (2 ^ 32) with 4294967296 in Hx.
  Z.to_euclidean_division_equations. lia.
Qed.

Lemma SimpleCodec_contract :
  codec_contract SimpleCodec.ReadHeader SimpleCodec.Header_Write.
Proof.
  intros [f id t l ty s] rest (Hf & Hid & Ht & Hl & Hty & Hs). simpl in *.
  assert (0 <= id < 2 ^ 32) as Hid' by lia.
  assert (0 <= l < 2 ^ 32) as Hl' by lia.
  pose proof (get32_put32 id Hid') as Eid.
  pose proof (get32_put32 t Ht) as Et.
  pose proof (get32_put32 l Hl') as El.
  pose proof (get32_put32 s Hs) as Es.
  unfold SimpleCodec.Header_Write, SimpleCodec.ReadHeader, onWire.
  unfold SimpleCodec.put32 in *. simpl Header.Format.
  assert (f = 0 \/ f = 1 \/ f = 2 \/ f = 3) as [-> | [-> | [-> | ->]]] by lia;
    cbn -[Z.div Z.modulo Z.pow SimpleCodec.get32];
    rewrite ?Eid, ?Et, ?El, ?Es;
    (eexists; split; [reflexivity|]);
    cbn; unfold HEADER_FORMAT_SAME_LENGTH_AND_STREAM,
           HEADER_FORMAT_SAME_STREAM, HEADER_FORMAT_FULL;
    repeat split; intros; try reflexivity; lia.
Qed.

Lemma SimpleCodec_outbound cs m :
  wfMessage m -> Message.Length m < 2 ^ 24 ->
  2 <= OutboundChunkStream.Id cs <= 65599 ->
  outbound_header_contract SimpleCodec.NewOutboundHeader cs m.
Proof.
  intros (Hty & _ & Hs & Ht & Hl) Hl24 Hid.
  unfold outbound_header_contract, wfHeader. simpl.
  unfold HEADER_FORMAT_FULL. repeat split; try lia.
Qed.

Lemma SimpleCodec_timestamp :
  timestamp_contract SimpleCodec.CalculateTimestamp.
Proof. intros h _. reflexivity. Qed.

(** ** The wire format of the spec meets the contract of the codec *)

Lemma get24_put24 x :
  0 <= x < 2 ^ 24 ->
  match WireCodec.put24 x with
  | [b0; b1; b2] => WireCodec.get24 b0 b1 b2 = x
  | _ => False
  end.
Proof.
  intros Hx. unfold WireCodec.put24, WireCodec.get24.
  change (2 ^ 16) with 65536. change (2 ^ 8) with 256.
  change (2 ^ 24) with 16777216 in Hx.
  Z.to_euclidean_division_equations. lia.
Qed.

(** The basic header gives back the format and the chunk-stream id, in
    each of its three lengths. *)
Lemma readBasic_basicHeader f id rest :
  0 <= f < 4 -> 2 <= id <= 65599 ->
  WireCodec.readBasic (WireCodec.basicHeader f id ++ rest) = Some (f, id, rest).
Proof.
  intros Hf Hid. unfold WireCodec.basicHeader, WireCodec.readBasic.
  destruct (Z.ltb_spec id 64) as [H1|H1];
    [|destruct (Z.ltb_spec id 320) as [H2|H2]];
    cbn [app].
  - assert ((f * 64 + id) mod 64 = id) as ->
      by (Z.to_euclidean_division_equations; lia).
    assert ((f * 64 + id) / 64 = f) as ->
      by (Z.to_euclidean_division_equations; lia).
    destruct (Z.eqb_spec id 0); [lia|]. destruct (Z.eqb_spec id 1); [lia|].
    reflexivity.
  - assert ((f * 64) mod 64 = 0) as ->
      by (Z.to_euclidean_division_equations; lia).
    assert ((f * 64) / 64 = f) as ->
      by (Z.to_euclidean_division_equations; lia).
    simpl Z.eqb. cbv iota. do 3 f_equal. lia.
  - assert ((f * 64 + 1) mod 64 = 1) as ->
      by (Z.to_euclidean_division_equations; lia).
    assert ((f * 64 + 1) / 64 = f) as ->
      by (Z.to_euclidean_division_equations; lia).
    simpl Z.eqb. cbv iota. do 3 f_equal.
    Z.to_euclidean_division_equations. lia.
Qed.

(** A timestamp of 0xFFFFFF or more travels as the marker and the
    extended timestamp, a smaller one in the three-byte field. *)
Lemma readTimestamp_extended t rest :
  0 <= t < 2 ^ 32 ->
  WireCodec.readTimestamp (WireCodec.timestampField t)
    (WireCodec.extendedTimestamp t ++ rest) = Some (t, rest).
Proof.
  intros Ht. unfold WireCodec.readTimestamp, WireCodec.timestampField,
    WireCodec.extendedTimestamp.
  destruct (Z.ltb_spec t TIMESTAMP_EXTENDED) as [H|H].
  - destruct (Z.eqb_spec t TIMESTAMP_EXTENDED); [lia|]. reflexivity.
  - rewrite Z.eqb_refl. pose proof (get32_put32 t Ht) as E.
    unfold SimpleCodec.put32 in *. cbn [app]. rewrite E. reflexivity.
Qed.

Lemma timestampField_range t :
  0 <= t -> 0 <= WireCodec.timestampField t < 2 ^ 24.
Proof.
  intros Ht. unfold WireCodec.timestampField, TIMESTAMP_EXTENDED.
  destruct (Z.ltb_spec t 0xFFFFFF); lia.
Qed.

Lemma WireCodec_contract :
  codec_contract WireCodec.ReadHeader WireCodec.Header_Write.
Proof.
  intros [f id t l ty s] rest (Hf & Hid & Ht & Hl & Hty & Hs). simpl in *.
  pose proof (get24_put24 _ (timestampField_range t (proj1 Ht))) as Et.
  pose proof (get24_put24 l Hl) as El.
  pose proof (get32_put32 s Hs) as Es.
  pose proof (fun r => readTimestamp_extended t r Ht) as Ex.
  unfold WireCodec.Header_Write, WireCodec.ReadHeader, onWire.
  simpl Header.Format. simpl Header.ChunkStreamId.
  rewrite <- app_assoc, (readBasic_basicHeader f id _ Hf Hid).
  unfold WireCodec.put24, SimpleCodec.put32 in *.
  simpl Header.Timestamp. simpl Header.MessageLength.
  simpl Header.MessageTypeId. simpl Header.MessageStreamId.
  assert (f = 0 \/ f = 1 \/ f = 2 \/ f = 3) as [-> | [-> | [-> | ->]]] by lia;
    cbn -[Z.div Z.modulo Z.pow SimpleCodec.get32 WireCodec.get24
          WireCodec.readTimestamp WireCodec.timestampField
          WireCodec.extendedTimestamp];
    rewrite ?Et, ?El, ?Es, ?Ex;
    (eexists; split; [reflexivity|]);
    cbn; unfold HEADER_FORMAT_SAME_LENGTH_AND_STREAM,
           HEADER_FORMAT_SAME_STREAM, HEADER_FORMAT_FULL;
    repeat split; intros; try reflexivity; lia.
Qed.


(** ** The statements at concrete inputs *)

(** C1, counterexample: a message of declared length zero puts nothing
    on the wire, so the receiving side never queues a message.  At the
    other end of the range, the length field of the header has three
    bytes: in the wire format of the spec, the FULL header of a message
    that declares 2^24 bytes is read back with the length 0, so the
    receive loop queues a message without payload as soon as it has read
    the header. *)
Lemma roundtrip_empty_message_counterexample :
  (exists cS',
     sendLoop_step SimpleCodec.Header_Write SimpleCodec.NewOutboundHeader
       (clientWith (openConn []) 128 128 [emptyMessage]) = Next cS' /\
     tx (conn cS') = [] /\
     forall n cR',
       final (receiverAfter n 128 (tx (conn cS'))) = Some cR' ->
       inMessages cR' = []) /\
  (let h := Header.mk HEADER_FORMAT_FULL CHUNK_STREAM_ID_COMMAND 5 (2 ^ 24)
              MESSAGE_TYPE_AMF0 7 in
   exists cR' m',
     receiveLoop_step WireCodec.ReadHeader SimpleCodec.CalculateTimestamp
       (clientWith (openConn (WireCodec.Header_Write h ++ [1; 2; 3]))
          128 128 []) = Next cR' /\
     inMessages cR' = [m'] /\
     Message.Length m' = 0 /\ Message.Buffer m' = [] /\
     rx (conn cR') = [1; 2; 3]).
Proof.
  split.
  - eexists. split; [reflexivity|]. split; [reflexivity|].
    intros [|n] cR'; vm_compute; intros [= <-]; reflexivity.
  - do 2 eexists. split; [vm_compute; reflexivity|].
    repeat split; reflexivity.
Qed.

(** C1 at a message of five bytes and chunks of two, with the header
    codec in the wire format of the spec. *)
Lemma roundtrip_witness :
  exists cS' bytes,
    sendLoop_step WireCodec.Header_Write SimpleCodec.NewOutboundHeader
      (clientWith (openConn []) 2 2 [fiveByteMessage]) = Next cS' /\
    tx (conn cS') = bytes /\
    exists n cR' m',
      receiveLoop WireCodec.ReadHeader SimpleCodec.CalculateTimestamp n
        (clientWith (openConn bytes) 2 2 []) = Next cR' /\
      inMessages cR' = [m'] /\
      Message.Type_ m' = MESSAGE_TYPE_AMF0 /\
      Message.StreamId m' = 7 /\
      Message.Timestamp m' = 5 /\
      Message.Length m' = 5 /\
      Message.Buffer m' = [1; 2; 3; 4; 5].
Proof.
  destruct (roundtrip WireCodec.ReadHeader WireCodec.Header_Write
              SimpleCodec.CalculateTimestamp SimpleCodec.NewOutboundHeader
              (clientWith (openConn []) 2 2 [fiveByteMessage])
              fiveByteMessage [] 2)
    as (cS' & bytes & Hsend & Htx & Hrecv).
  - exact WireCodec_contract.
  - apply SimpleCodec_outbound; vm_compute; intuition discriminate.
  - exact SimpleCodec_timestamp.
  - vm_compute. split; reflexivity.
  - reflexivity.
  - reflexivity.
  - reflexivity.
  - reflexivity.
  - reflexivity.
  - lia.
  - exists cS', bytes. split; [exact Hsend|]. split; [exact Htx|].
    destruct (Hrecv (clientWith (openConn bytes) 2 2 []) [])
      as (n & cR' & m' & Hrun & Hq & _ & Hty & Hsid & Hts & _ & Hlen & Hbuf).
    + reflexivity.
    + simpl. symmetry. apply app_nil_r.
    + reflexivity.
    + vm_compute. lia.
    + exists n, cR', m'. repeat split; assumption.
Defined.

(** C2, counterexample: an audio message on chunk stream 5 is dequeued
    and no [OnReceive] reaches the handler. *)
Lemma dispatch_other_stream_counterexample :
  exists c',
    dispatchLoop_step
      (set_inMessages [audioMessage] (connectedClient (openConn [])))
    = Next c' /\
    ~ In (OnReceive audioMessage) (trace c') /\
    trace c' = [].
Proof.
  eexists. split; [reflexivity|]. split; [intros []|reflexivity].
Qed.

(** C2 at an audio message on chunk stream 5. *)
Lemma dispatch_routes_by_chunk_stream_id_witness :
  let c := set_inMessages [audioMessage] (connectedClient (openConn [])) in
  inMessages c = [audioMessage] /\
  dispatchLoop_step c = Next (set_inMessages [] c).
Proof.
  intros c. split; [reflexivity|].
  apply (dispatch_routes_by_chunk_stream_id c audioMessage [] eq_refl);
    vm_compute; discriminate.
Defined.

(** C3, counterexample: a message of three bytes with timestamp 5,
    received in chunks of one byte: the three chunks resolve the absolute
    timestamps 5, 10 and 15. *)
Lemma continuation_timestamps_differ_counterexample :
  let bytes := wireOf 1 (Message.mk 8 5 1 5 5 3 [1; 2; 3]) in
  timestampOf 5 (receiverAfter 1 1 bytes) = Some 5 /\
  timestampOf 5 (receiverAfter 2 1 bytes) = Some 10 /\
  timestampOf 5 (receiverAfter 3 1 bytes) = Some 15 /\
  (exists c', receiverAfter 3 1 bytes = Next c' /\
              Message.AbsoluteTimestamp <$> last (inMessages c') = Some 5).
Proof.
  vm_compute. repeat split. eexists. split; reflexivity.
Qed.

(** C3 at the two continuation chunks of a message in progress. *)
Lemma continuation_timestamp_advances_witness :
  let c := receiverOn (Header.mk 0 5 5 3 8 1) 5
             (Some (Message.mk 8 5 1 5 5 3 [1])) [2; 3] 1 in
  let h := Header.mk HEADER_FORMAT_CONTINUATION 5 0 0 0 0 in
  let c1 := default c
              (final (receiveChunk SimpleCodec.CalculateTimestamp c h)) in
  let c2 := default c
              (final (receiveChunk SimpleCodec.CalculateTimestamp c1 h)) in
  final (receiveChunk SimpleCodec.CalculateTimestamp c h) = Some c1 /\
  receiveChunks SimpleCodec.CalculateTimestamp [h; h] c = Next c2 /\
  (exists cs1, inbound c1 5 = Some cs1 /\
     InboundChunkStream.lastInAbsoluteTimestamp cs1 = 10) /\
  (exists cs2, inbound c2 5 = Some cs2 /\
     InboundChunkStream.lastInAbsoluteTimestamp cs2 = 15).
Proof.
  intros c h c1 c2.
  assert (final (receiveChunk SimpleCodec.CalculateTimestamp c h) = Some c1)
    as H1 by (vm_compute; reflexivity).
  assert (receiveChunks SimpleCodec.CalculateTimestamp [h; h] c = Next c2)
    as H2 by (vm_compute; reflexivity).
  assert (continues 5 h) as Hh by (split; reflexivity).
  split; [exact H1|]. split; [exact H2|].
  pose proof (continuation_timestamp_advances SimpleCodec.CalculateTimestamp
                c 5
                (InboundChunkStream.mk 5 (Some (Header.mk 0 5 5 3 8 1)) 5
                   (Some (Message.mk 8 5 1 5 5 3 [1])))
                (Header.mk 0 5 5 3 8 1)
                ltac:(vm_compute; reflexivity) eq_refl) as Hall.
  cbv zeta in Hall. destruct Hall as [Hone Hrun]. split.
  - destruct (Hone h c1 Hh H1) as (cs1 & Hin & Hts & _).
    exists cs1. split; [exact Hin|exact Hts].
  - destruct (Hrun [h; h] c2) as (cs2 & Hin & _ & Hts & _);
      [discriminate|repeat constructor; exact Hh|exact H2|].
    exists cs2. split; [exact Hin|exact Hts].
Defined.

(** C4 at a CONTINUATION header that opens chunk stream 5. *)
Lemma fresh_non_full_header_rejected_witness :
  let h := Header.mk HEADER_FORMAT_CONTINUATION 5 0 0 0 0 in
  let c := clientWith (openConn (SimpleCodec.Header_Write h ++ [9; 9]))
             128 128 [] in
  exists c',
    receiveLoop_step SimpleCodec.ReadHeader SimpleCodec.CalculateTimestamp c
    = Exit c' /\
    connected c' = false /\ closed (conn c') = true /\
    rx (conn c') = [9; 9] /\ inMessages c' = [].
Proof.
  intros h c.
  destruct (fresh_non_full_header_rejected SimpleCodec.ReadHeader
              SimpleCodec.CalculateTimestamp c h [9; 9])
    as (c' & Hstep & Hcn & Hcl & _ & Hrx & Hq & _).
  - reflexivity.
  - reflexivity.
  - vm_compute. discriminate.
  - intros cs Hcs. vm_compute in Hcs. discriminate.
  - exists c'. repeat split; assumption.
Defined.

(** C5 at a message of five bytes and chunks of two: two chunks of two
    bytes and one of one byte. *)
Lemma chunking_boundary_witness :
  let c := clientWith (openConn []) 2 2 [fiveByteMessage] in
  exists c' pieces b,
    sendLoop_step SimpleCodec.Header_Write SimpleCodec.NewOutboundHeader c
    = Next c' /\
    length pieces = 2%nat /\
    Forall (fun p => Z.of_nat (length p) = 2) pieces /\
    concat pieces ++ [b] = [1; 2; 3; 4; 5].
Proof.
  intros c.
  destruct (chunking_boundary SimpleCodec.Header_Write
              SimpleCodec.NewOutboundHeader c fiveByteMessage [] 2 2)
    as [_ Hodd].
  - reflexivity.
  - reflexivity.
  - reflexivity.
  - reflexivity.
  - lia.
  - vm_compute. discriminate.
  - vm_compute. reflexivity.
  - destruct Hodd as (c' & pieces & b & Hstep & _ & Hk & Hall & Hcat);
      [reflexivity|].
    exists c', pieces, b. repeat split; assumption.
Defined.

(** C6, counterexample: a message of three bytes whose FULL header has
    the timestamp 5, received in chunks of one byte, is followed by a
    SAME_LENGTH_AND_STREAM header with the delta 20.  The FULL header
    resolved the timestamp 5; the new header resolves 35, not 25. *)
Lemma same_length_after_continuations_counterexample :
  let bytes := wireOf 1 (Message.mk 8 5 1 5 5 3 [1; 2; 3])
               ++ SimpleCodec.Header_Write
                    (Header.mk HEADER_FORMAT_SAME_LENGTH_AND_STREAM 5 20 0 0 0)
               ++ [9; 9; 9] in
  timestampOf 5 (receiverAfter 1 1 bytes) = Some 5 /\
  timestampOf 5 (receiverAfter 3 1 bytes) = Some 15 /\
  timestampOf 5 (receiverAfter 4 1 bytes) = Some 35 /\
  (exists c', receiverAfter 4 1 bytes = Next c' /\
              Message.AbsoluteTimestamp <$> chunkMessage c' 5 = Some 35).
Proof.
  vm_compute. repeat split. eexists. split; reflexivity.
Qed.

(** C6 at a FULL header with stream id 1, length 3, type 8 and timestamp
    5, two continuation chunks, and a delta of 20. *)
Lemma same_length_and_stream_inherits_witness :
  let c := clientWith (openConn [1; 2; 3; 9; 9; 9]) 1 1 [] in
  let hf := Header.mk HEADER_FORMAT_FULL 5 5 3 8 1 in
  let hc := Header.mk HEADER_FORMAT_CONTINUATION 5 0 0 0 0 in
  let h := Header.mk HEADER_FORMAT_SAME_LENGTH_AND_STREAM 5 20 0 0 0 in
  let c1 := default c
              (final (receiveChunk SimpleCodec.CalculateTimestamp c hf)) in
  let c2 := default c
              (final (receiveChunks SimpleCodec.CalculateTimestamp
                        [hc; hc] c1)) in
  let c' := default c
              (final (receiveChunk SimpleCodec.CalculateTimestamp c2 h)) in
  receiveChunk SimpleCodec.CalculateTimestamp c hf = Next c1 /\
  receiveChunks SimpleCodec.CalculateTimestamp [hc; hc] c1 = Next c2 /\
  final (receiveChunk SimpleCodec.CalculateTimestamp c2 h) = Some c' /\
  exists cs',
    inbound c' 5 = Some cs' /\
    InboundChunkStream.lastHeader cs'
      = Some (Header.mk HEADER_FORMAT_SAME_LENGTH_AND_STREAM 5 20 3 8 1) /\
    InboundChunkStream.lastInAbsoluteTimestamp cs' = 35.
Proof.
  intros c hf hc h c1 c2 c'.
  assert (receiveChunk SimpleCodec.CalculateTimestamp c hf = Next c1)
    as H1 by (vm_compute; reflexivity).
  assert (receiveChunks SimpleCodec.CalculateTimestamp [hc; hc] c1 = Next c2)
    as H2 by (vm_compute; reflexivity).
  assert (final (receiveChunk SimpleCodec.CalculateTimestamp c2 h) = Some c')
    as H3 by (vm_compute; reflexivity).
  assert (Forall (continues (Header.ChunkStreamId hf)) [hc; hc]) as Hall
    by (repeat constructor).
  split; [exact H1|]. split; [exact H2|]. split; [exact H3|].
  destruct (same_length_and_stream_inherits SimpleCodec.CalculateTimestamp
              c hf [hc; hc] h c1 c2 c' eq_refl H1 Hall H2 eq_refl eq_refl H3)
    as (cs2 & cs' & _ & _ & _ & Hin' & Hlh' & _ & Hts' & _).
  exists cs'. split; [exact Hin'|]. split; [exact Hlh'|exact Hts'].
Defined.



(** C8, counterexample: a chunk-size message with a payload of three
    bytes.  There is no 32-bit value to read: the handler panics, and the
    inbound chunk size is not set. *)
Lemma chunk_size_short_payload_counterexample :
  let m := Message.mk MESSAGE_TYPE_CHUNK_SIZE CHUNK_STREAM_ID_PROTOCOL 0 0 0 3
             [0; 16; 0] in
  let c := connectedClient (openConn []) in
  Message.Type_ m = MESSAGE_TYPE_CHUNK_SIZE /\
  handleProtocolMessage m c = None /\
  dispatchLoop_step (set_inMessages [m] c) = Panicked.
Proof.
  intros m c. split; [reflexivity|]. split; reflexivity.
Qed.

(** C8 at a chunk-size message that announces 4096, handled while a
    message of three bytes is in progress of which one byte arrived in a
    chunk of size one: the next chunk takes the two bytes that remain. *)
Lemma chunk_size_message_sets_inbound_size_witness :
  let c := set_inMessages [chunkSizeMessage]
             (receiverOn (Header.mk HEADER_FORMAT_FULL 5 5 3 8 1) 5
                (Some (Message.mk 8 5 1 5 5 3 [1])) [2; 3; 9] 1) in
  let h := Header.mk HEADER_FORMAT_CONTINUATION 5 0 0 0 0 in
  exists c',
    dispatchLoop_step c = Next c' /\ inChunkSize c' = 4096 /\
    inChunkStreams c' = inChunkStreams c /\
    exists c'',
      receiveChunk SimpleCodec.CalculateTimestamp c' h = Next c'' /\
      rx (conn c'') = [9] /\
      chunkMessage c'' 5 = Some (Message.mk 8 5 1 5 5 3 [1; 2; 3]).
Proof.
  intros c h.
  destruct (chunk_size_message_sets_inbound_size
              SimpleCodec.CalculateTimestamp c chunkSizeMessage [] 0 0 16 0 [])
    as (c' & Hstep & Hh & Hsz & Hmap & _ & _ & Hread);
    try reflexivity; try lia.
  exists c'. split; [exact Hstep|]. split; [exact Hsz|].
  split; [exact Hmap|].
  vm_compute in Hh. injection Hh as <-.
  edestruct (Hread h) as [_ Hprog]; [vm_compute; reflexivity|].
  destruct (Hprog [2; 3] [9]) as (c'' & Hnext & Hrx & Hm);
    [reflexivity|reflexivity|vm_compute; reflexivity|vm_compute; lia|].
  exists c''. split; [exact Hnext|]. split; [exact Hrx|exact Hm].
Defined.

(** C9 at the failing input: the first command message of a new client. *)
Lemma sendLoop_does_not_record_chunk_stream_witness :
  let c := clientWith (openConn []) 128 128 [commandMessage 3] in
  exists c',
    sendLoop_step SimpleCodec.Header_Write SimpleCodec.NewOutboundHeader c
    = Next c' /\
    outChunkStreams c' !! CHUNK_STREAM_ID_COMMAND = None.
Proof.
  intros c. eexists. split; [vm_compute; reflexivity|].
  apply (sendLoop_does_not_record_chunk_stream SimpleCodec.Header_Write
           SimpleCodec.NewOutboundHeader c (commandMessage 3) []);
    vm_compute; reflexivity.
Defined.

(** C10 at a command message that arrives after a [Disconnect]. *)
Lemma command_message_is_the_only_connect_witness :
  let c := set_inMessages [commandMessage 3]
             (Disconnect (connectedClient (openConn []))) in
  connected c = false /\
  exists c', dispatchLoop_step c = Next c' /\ connected c' = true.
Proof.
  intros c. split; [reflexivity|].
  apply (proj1 (proj2 (proj2 (command_message_is_the_only_connect
                                SimpleCodec.ReadHeader SimpleCodec.Header_Write
                                SimpleCodec.CalculateTimestamp
                                SimpleCodec.NewOutboundHeader)))
           c (commandMessage 3) []); reflexivity.
Defined.

(** ** Further properties of the client *)

(** *** The protocol handler and the dispatch loop *)

(** X1. A protocol message of a type other than chunk-size is accepted
    and changes nothing in the client: an acknowledgement-size message and
    a message of an unknown type whatever their payload, a bandwidth
    message as soon as it holds the four bytes that are read. *)
Theorem protocol_handler_changes_only_chunk_size (m : Message.t) (c : Client) :
  Message.Type_ m <> MESSAGE_TYPE_CHUNK_SIZE ->
  Message.Type_ m <> MESSAGE_TYPE_BANDWIDTH
  \/ (4 <= length (Message.Buffer m))%nat ->
  handleProtocolMessage m c = Some c.
Proof.
  intros H1 H6. unfold handleProtocolMessage.
  destruct (Z.eqb_spec (Message.Type_ m) MESSAGE_TYPE_CHUNK_SIZE);
    [contradiction|].
  destruct (Z.eqb_spec (Message.Type_ m) MESSAGE_TYPE_ACK_SIZE);
    [reflexivity|].
  destruct (Z.eqb_spec (Message.Type_ m) MESSAGE_TYPE_BANDWIDTH);
    [|reflexivity].
  destruct H6 as [H6|H6]; [contradiction|].
  destruct (Message.Buffer m) as [|b0 [|b1 [|b2 [|b3 l]]]];
    simpl in H6; try lia. reflexivity.
Qed.

(** X2. A chunk-size or bandwidth message on the protocol chunk stream
    whose payload is shorter than four bytes makes the dispatch loop
    panic: the value is read without a check of the length. *)
Theorem short_protocol_message_panics (c : Client) (m : Message.t)
    (q : list Message.t) :
  inMessages c = m :: q ->
  Message.ChunkStreamId m = CHUNK_STREAM_ID_PROTOCOL ->
  Message.Type_ m = MESSAGE_TYPE_CHUNK_SIZE
  \/ Message.Type_ m = MESSAGE_TYPE_BANDWIDTH ->
  (length (Message.Buffer m) < 4)%nat ->
  dispatchLoop_step c = Panicked.
Proof.
  intros Hq Hid Hty Hlen. unfold dispatchLoop_step. rewrite Hq, Hid.
  simpl Z.eqb. cbv iota.
  assert (BigEndian_Uint32 (Message.Buffer m) = None) as Hnone.
  { destruct (Message.Buffer m) as [|b0 [|b1 [|b2 [|b3 l]]]];
      simpl in Hlen; try lia; reflexivity. }
  unfold handleProtocolMessage.
  destruct Hty as [-> | ->]; simpl Z.eqb; cbv iota; rewrite Hnone; reflexivity.
Qed.

Lemma dispatchLoop_step_readable c m q :
  inMessages c = m :: q -> readable m ->
  exists c',
    dispatchLoop_step c = Next c' /\
    inMessages c' = q /\
    connected c' = (connected c || onCommandStream m) /\
    conn c' = conn c /\ trace c' = trace c /\
    inChunkStreams c' = inChunkStreams c /\
    outMessages c' = outMessages c.
Proof.
  intros Hq Hread. unfold dispatchLoop_step, onCommandStream. rewrite Hq.
  destruct (Z.eqb_spec (Message.ChunkStreamId m) CHUNK_STREAM_ID_PROTOCOL)
    as [Hid|Hid].
  - assert ((Message.ChunkStreamId m =? CHUNK_STREAM_ID_COMMAND) = false)
      as -> by (rewrite Hid; reflexivity).
    rewrite orb_false_r.
    assert (exists c', handleProtocolMessage m (set_inMessages q c) = Some c')
      as [c' Hc'].
    { unfold handleProtocolMessage.
      destruct (Z.eqb_spec (Message.Type_ m) MESSAGE_TYPE_CHUNK_SIZE) as [H1|H1].
      - pose proof (Hread Hid (or_introl H1)) as Hlen.
        destruct (Message.Buffer m) as [|b0 [|b1 [|b2 [|b3 l]]]];
          simpl in Hlen; try lia. eexists. reflexivity.
      - destruct (Message.Type_ m =? MESSAGE_TYPE_ACK_SIZE);
          [eexists; reflexivity|].
        destruct (Z.eqb_spec (Message.Type_ m) MESSAGE_TYPE_BANDWIDTH)
          as [H6|H6]; [|eexists; reflexivity].
        pose proof (Hread Hid (or_intror H6)) as Hlen.
        destruct (Message.Buffer m) as [|b0 [|b1 [|b2 [|b3 l]]]];
          simpl in Hlen; try lia. eexists. reflexivity. }
    rewrite Hc'. exists c'. split; [reflexivity|].
    destruct (handleProtocolMessage_cases _ _ _ Hc') as [-> | [size ->]];
      repeat split; reflexivity.
  - destruct (Message.ChunkStreamId m =? CHUNK_STREAM_ID_COMMAND).
    + eexists. split; [reflexivity|]. simpl. rewrite orb_true_r.
      repeat split; reflexivity.
    + eexists. split; [reflexivity|]. simpl. rewrite orb_false_r.
      repeat split; reflexivity.
Qed.

(** X3. The dispatch loop drains its queue in order: when every message
    waiting is readable, as many iterations as there are messages empty
    the queue, after which the loop blocks.  The client ends up connected
    exactly when it was connected before or one of the messages came on
    the command chunk stream; the connection, the chunk-stream states and
    the trace are untouched, so no message is handed to the application
    handler. *)
Theorem dispatch_drains_queue (q : list Message.t) : forall c : Client,
  inMessages c = q -> Forall readable q ->
  exists c',
    iterate dispatchLoop_step (length q) c = Next c' /\
    inMessages c' = [] /\
    dispatchLoop_step c' = Blocked /\
    connected c' = (connected c || existsb onCommandStream q) /\
    conn c' = conn c /\ trace c' = trace c /\
    inChunkStreams c' = inChunkStreams c.
Proof.
  induction q as [|m q IH]; intros c Hq Hall.
  - exists c. simpl. unfold dispatchLoop_step. rewrite Hq, orb_false_r.
    repeat split; reflexivity.
  - pose proof (Forall_inv Hall) as Hm. pose proof (Forall_inv_tail Hall) as Hq'.
    destruct (dispatchLoop_step_readable c m q Hq Hm)
      as (c1 & Hstep & Hq1 & Hcn1 & Hk1 & Htr1 & Hmap1 & _).
    destruct (IH c1 Hq1 Hq') as (c' & Hrun & Hemp & Hblk & Hcn & Hk & Htr & Hmap).
    exists c'. simpl. rewrite Hstep.
    split; [exact Hrun|]. split; [exact Hemp|]. split; [exact Hblk|].
    split; [rewrite Hcn, Hcn1, orb_assoc; reflexivity|].
    repeat split; congruence.
Qed.

(** *** Transaction ids *)

Lemma transactionIds_spec n : forall last,
  transactionIds n last
  = map (fun i => uint32 (last + 1 + Z.of_nat i)) (seq 0 n).
Proof.
  induction n as [|n IH]; intros last; [reflexivity|].
  simpl. rewrite IH. f_equal; [f_equal; lia|].
  rewrite <- seq_shift, map_map. apply map_ext. intros i.
  rewrite <- Z.add_assoc, uint32_add_idemp. unfold uint32. f_equal. lia.
Qed.

(** X4. Successive transaction ids count up from the counter, modulo
    [2 ^ 32], and no id comes twice within [2 ^ 32] calls. *)
Theorem transaction_ids_distinct (n : nat) (last : Z) :
  Z.of_nat n <= 2 ^ 32 ->
  NoDup (transactionIds n last) /\
  forall i, (i < n)%nat ->
    nth_error (transactionIds n last) i
    = Some (uint32 (last + 1 + Z.of_nat i)).
Proof.
  intros Hn. rewrite transactionIds_spec. split.
  - apply NoDup_fmap_2_strong; [|apply NoDup_seq].
    intros i j Hi Hj Heq.
    apply elem_of_seq in Hi, Hj. unfold uint32 in Heq.
    assert ((Z.of_nat i - Z.of_nat j) mod 2 ^ 32 = 0) as Hmod.
    { replace (Z.of_nat i - Z.of_nat j)
        with ((last + 1 + Z.of_nat i) - (last + 1 + Z.of_nat j)) by lia.
      rewrite Zminus_mod, Heq, Z.sub_diag. reflexivity. }
    apply Z.mod_divide in Hmod; [|lia]. destruct Hmod as [k Hk].
    assert (k = 0) by nia. lia.
  - intros i Hi. rewrite nth_error_map, nth_error_seq.
    destruct (Nat.ltb_spec i n); [reflexivity|lia].
Qed.

(** *** The loops, for any codec *)

Section ClientFacts.

Set Default Proof Using "Type".

Variable ReadHeader : list Z -> option Header.t * list Z.
Variable Header_Write : Header.t -> list Z.
Variable CalculateTimestamp : Header.t -> Z.
Variable NewOutboundHeader :
  OutboundChunkStream.t -> Message.t -> Header.t * OutboundChunkStream.t.

Local Abbreviation sendChunks := (rtmp.sendChunks Header_Write).
Local Abbreviation sendLoop_step :=
  (rtmp.sendLoop_step Header_Write NewOutboundHeader).
Local Abbreviation receiveChunk := (rtmp.receiveChunk CalculateTimestamp).
Local Abbreviation receiveLoop_step :=
  (rtmp.receiveLoop_step ReadHeader CalculateTimestamp).
Local Abbreviation Client_ReadHeader := (rtmp.Client_ReadHeader ReadHeader).

(** **** Each loop keeps to its own direction *)

Lemma recv_frame_receiveChunk c h c' :
  final (receiveChunk c h) = Some c' -> recv_frame c c'.
Proof.
  unfold rtmp.receiveChunk, recv_frame.
  assert (recv_frame c (inboundChunkStream c (Header.ChunkStreamId h)).2) as H1.
  { unfold inboundChunkStream, recv_frame.
    destruct (inChunkStreams c !! _); simpl; repeat split; reflexivity. }
  destruct (inboundChunkStream c _) as [cs c1]. simpl in H1.
  destruct H1 as (H11 & H12 & H13 & H14 & H15 & H16 & H17).
  destruct (resolveHeader cs h) as [[[[cs1 h1] ts] mo]|]; simpl.
  2:{ intros [= <-]. simpl. repeat split; assumption. }
  match goal with |- context [Client_ReadN c1 ?n] =>
    assert (recv_frame c1 (Client_ReadN c1 n).2) as H2;
    [ unfold Client_ReadN, recv_frame;
      destruct (n =? 0); [|destruct (closed (conn c1))]; simpl;
      repeat split; reflexivity
    | destruct (Client_ReadN c1 n) as [[got ok] c2] ] end.
  simpl in H2. destruct H2 as (H21 & H22 & H23 & H24 & H25 & H26 & H27).
  destruct ok.
  - destruct (Message.RemainingBytes _ =? 0).
    + destruct (_ <? _)%nat; simpl; [|discriminate].
      intros [= <-]. simpl. repeat split; congruence.
    + simpl. intros [= <-]. simpl. repeat split; congruence.
  - simpl. intros [= <-]. unfold disconnectIfConnected.
    destruct (connected _); simpl; repeat split; congruence.
Qed.

(** X5. An iteration of the receive loop, however it ends, leaves the
    outbound side of the client alone: it writes nothing to the
    connection, and the outbound byte counter, queue, chunk size and
    chunk-stream map are as before, as is the inbound chunk size. *)
Theorem receive_loop_leaves_outbound_alone (c c' : Client) :
  final (receiveLoop_step c) = Some c' ->
  tx (conn c') = tx (conn c) /\
  outBytes c' = outBytes c /\
  outMessages c' = outMessages c /\
  outChunkSize c' = outChunkSize c /\
  outChunkStreams c' = outChunkStreams c /\
  inChunkSize c' = inChunkSize c.
Proof.
  unfold rtmp.receiveLoop_step.
  assert (recv_frame c (Client_ReadHeader c).2) as H1.
  { unfold rtmp.Client_ReadHeader, recv_frame.
    destruct (closed (conn c)); [repeat split; reflexivity|].
    destruct (ReadHeader _). simpl. repeat split; reflexivity. }
  destruct (Client_ReadHeader c) as [[h|] c1]; simpl in H1;
    destruct H1 as (H11 & H12 & H13 & H14 & H15 & H16 & H17).
  - intros Hf. apply recv_frame_receiveChunk in Hf.
    destruct Hf as (H21 & H22 & H23 & H24 & H25 & H26 & H27).
    repeat split; congruence.
  - simpl. intros [= <-]. unfold disconnectIfConnected.
    destruct (connected c1); simpl; repeat split; congruence.
Qed.

(** X6. An iteration of the send loop, however it ends, leaves the
    inbound side of the client alone: it reads nothing from the
    connection, and the inbound byte counter, queue, chunk size and
    chunk-stream map are as before, as is the outbound chunk size. *)
Theorem send_loop_leaves_inbound_alone (c c' : Client) :
  final (sendLoop_step c) = Some c' ->
  rx (conn c') = rx (conn c) /\
  inBytes c' = inBytes c /\
  inMessages c' = inMessages c /\
  inChunkSize c' = inChunkSize c /\
  inChunkStreams c' = inChunkStreams c /\
  outChunkSize c' = outChunkSize c.
Proof.
  unfold rtmp.sendLoop_step.
  destruct (outMessages c) as [|m q]; [discriminate|].
  destruct (NewOutboundHeader _ m) as [h cs']. intros Hf.
  apply send_frame_sendChunks in Hf.
  destruct Hf as (_ & _ & H3 & H4 & H5 & H6 & H7 & H8).
  destruct (outChunkStreams _ !! _); simpl in *; repeat split; assumption.
Qed.

(** **** What reaches the trace *)

Lemma at_most_one_close_guard c0 c :
  trace c = trace c0 -> at_most_one_close c0 (disconnectIfConnected c).
Proof.
  intros Htr. unfold at_most_one_close, disconnectIfConnected.
  destruct (connected c).
  - right. rewrite Disconnect_trace, Htr. reflexivity.
  - left. exact Htr.
Qed.

Lemma at_most_one_close_sendChunks fuel : forall c0 c h buf rem c',
  trace c = trace c0 ->
  final (sendChunks fuel c h buf rem) = Some c' -> at_most_one_close c0 c'.
Proof.
  induction fuel as [|fuel IH]; intros c0 c h buf rem c' Htr; simpl.
  - destruct (rem >? 0); simpl; [discriminate|].
    intros [= <-]. left. exact Htr.
  - destruct (rem >? 0); simpl; [|intros [= <-]; left; exact Htr].
    destruct (Client_Write c (Header_Write h)) as [c1|] eqn:Ew.
    + apply Client_Write_keeps in Ew. destruct Ew as [_ Htr1].
      pose proof (CopyN_out_keeps c1 buf
        (if rem >? outChunkSize c1 then outChunkSize c1 else rem)) as Hk.
      destruct (CopyN_out c1 buf _) as [[[c2 buf'] n] ok].
      simpl in Hk. destruct Hk as [_ Htr2].
      destruct ok.
      * apply IH. congruence.
      * simpl. intros [= <-]. apply at_most_one_close_guard. congruence.
    + simpl. intros [= <-]. apply at_most_one_close_guard. exact Htr.
Qed.

(** X7. No iteration of the dispatch, send or receive loop calls the
    application handler, and each closes the connection at most once:
    what an iteration adds to the trace is nothing or one [ConnClose]. *)
Theorem loops_never_call_the_handler (c c' : Client) :
  final (dispatchLoop_step c) = Some c'
  \/ final (sendLoop_step c) = Some c'
  \/ final (receiveLoop_step c) = Some c' ->
  at_most_one_close c c' /\
  handlerCalls (trace c') = handlerCalls (trace c).
Proof.
  intros Hstep.
  assert (at_most_one_close c c') as Hone.
  2:{ split; [exact Hone|]. destruct Hone as [-> | ->]; [reflexivity|].
      unfold handlerCalls. rewrite List.filter_app. simpl. apply app_nil_r. }
  destruct Hstep as [Hf|[Hf|Hf]].
  - left. revert Hf. unfold dispatchLoop_step.
    destruct (inMessages c) as [|m q]; [discriminate|].
    destruct (Message.ChunkStreamId m =? CHUNK_STREAM_ID_PROTOCOL).
    + destruct (handleProtocolMessage m _) as [c2|] eqn:E; [|discriminate].
      simpl. intros [= <-].
      destruct (handleProtocolMessage_cases _ _ _ E) as [-> | [size ->]];
        reflexivity.
    + destruct (Message.ChunkStreamId m =? CHUNK_STREAM_ID_COMMAND);
        simpl; intros [= <-]; reflexivity.
  - revert Hf. unfold rtmp.sendLoop_step.
    destruct (outMessages c) as [|m q]; [discriminate|].
    destruct (NewOutboundHeader _ m) as [h cs'].
    apply at_most_one_close_sendChunks.
    destruct (outChunkStreams _ !! _); reflexivity.
  - revert Hf. unfold rtmp.receiveLoop_step.
    pose proof (Client_ReadHeader_keeps ReadHeader c) as [_ Htr0].
    destruct (Client_ReadHeader c) as [[h|] c0]; simpl in Htr0.
    2:{ simpl. intros [= <-]. apply at_most_one_close_guard. exact Htr0. }
    unfold rtmp.receiveChunk.
    pose proof (inboundChunkStream_frame c0 (Header.ChunkStreamId h)) as Hfr.
    destruct (inboundChunkStream c0 _) as [cs c1]. simpl in Hfr.
    destruct Hfr as (_ & _ & _ & _ & Htr1 & _).
    destruct (resolveHeader cs h) as [[[[cs1 h1] ts] mo]|].
    2:{ simpl. intros [= <-]. right.
        rewrite Disconnect_trace, Htr1, Htr0. reflexivity. }
    match goal with |- context [Client_ReadN c1 ?n] =>
      pose proof (Client_ReadN_keeps c1 n) as [_ Htr2];
      destruct (Client_ReadN c1 n) as [[got ok] c2] end.
    simpl in Htr2.
    destruct ok.
    + destruct (Message.RemainingBytes _ =? 0).
      * destruct (_ <? _)%nat; simpl; [|discriminate].
        intros [= <-]. left. simpl. congruence.
      * simpl. intros [= <-]. left. simpl. congruence.
    + simpl. intros [= <-]. apply at_most_one_close_guard. simpl. congruence.
Qed.

(** **** The receive path, chunk by chunk *)

(** X8. Chunk streams are independent: a chunk on one chunk-stream id,
    however the iteration ends, leaves the state of every other chunk
    stream as it was. *)
Theorem chunk_leaves_other_streams_alone (c : Client) (h : Header.t)
    (c' : Client) (id' : Z) :
  final (receiveChunk c h) = Some c' ->
  id' <> Header.ChunkStreamId h ->
  inbound c' id' = inbound c id'.
Proof.
  intros Hf Hne. revert Hf. unfold rtmp.receiveChunk.
  assert (inbound (inboundChunkStream c (Header.ChunkStreamId h)).2 id'
          = inbound c id') as H1.
  { unfold inboundChunkStream, inbound.
    destruct (inChunkStreams c !! Header.ChunkStreamId h); simpl;
      [reflexivity|]. apply lookup_insert_ne. congruence. }
  destruct (inboundChunkStream c _) as [cs c1]. simpl in H1.
  destruct (resolveHeader cs h) as [[[[cs1 h1] ts] mo]|]; simpl.
  2:{ intros [= <-]. exact H1. }
  match goal with |- context [Client_ReadN c1 ?n] =>
    pose proof (Client_ReadN_ok c1 n) as Hok;
    assert (inChunkStreams (Client_ReadN c1 n).2 = inChunkStreams c1) as H2;
    [ unfold Client_ReadN;
      destruct (n =? 0); [|destruct (closed (conn c1))]; reflexivity
    | destruct (Client_ReadN c1 n) as [[got ok] c2] ] end.
  simpl in H2.
  assert (forall cs0, inbound (storeInbound (Header.ChunkStreamId h) cs0 c2) id'
                      = inbound c id') as Hst.
  { intros cs0. unfold inbound, storeInbound. simpl.
    rewrite lookup_insert_ne by congruence. rewrite H2. exact H1. }
  destruct ok.
  - destruct (Message.RemainingBytes _ =? 0).
    + destruct (_ <? _)%nat; simpl; [|discriminate].
      intros [= <-]. apply Hst.
    + simpl. intros [= <-]. apply Hst.
  - simpl. intros [= <-]. rewrite inbound_guard. apply Hst.
Qed.

(** X9. A SAME_STREAM header inherits only the stream id of the last
    header: length and type are its own, its timestamp is a delta on the
    last absolute timestamp (on [uint32]); the resolved header becomes
    the last header and the message the chunk starts carries the resolved
    values. *)
Theorem same_stream_inherits_stream_id (c : Client) (h : Header.t)
    (cs : InboundChunkStream.t) (lh : Header.t) (c' : Client) :
  inbound c (Header.ChunkStreamId h) = Some cs ->
  InboundChunkStream.lastHeader cs = Some lh ->
  Header.Format h = HEADER_FORMAT_SAME_STREAM ->
  final (receiveChunk c h) = Some c' ->
  let ts := uint32 (InboundChunkStream.lastInAbsoluteTimestamp cs
                    + Header.Timestamp h) in
  exists cs',
    inbound c' (Header.ChunkStreamId h) = Some cs' /\
    InboundChunkStream.lastHeader cs'
      = Some (Header.set_MessageStreamId (Header.MessageStreamId lh) h) /\
    InboundChunkStream.lastInAbsoluteTimestamp cs' = ts /\
    (receiveChunk c h = Next c' ->
       exists m, chunkMessage c' (Header.ChunkStreamId h) = Some m /\
                 Message.StreamId m = Header.MessageStreamId lh /\
                 Message.Length m = Header.MessageLength h /\
                 Message.Type_ m = Header.MessageTypeId h /\
                 Message.AbsoluteTimestamp m = ts).
Proof.
  intros Hin Hlh Hfmt Hf. simpl.
  assert (resolveHeader cs h
          = Some (InboundChunkStream.set_lastHeader
                    (Some (Header.set_MessageStreamId
                             (Header.MessageStreamId lh) h)) cs,
                  Header.set_MessageStreamId (Header.MessageStreamId lh) h,
                  uint32 (InboundChunkStream.lastInAbsoluteTimestamp cs
                          + Header.Timestamp h),
                  None)) as Hr.
  { unfold resolveHeader, resolveFormat. rewrite Hlh, Hfmt. reflexivity. }
  pose proof (inboundChunkStream_found _ _ _ Hin) as Ei.
  edestruct (receiveChunk_state CalculateTimestamp c h)
    as (cs' & Hin' & Hlh' & Hts'); [rewrite Ei; exact Hr|exact Hf|].
  exists cs'. split; [exact Hin'|]. split; [exact Hlh'|].
  split; [exact Hts'|].
  intros Hnext.
  edestruct (receiveChunk_next CalculateTimestamp c h)
    as (got & _ & _ & Hm & _); [rewrite Ei; exact Hr|exact Hnext|].
  eexists. split; [exact Hm|]. repeat split; reflexivity.
Qed.

Lemma resolveHeader_new_message cs h cs1 h1 ts mo :
  resolveHeader cs h = Some (cs1, h1, ts, mo) ->
  Header.Format h <> HEADER_FORMAT_CONTINUATION ->
  mo = None.
Proof.
  intros Hr Hfmt. revert Hr. unfold resolveHeader, resolveFormat.
  destruct (Z.eqb_spec (Header.Format h) HEADER_FORMAT_CONTINUATION);
    [contradiction|].
  destruct (InboundChunkStream.lastHeader cs);
    repeat match goal with
           | |- context [if ?b then _ else _] => destruct b
           end; congruence.
Qed.

Lemma receiveChunk_next_resolved c h c' :
  receiveChunk c h = Next c' ->
  exists cs1 h1 ts mo,
    resolveHeader (inboundChunkStream c (Header.ChunkStreamId h)).1 h
    = Some (cs1, h1, ts, mo).
Proof.
  unfold rtmp.receiveChunk.
  destruct (inboundChunkStream c _) as [cs c1]. simpl.
  destruct (resolveHeader cs h) as [[[[cs1 h1] ts] mo]|]; [|discriminate].
  intros _. do 4 eexists. reflexivity.
Qed.

(** X10. A header of any format but CONTINUATION starts a new message,
    also when a message is in progress on the chunk stream: the bytes of
    the message in progress are not carried over, the buffer of the new
    message is exactly what this chunk read, and the queue receives
    nothing but, when it is complete, the new message. *)
Theorem new_header_drops_message_in_progress (c : Client) (h : Header.t)
    (c' : Client) :
  Header.Format h <> HEADER_FORMAT_CONTINUATION ->
  receiveChunk c h = Next c' ->
  exists got m,
    rx (conn c) = got ++ rx (conn c') /\
    chunkMessage c' (Header.ChunkStreamId h) = Some m /\
    Message.Buffer m = got /\
    (inMessages c' = inMessages c \/ inMessages c' = inMessages c ++ [m]) /\
    forall cs', inbound c' (Header.ChunkStreamId h) = Some cs' ->
      InboundChunkStream.currentMessage cs' = None
      \/ InboundChunkStream.currentMessage cs' = Some m.
Proof.
  intros Hfmt Hnext.
  destruct (receiveChunk_next_resolved c h c' Hnext)
    as (cs1 & h1 & ts & mo & Hr).
  pose proof (resolveHeader_new_message _ _ _ _ _ _ Hr Hfmt) as ->.
  destruct (receiveChunk_next CalculateTimestamp _ _ _ _ _ _ _ Hr Hnext)
    as (got & Hrx & _ & Hm & Hq & _ & _ & _ & _ & Hin).
  simpl in Hm, Hq, Hin.
  exists got. eexists. split; [exact Hrx|]. split; [exact Hm|].
  split; [reflexivity|]. split.
  - destruct (Message.RemainingBytes _ =? 0); [right|left]; exact Hq.
  - intros cs' Hcs'. rewrite Hin in Hcs'. injection Hcs' as <-.
    destruct (Message.RemainingBytes _ =? 0); [left|right]; reflexivity.
Qed.

(** X11. An iteration that ends the receive loop queues nothing: a
    message whose chunk could not be read completely, or whose header was
    rejected, is not handed to the dispatch loop. *)
Theorem exit_queues_nothing (c c' : Client) :
  receiveLoop_step c = Exit c' -> inMessages c' = inMessages c.
Proof.
  unfold rtmp.receiveLoop_step.
  assert (inMessages (Client_ReadHeader c).2 = inMessages c) as H0.
  { unfold rtmp.Client_ReadHeader. destruct (closed (conn c)); [reflexivity|].
    destruct (ReadHeader _). reflexivity. }
  destruct (Client_ReadHeader c) as [[h|] c0]; simpl in H0.
  2:{ intros [= <-]. unfold disconnectIfConnected.
      destruct (connected c0); simpl; exact H0. }
  unfold rtmp.receiveChunk.
  pose proof (inboundChunkStream_frame c0 (Header.ChunkStreamId h)) as Hfr.
  destruct (inboundChunkStream c0 _) as [cs c1]. simpl in Hfr.
  destruct Hfr as (_ & Hq1 & _).
  destruct (resolveHeader cs h) as [[[[cs1 h1] ts] mo]|].
  2:{ intros [= <-]. simpl. congruence. }
  match goal with |- context [Client_ReadN c1 ?n] =>
    assert (inMessages (Client_ReadN c1 n).2 = inMessages c1) as H2;
    [ unfold Client_ReadN;
      destruct (n =? 0); [|destruct (closed (conn c1))]; reflexivity
    | destruct (Client_ReadN c1 n) as [[got ok] c2] ] end.
  simpl in H2.
  destruct ok.
  - destruct (Message.RemainingBytes _ =? 0); [|discriminate].
    destruct (_ <? _)%nat; discriminate.
  - intros [= <-]. unfold disconnectIfConnected.
    destruct (connected _); simpl; congruence.
Qed.

(** X12. A FULL header that declares a length of zero completes its
    message at once: the empty message is queued and the connection is
    not touched, whatever the state of the chunk stream and of the
    socket. *)
Theorem empty_message_is_received (c : Client) (h : Header.t) :
  Header.Format h = HEADER_FORMAT_FULL ->
  Header.MessageLength h = 0 ->
  0 <= inChunkSize c ->
  (length (inMessages c) < MESSAGE_QUEUE_CAPACITY)%nat ->
  exists c',
    receiveChunk c h = Next c' /\
    inMessages c'
      = inMessages c
        ++ [newInboundMessage CalculateTimestamp h (Header.Timestamp h)] /\
    conn c' = conn c /\
    forall cs', inbound c' (Header.ChunkStreamId h) = Some cs' ->
      InboundChunkStream.currentMessage cs' = None /\
      InboundChunkStream.lastHeader cs' = Some h.
Proof.
  intros Hfmt Hlen HC Hcap. unfold rtmp.receiveChunk.
  pose proof (inboundChunkStream_frame c (Header.ChunkStreamId h)) as Hfr.
  destruct (inboundChunkStream c _) as [cs c1]. simpl in Hfr.
  destruct Hfr as (Hk & Hq & Hsz & _).
  assert (resolveHeader cs h
          = Some (InboundChunkStream.set_lastHeader (Some h) cs, h,
                  Header.Timestamp h, None)) as ->.
  { unfold resolveHeader, resolveFormat. rewrite Hfmt. simpl.
    destruct (InboundChunkStream.lastHeader cs); reflexivity. }
  assert (Message.RemainingBytes
            (newInboundMessage CalculateTimestamp h (Header.Timestamp h)) = 0)
    as Hrem.
  { unfold Message.RemainingBytes. simpl. rewrite Hlen. reflexivity. }
  rewrite Hrem, min_by_test, Hsz, Z.min_l by lia.
  unfold Client_ReadN. simpl Z.eqb. cbv iota. rewrite app_nil_r.
  change (Message.set_Buffer []
            (newInboundMessage CalculateTimestamp h (Header.Timestamp h)))
    with (newInboundMessage CalculateTimestamp h (Header.Timestamp h)).
  rewrite Hrem. simpl Z.eqb. cbv iota.
  assert ((length (inMessages c1) <? MESSAGE_QUEUE_CAPACITY)%nat = true)
    as -> by (apply Nat.ltb_lt; rewrite Hq; exact Hcap).
  eexists. split; [reflexivity|]. simpl.
  split; [rewrite Hq; reflexivity|]. split; [exact Hk|].
  intros cs'. change (inbound (set_inMessages ?q ?c0) ?i) with (inbound c0 i).
  rewrite inbound_storeInbound. intros [= <-]. split; reflexivity.
Qed.

(** **** Reassembly keeps the buffer within the declared length *)

Lemma stream_ok_new id : stream_ok (NewInboundChunkStream id).
Proof. split; intros x; discriminate. Qed.

Lemma resolveHeader_ok cs h cs1 h1 ts mo :
  stream_ok cs -> 0 <= Header.MessageLength h < 2 ^ 32 ->
  resolveHeader cs h = Some (cs1, h1, ts, mo) ->
  (forall lh, InboundChunkStream.lastHeader cs1 = Some lh ->
     0 <= Header.MessageLength lh < 2 ^ 32) /\
  0 <= Header.MessageLength h1 < 2 ^ 32 /\
  (forall m, mo = Some m ->
     Z.of_nat (length (Message.Buffer m)) < Message.Length m < 2 ^ 32).
Proof.
  intros [Hlh Hcur] Hlen. unfold resolveHeader, resolveFormat.
  destruct (InboundChunkStream.lastHeader cs) as [lh|] eqn:Elh.
  - pose proof (Hlh lh eq_refl) as Hl.
    destruct (Header.Format h =? HEADER_FORMAT_FULL).
    { intros [= <- <- <- <-]. simpl.
      split; [intros ? [= <-]; exact Hlen|]. split; [exact Hlen|discriminate]. }
    destruct (Header.Format h =? HEADER_FORMAT_SAME_STREAM).
    { intros [= <- <- <- <-]. simpl.
      split; [intros ? [= <-]; exact Hlen|]. split; [exact Hlen|discriminate]. }
    destruct (Header.Format h =? HEADER_FORMAT_SAME_LENGTH_AND_STREAM).
    { intros [= <- <- <- <-]. simpl.
      split; [intros ? [= <-]; exact Hl|]. split; [exact Hl|discriminate]. }
    destruct (Header.Format h =? HEADER_FORMAT_CONTINUATION).
    { intros [= <- <- <- <-]. simpl.
      split; [rewrite Elh; exact Hlh|]. split; [exact Hl|exact Hcur]. }
    intros [= <- <- <- <-].
    split; [rewrite Elh; exact Hlh|]. split; [exact Hlen|discriminate].
  - destruct (Header.Format h =? HEADER_FORMAT_FULL); [|discriminate].
    simpl. intros [= <- <- <- <-]. simpl.
    split; [intros ? [= <-]; exact Hlen|]. split; [exact Hlen|discriminate].
Qed.

(** X13. Reassembly keeps every message within its declared length, and
    only complete messages are queued.  If the state of the chunk stream
    is sound (the recorded length is a [uint32]; a message in progress
    holds fewer bytes than it declares), the header read declares a
    [uint32] length and the chunk size is not negative, then after a chunk
    that was read the state of the chunk stream is sound again, and the
    queue has received nothing, or one message whose buffer holds exactly
    the declared number of bytes. *)
Theorem reassembly_keeps_declared_length (c : Client) (h : Header.t)
    (c' : Client) :
  (forall cs, inbound c (Header.ChunkStreamId h) = Some cs -> stream_ok cs) ->
  0 <= Header.MessageLength h < 2 ^ 32 ->
  0 <= inChunkSize c ->
  receiveChunk c h = Next c' ->
  (exists cs', inbound c' (Header.ChunkStreamId h) = Some cs' /\ stream_ok cs')
  /\ (inMessages c' = inMessages c
      \/ exists m, inMessages c' = inMessages c ++ [m] /\
                   Z.of_nat (length (Message.Buffer m)) = Message.Length m).
Proof.
  intros Hok Hlen HC Hnext.
  destruct (receiveChunk_next_resolved c h c' Hnext)
    as (cs1 & h1 & ts & mo & Hr).
  assert (stream_ok (inboundChunkStream c (Header.ChunkStreamId h)).1) as Hcs.
  { unfold inboundChunkStream. fold (inbound c (Header.ChunkStreamId h)).
    destruct (inbound c _) as [cs|] eqn:E; simpl;
      [apply Hok; reflexivity|apply stream_ok_new]. }
  destruct (resolveHeader_ok _ _ _ _ _ _ Hcs Hlen Hr) as (Hlh1 & Hl1 & Hmo).
  destruct (receiveChunk_next CalculateTimestamp _ _ _ _ _ _ _ Hr Hnext)
    as (got & _ & Hgot & _ & Hq & _ & _ & _ & _ & Hin).
  set (m := default (newInboundMessage CalculateTimestamp h1 ts) mo) in *.
  assert (Z.of_nat (length (Message.Buffer m)) <= Message.Length m < 2 ^ 32)
    as Hm.
  { subst m. destruct mo as [mp|]; simpl.
    - pose proof (Hmo mp eq_refl). lia.
    - lia. }
  assert (Message.RemainingBytes m
          = Message.Length m - Z.of_nat (length (Message.Buffer m))) as Hrem.
  { unfold Message.RemainingBytes. apply uint32_small. lia. }
  set (m' := Message.set_Buffer (Message.Buffer m ++ got) m) in *.
  assert (Message.RemainingBytes m'
          = Message.Length m - Z.of_nat (length (Message.Buffer m))
            - Z.of_nat (length got)) as Hrem'.
  { unfold Message.RemainingBytes. subst m'. simpl. rewrite length_app.
    rewrite uint32_small; lia. }
  rewrite Hrem' in Hq, Hin.
  destruct (Z.eqb_spec (Message.Length m - Z.of_nat (length (Message.Buffer m))
                        - Z.of_nat (length got)) 0) as [Hz|Hnz].
  - split.
    + eexists. split; [exact Hin|]. split; simpl; [exact Hlh1|discriminate].
    + right. exists m'. split; [exact Hq|].
      subst m'. simpl. rewrite length_app. lia.
  - split; [|left; exact Hq].
    eexists. split; [exact Hin|]. split; simpl; [exact Hlh1|].
    intros m0 [= <-]. subst m'. simpl. rewrite length_app. lia.
Qed.

(** X14. The value of a chunk-size message is not checked: a message
    that announces zero is accepted, and from then on no chunk reads any
    byte of payload, so every chunk leaves the connection where the header
    ended. *)
Theorem zero_chunk_size_stalls_reassembly (c : Client) (m : Message.t)
    (rest : list Z) :
  Message.Type_ m = MESSAGE_TYPE_CHUNK_SIZE ->
  Message.Buffer m = 0 :: 0 :: 0 :: 0 :: rest ->
  exists c',
    handleProtocolMessage m c = Some c' /\
    inChunkSize c' = 0 /\
    forall h c'', receiveChunk c' h = Next c'' -> rx (conn c'') = rx (conn c).
Proof.
  intros Hty Hbuf.
  exists (set_inChunkSize 0 c). split.
  { unfold handleProtocolMessage. rewrite Hty, Hbuf. reflexivity. }
  split; [reflexivity|].
  intros h c'' Hnext.
  destruct (receiveChunk_next_resolved _ h c'' Hnext)
    as (cs1 & h1 & ts & mo & Hr).
  destruct (receiveChunk_next CalculateTimestamp _ _ _ _ _ _ _ Hr Hnext)
    as (got & Hrx & Hgot & _).
  simpl in Hrx, Hgot.
  assert (got = []) as ->.
  { pose proof (uint32_range
      (Message.Length (default (newInboundMessage CalculateTimestamp h1 ts) mo)
       - Z.of_nat (length (Message.Buffer
           (default (newInboundMessage CalculateTimestamp h1 ts) mo)))))
      as Hrange.
    unfold Message.RemainingBytes in Hgot.
    destruct got; [reflexivity|simpl in Hgot; lia]. }
  symmetry. exact Hrx.
Qed.

(** **** The send path, message by message *)

Lemma CopyN_out_ok_buffer c buf ws c2 buf' n :
  CopyN_out c buf ws = (c2, buf', n, true) -> 0 < ws ->
  buf' = drop (Z.to_nat ws) buf /\ ws <= Z.of_nat (length buf).
Proof.
  unfold CopyN_out. intros E Hws.
  assert (length (take (Z.to_nat ws) buf) <= length buf)%nat as Hle
    by (rewrite length_take; lia).
  destruct (take (Z.to_nat ws) buf) as [|b l].
  - destruct (Z.eqb_spec 0 ws); [lia|discriminate].
  - destruct (Client_Write c (b :: l)); [|discriminate].
    destruct (Z.eqb_spec (Z.of_nat (length (b :: l))) ws) as [Hn|];
      [|discriminate].
    injection E as _ <- _. split; [reflexivity|lia].
Qed.

Lemma sendChunks_short_buffer fuel : forall c h buf rem,
  0 < outChunkSize c ->
  Z.of_nat (length buf) < rem -> rem < 2 ^ 32 -> rem <= Z.of_nat fuel ->
  exists c', sendChunks fuel c h buf rem = Exit c'.
Proof.
  induction fuel as [|fuel IH]; intros c h buf rem HC Hshort Hlt Hfuel;
    [simpl in Hfuel; lia|].
  simpl. destruct (Z.gtb_spec rem 0) as [_|]; [|lia].
  destruct (Client_Write c (Header_Write h)) as [c1|] eqn:Ew;
    [|eexists; reflexivity].
  apply send_frame_Client_Write in Ew. destruct Ew as (_ & _ & Hsz1 & _).
  rewrite min_by_test.
  destruct (CopyN_out c1 buf _) as [[[c2 buf'] n] ok] eqn:Ec.
  destruct ok; [|eexists; reflexivity].
  pose proof (CopyN_out_ok_buffer _ _ _ _ _ _ Ec) as Hb.
  apply CopyN_out_count in Ec. destruct Ec as [-> (_ & _ & Hsz2 & _)].
  destruct Hb as [-> Hle]; [lia|].
  apply IH.
  - congruence.
  - rewrite length_drop, uint32_small by lia. lia.
  - apply uint32_range.
  - rewrite uint32_small; lia.
Qed.

(** X15. A message that declares more bytes than its buffer holds is
    fatal to the connection: with a chunk size of at least one byte the
    send loop, when the copy runs out of bytes or a write fails before
    that, takes the message off the queue, disconnects and ends. *)
Theorem short_buffer_ends_send_loop (c : Client) (m : Message.t)
    (q : list Message.t) :
  outMessages c = m :: q ->
  connected c = true ->
  0 < outChunkSize c ->
  Z.of_nat (length (Message.Buffer m)) < Message.Length m < 2 ^ 32 ->
  exists c',
    sendLoop_step c = Exit c' /\
    connected c' = false /\ closed (conn c') = true /\
    trace c' = trace c ++ [ConnClose] /\
    outMessages c' = q.
Proof.
  intros Hq Hcn HC Hlen.
  assert (exists c', sendLoop_step c = Exit c') as [c' Hexit].
  { unfold rtmp.sendLoop_step. rewrite Hq.
    destruct (NewOutboundHeader _ m) as [h cs'].
    apply sendChunks_short_buffer; try lia.
    destruct (outChunkStreams _ !! _); exact HC. }
  exists c'. split; [exact Hexit|].
  destruct (sendLoop_step_exit Header_Write NewOutboundHeader c c' Hcn Hexit)
    as (H1 & H2 & H3).
  do 3 (split; [assumption|]).
  revert Hexit. unfold rtmp.sendLoop_step. rewrite Hq.
  destruct (NewOutboundHeader _ m) as [h cs']. intros Hexit.
  assert (final (sendChunks (Z.to_nat (Message.Length m))
                   match outChunkStreams (set_outMessages q c)
                         !! Message.ChunkStreamId m with
                   | Some _ =>
                       set_outChunkStreams
                         (<[Message.ChunkStreamId m := cs']>
                            (outChunkStreams (set_outMessages q c)))
                         (set_outMessages q c)
                   | None => set_outMessages q c
                   end h (Message.Buffer m) (Message.Length m)) = Some c')
    as Hf by (rewrite Hexit; reflexivity).
  apply send_frame_sendChunks in Hf. destruct Hf as (_ & Hq' & _).
  rewrite Hq'. destruct (outChunkStreams _ !! _); reflexivity.
Qed.

Lemma sendChunks_outcome fuel : forall c h buf rem,
  (exists c', sendChunks fuel c h buf rem = Next c'
              \/ sendChunks fuel c h buf rem = Exit c')
  \/ sendChunks fuel c h buf rem = Diverged.
Proof.
  induction fuel as [|fuel IH]; intros c h buf rem; simpl.
  - destruct (rem >? 0); [right; reflexivity|left; eexists; left; reflexivity].
  - destruct (rem >? 0); [|left; eexists; left; reflexivity].
    destruct (Client_Write c (Header_Write h)) as [c1|];
      [|left; eexists; right; reflexivity].
    destruct (CopyN_out c1 buf _) as [[[c2 buf'] n] ok].
    destruct ok; [apply IH|left; eexists; right; reflexivity].
Qed.

(** X16. With a chunk size of at least one byte an iteration of the send
    loop that has a message to send always ends, with the message sent or
    with the loop ended by an error: every pass of the inner loop that
    goes on lowers the number of bytes left. *)
Theorem send_loop_iteration_ends (c : Client) (m : Message.t)
    (q : list Message.t) :
  outMessages c = m :: q ->
  0 < outChunkSize c ->
  Message.Length m < 2 ^ 32 ->
  exists c', sendLoop_step c = Next c' \/ sendLoop_step c = Exit c'.
Proof.
  intros Hq HC Hlen. unfold rtmp.sendLoop_step. rewrite Hq.
  destruct (NewOutboundHeader _ m) as [h cs'].
  match goal with |- context [rtmp.sendChunks _ ?f ?c0 ?h0 ?b ?r] =>
    destruct (sendChunks_outcome f c0 h0 b r) as [Hdone|Hdiv];
    [exact Hdone|];
    exfalso; revert Hdiv; apply sendChunks_terminates; [|exact Hlen|lia]
  end.
  destruct (outChunkStreams _ !! _); exact HC.
Qed.

(** X17. With a chunk size of zero the send loop never finishes a
    message that has bytes to send: on a connection that accepts the
    writes every pass writes a header and no payload, whatever the number
    of passes. *)
Theorem zero_chunk_size_send_loop_never_ends (c : Client) (m : Message.t)
    (q : list Message.t) :
  outMessages c = m :: q ->
  outChunkSize c = 0 ->
  closed (conn c) = false -> wbroken (conn c) = false ->
  0 < Message.Length m < 2 ^ 32 ->
  sendLoop_step c = Diverged /\
  forall fuel h,
    sendChunks fuel (set_outMessages q c) h (Message.Buffer m)
      (Message.Length m) = Diverged.
Proof.
  intros Hq HC Hcl Hwb Hlen. split.
  - unfold rtmp.sendLoop_step. rewrite Hq.
    destruct (NewOutboundHeader _ m) as [h cs'].
    apply sendChunks_zero_chunk_size; try assumption;
      destruct (outChunkStreams _ !! _); assumption.
  - intros fuel h. apply sendChunks_zero_chunk_size; assumption.
Qed.

Lemma sendLoop_step_image C c m q :
  outChunkStreams c = ∅ ->
  outMessages c = m :: q ->
  closed (conn c) = false -> wbroken (conn c) = false ->
  outChunkSize c = C -> 0 < C ->
  sendable m ->
  exists c' bytes,
    sendLoop_step c = Next c' /\
    wire_image Header_Write NewOutboundHeader C m bytes /\
    after_writing bytes (set_outMessages q c) c'.
Proof.
  intros Hmap Hq Hcl Hwb Hsz HC [Hbuf Hlt].
  destruct (chunking_exists C (length (Message.Buffer m)) (Message.Buffer m) HC)
    as (pieces & Hch & Hcat); [lia|].
  unfold rtmp.sendLoop_step, outboundChunkStream. rewrite Hq. simpl.
  rewrite Hmap, lookup_empty.
  destruct (NewOutboundHeader _ m) as [h cs'] eqn:Eh.
  destruct (sendChunks_frames Header_Write C pieces
              (Z.to_nat (Message.Length m)) (set_outMessages q c) h [] HC Hch)
    as (c' & Hrun & Haw); try assumption.
  - rewrite <- Hbuf, Nat2Z.id, <- Hcat.
    apply chunking_count with (C := C); assumption.
  - rewrite Hcat. lia.
  - rewrite app_nil_r, Hcat, Hbuf in Hrun.
    exists c', (frames Header_Write h pieces). split; [exact Hrun|].
    split; [|exact Haw].
    exists pieces. split; [exact Hch|]. split; [exact Hcat|].
    rewrite Eh. reflexivity.
Qed.

(** X18. Messages are written in the order they were queued and never
    interleaved: on a client with no recorded outbound chunk-stream state
    and a connection that accepts the writes, as many iterations as there
    are sendable messages take them off the queue and append to the
    written bytes the wire image of the first, then of the second, and so
    on; the chunk-stream map is still empty afterwards, so every header is
    made from a new chunk-stream state. *)
Theorem messages_are_sent_in_order (C : Z) (ms : list Message.t) :
  forall (c : Client) (rest : list Message.t),
  outChunkStreams c = ∅ ->
  outMessages c = ms ++ rest ->
  closed (conn c) = false -> wbroken (conn c) = false ->
  outChunkSize c = C -> 0 < C ->
  Forall sendable ms ->
  exists c' images,
    iterate sendLoop_step (length ms) c = Next c' /\
    Forall2 (wire_image Header_Write NewOutboundHeader C) ms images /\
    tx (conn c') = tx (conn c) ++ concat images /\
    outMessages c' = rest /\
    outChunkStreams c' = ∅.
Proof.
  induction ms as [|m ms IH]; intros c rest Hmap Hq Hcl Hwb Hsz HC Hall.
  - exists c, []. simpl. rewrite app_nil_r.
    repeat split; try assumption. constructor.
  - pose proof (Forall_inv Hall) as Hm.
    pose proof (Forall_inv_tail Hall) as Hms.
    destruct (sendLoop_step_image C c m (ms ++ rest) Hmap Hq Hcl Hwb Hsz HC Hm)
      as (c1 & bytes & Hstep & Himg & Haw).
    destruct Haw as (Htx & Hcl1 & Hwb1 & _ & _ & _ & Hfr).
    destruct Hfr as (Hmap1 & Hq1 & Hsz1 & _).
    simpl in Htx, Hcl1, Hwb1, Hmap1, Hq1, Hsz1.
    destruct (IH c1 rest) as (c' & images & Hrun & Himgs & Htx' & Hq' & Hmap');
      try congruence; try assumption.
    exists c', (bytes :: images). simpl. rewrite Hstep.
    split; [exact Hrun|]. split; [constructor; assumption|].
    split; [rewrite Htx', Htx, app_assoc; reflexivity|].
    split; assumption.
Qed.

Lemma wrote_more_refl c : wrote_more c c.
Proof.
  exists []. rewrite app_nil_r, Z.add_0_r. split; reflexivity.
Qed.

Lemma wrote_more_trans c1 c2 c3 :
  wrote_more c1 c2 -> wrote_more c2 c3 -> wrote_more c1 c3.
Proof.
  intros (b1 & Htx1 & Hob1) (b2 & Htx2 & Hob2). exists (b1 ++ b2).
  split; [rewrite Htx2, Htx1, app_assoc; reflexivity|].
  rewrite Hob2, <- uint32_add_idemp, Hob1, uint32_add_idemp.
  f_equal. rewrite length_app. lia.
Qed.

Lemma wrote_more_Client_Write c p c' :
  Client_Write c p = Some c' -> wrote_more c c'.
Proof.
  unfold Client_Write.
  destruct (closed (conn c) || wbroken (conn c)); [discriminate|].
  intros [= <-]. exists p. split; [reflexivity|].
  unfold wrote. simpl. unfold uint32. apply Z.mod_mod. lia.
Qed.

Lemma wrote_more_CopyN_out c buf ws : wrote_more c (CopyN_out c buf ws).1.1.1.
Proof.
  unfold CopyN_out. destruct (take (Z.to_nat ws) buf) as [|b l].
  - apply wrote_more_refl.
  - destruct (Client_Write c (b :: l)) as [c1|] eqn:E; simpl.
    + eapply wrote_more_Client_Write; eauto.
    + apply wrote_more_refl.
Qed.

Lemma wrote_more_guard c : wrote_more c (disconnectIfConnected c).
Proof.
  unfold disconnectIfConnected. destruct (connected c);
    [|apply wrote_more_refl].
  exists []. simpl. rewrite app_nil_r, Z.add_0_r. split; reflexivity.
Qed.

Lemma wrote_more_sendChunks fuel : forall c h buf rem c',
  final (sendChunks fuel c h buf rem) = Some c' -> wrote_more c c'.
Proof.
  induction fuel as [|fuel IH]; intros c h buf rem c'; simpl.
  - destruct (rem >? 0); simpl; [discriminate|].
    intros [= <-]. apply wrote_more_refl.
  - destruct (rem >? 0); simpl; [|intros [= <-]; apply wrote_more_refl].
    destruct (Client_Write c (Header_Write h)) as [c1|] eqn:Ew; simpl.
    + pose proof (wrote_more_CopyN_out c1 buf
        (if rem >? outChunkSize c1 then outChunkSize c1 else rem)) as Hc.
      destruct (CopyN_out c1 buf _) as [[[c2 buf'] n] ok]; simpl in Hc.
      assert (wrote_more c c2) as H2
        by (eapply wrote_more_trans; [eapply wrote_more_Client_Write|]; eauto).
      destruct ok; simpl.
      * intros Hf. eapply wrote_more_trans; [exact H2|]. eapply IH; eauto.
      * intros [= <-]. eapply wrote_more_trans; [exact H2|].
        apply wrote_more_guard.
    + intros [= <-]. apply wrote_more_guard.
Qed.

(** X19. The send loop only appends to what was written, and counts
    every byte it writes: however an iteration ends, the bytes written so
    far are the old ones followed by new ones, and [outBytes] has grown by
    their number, modulo [2 ^ 32]. *)
Theorem send_loop_counts_what_it_writes (c c' : Client) :
  final (sendLoop_step c) = Some c' -> wrote_more c c'.
Proof.
  unfold rtmp.sendLoop_step.
  destruct (outMessages c) as [|m q]; [discriminate|].
  destruct (NewOutboundHeader _ m) as [h cs']. intros Hf.
  apply wrote_more_sendChunks in Hf.
  destruct Hf as (bytes & Htx & Hob). exists bytes.
  destruct (outChunkStreams _ !! _); simpl in Htx, Hob; split; assumption.
Qed.

(** **** Counting what is read *)

Lemma read_more_trans c1 c2 c3 :
  read_more c1 c2 -> read_more c2 c3 -> read_more c1 c3.
Proof.
  intros (g1 & Hrx1 & Hib1) (g2 & Hrx2 & Hib2). exists (g1 ++ g2).
  split; [rewrite Hrx1, Hrx2, app_assoc; reflexivity|].
  rewrite Hib2, <- uint32_add_idemp, Hib1, uint32_add_idemp.
  f_equal. rewrite length_app. lia.
Qed.

Lemma read_more_same c c' :
  conn c' = conn c -> inBytes c' = inBytes c -> read_more c c'.
Proof.
  intros Hk Hib. exists []. rewrite Hk, Hib, Z.add_0_r. split; reflexivity.
Qed.

Lemma read_more_guard c : read_more c (disconnectIfConnected c).
Proof.
  unfold disconnectIfConnected. destruct (connected c);
    [|apply read_more_same; reflexivity].
  exists []. simpl. rewrite Z.add_0_r. split; reflexivity.
Qed.

Lemma read_more_Client_ReadN c n : read_more c (Client_ReadN c n).2.
Proof.
  unfold Client_ReadN.
  destruct (n =? 0); [apply read_more_same; reflexivity|].
  destruct (closed (conn c)); [apply read_more_same; reflexivity|].
  exists (take (Z.to_nat n) (rx (conn c))). simpl.
  split; [symmetry; apply take_drop|].
  unfold uint32. apply Z.mod_mod. lia.
Qed.

Lemma read_more_receiveChunk c h c' :
  final (receiveChunk c h) = Some c' -> read_more c c'.
Proof.
  unfold rtmp.receiveChunk.
  assert (read_more c (inboundChunkStream c (Header.ChunkStreamId h)).2) as H1.
  { unfold inboundChunkStream.
    destruct (inChunkStreams c !! _); apply read_more_same; reflexivity. }
  destruct (inboundChunkStream c _) as [cs c1]. simpl in H1.
  destruct (resolveHeader cs h) as [[[[cs1 h1] ts] mo]|]; simpl.
  2:{ intros [= <-]. eapply read_more_trans; [exact H1|].
      exists []. simpl. rewrite Z.add_0_r. split; reflexivity. }
  match goal with |- context [Client_ReadN c1 ?n] =>
    pose proof (read_more_Client_ReadN c1 n) as H2;
    destruct (Client_ReadN c1 n) as [[got ok] c2] end.
  simpl in H2.
  assert (read_more c c2) as H3 by (eapply read_more_trans; eauto).
  destruct ok.
  - destruct (Message.RemainingBytes _ =? 0).
    + destruct (_ <? _)%nat; simpl; [|discriminate].
      intros [= <-]. eapply read_more_trans; [exact H3|].
      apply read_more_same; reflexivity.
    + simpl. intros [= <-]. eapply read_more_trans; [exact H3|].
      apply read_more_same; reflexivity.
  - simpl. intros [= <-]. eapply read_more_trans; [exact H3|].
    eapply read_more_trans; [|apply read_more_guard].
    apply read_more_same; reflexivity.
Qed.

(** X20. The receive loop only consumes the bytes that arrive, in order,
    and counts every byte it reads: with a header decoder that leaves the
    end of what it was given, however an iteration ends, the bytes still
    to arrive are the old ones less a beginning, and [inBytes] has grown
    by the length of that beginning, modulo [2 ^ 32]. *)
Theorem receive_loop_counts_what_it_reads (c c' : Client) :
  consumes_prefix ReadHeader ->
  final (receiveLoop_step c) = Some c' -> read_more c c'.
Proof.
  intros Hpre. unfold rtmp.receiveLoop_step.
  assert (read_more c (Client_ReadHeader c).2) as H1.
  { unfold rtmp.Client_ReadHeader.
    destruct (closed (conn c)); [apply read_more_same; reflexivity|].
    destruct (Hpre (rx (conn c))) as [pre Hs].
    destruct (ReadHeader (rx (conn c))) as [r rest]. simpl in Hs |- *.
    exists pre. simpl. split; [exact Hs|].
    unfold uint32. rewrite Z.mod_mod by lia. f_equal.
    rewrite Hs at 1. rewrite length_app. lia. }
  destruct (Client_ReadHeader c) as [[h|] c1]; simpl in H1.
  - intros Hf. eapply read_more_trans; [exact H1|].
    eapply read_more_receiveChunk; eauto.
  - simpl. intros [= <-]. eapply read_more_trans; [exact H1|].
    apply read_more_guard.
Qed.

(** **** How the paths compose *)

Lemma sendLoop_step_write_fault c m q :
  outMessages c = m :: q -> 0 < Message.Length m ->
  closed (conn c) || wbroken (conn c) = true ->
  exists c1, sendLoop_step c = Exit c1.
Proof.
  intros Hq Hlen Hbad. unfold rtmp.sendLoop_step. rewrite Hq.
  destruct (NewOutboundHeader _ m) as [h cs'].
  match goal with |- context [rtmp.sendChunks _ _ ?c0] => set (c1 := c0) end.
  assert (conn c1 = conn c) as Hk1.
  { subst c1. destruct (outChunkStreams _ !! _); reflexivity. }
  destruct (Z.to_nat (Message.Length m)) as [|fuel] eqn:Efuel; [lia|].
  simpl. destruct (Z.gtb_spec (Message.Length m) 0) as [_|]; [|lia].
  rewrite Client_Write_fails by (rewrite Hk1; exact Hbad).
  eexists. reflexivity.
Qed.

(** X21. A command message dispatched after a disconnect undoes the
    guard against a second shutdown: when the receive loop has ended with
    a [Disconnect] and a message on the command chunk stream is still
    queued, dispatching it marks the client connected again on the closed
    socket, and the send loop's next write then fails and runs
    [Disconnect] a second time: the connection is closed twice. *)
Theorem command_after_disconnect_closes_twice (c c1 : Client)
    (m : Message.t) (q : list Message.t) (mo : Message.t)
    (qo : list Message.t) :
  connected c = true ->
  receiveLoop_step c = Exit c1 ->
  inMessages c1 = m :: q ->
  Message.ChunkStreamId m = CHUNK_STREAM_ID_COMMAND ->
  outMessages c1 = mo :: qo ->
  0 < Message.Length mo ->
  exists c2 c3,
    dispatchLoop_step c1 = Next c2 /\
    connected c2 = true /\ closed (conn c2) = true /\
    sendLoop_step c2 = Exit c3 /\
    connected c3 = false /\
    trace c3 = trace c ++ [ConnClose; ConnClose].
Proof.
  intros Hcn Hexit Hq Hid Hqo Hlen.
  destruct (receiveLoop_step_exit ReadHeader CalculateTimestamp c c1 Hcn Hexit)
    as (Hcn1 & Hcl1 & Htr1).
  exists (handleCommandMessage m (set_inMessages q c1)).
  destruct (sendLoop_step_write_fault
              (handleCommandMessage m (set_inMessages q c1)) mo qo)
    as [c3 Hsend]; [exact Hqo|exact Hlen|simpl; rewrite Hcl1; reflexivity|].
  exists c3.
  split; [unfold dispatchLoop_step; rewrite Hq, Hid; reflexivity|].
  split; [reflexivity|]. split; [exact Hcl1|]. split; [exact Hsend|].
  destruct (sendLoop_step_exit Header_Write NewOutboundHeader
              (handleCommandMessage m (set_inMessages q c1)) c3 eq_refl Hsend)
    as (Hcn3 & _ & Htr3).
  split; [exact Hcn3|].
  rewrite Htr3. simpl. rewrite Htr1, <- app_assoc. reflexivity.
Qed.

(** X22. The connect command of a new client is sent whole: on a
    connection that accepts the writes, [connectCommand] takes the next
    transaction id and queues one message on the command chunk stream
    without blocking, whose declared length is the length of the encoded
    command, and the first iteration of the send loop writes the wire
    image of that message, cut in chunks of the default size, and empties
    the queue.  The client is not yet marked connected. *)
Theorem connect_command_is_sent (buf : list Z) (last : Z) (k : Conn) :
  closed k = false -> wbroken k = false ->
  Z.of_nat (length buf) < 2 ^ 32 ->
  let m := Message.mk MESSAGE_TYPE_AMF0 CHUNK_STREAM_ID_COMMAND 0 0 0
             (Z.of_nat (length buf)) buf in
  exists c1 c2 bytes,
    connectCommand buf last (NewClient k) = (uint32 (last + 1), Next c1) /\
    outMessages c1 = [m] /\
    sendLoop_step c1 = Next c2 /\
    wire_image Header_Write NewOutboundHeader DEFAULT_CHUNK_SIZE m bytes /\
    tx (conn c2) = tx k ++ bytes /\
    outMessages c2 = [] /\
    connected c2 = false.
Proof.
  intros Hcl Hwb Hlen m.
  assert (uint32 (Z.of_nat (length buf)) = Z.of_nat (length buf))
    as Hu by (apply uint32_small; lia).
  set (c1 := set_outMessages [m] (NewClient k)).
  destruct (sendLoop_step_image DEFAULT_CHUNK_SIZE c1 m [])
    as (c2 & bytes & Hstep & Himg & Haw); try reflexivity; try assumption.
  { split; [reflexivity|exact Hlen]. }
  exists c1, c2, bytes.
  split.
  { unfold connectCommand, NextTransactionId. simpl. rewrite Hu. reflexivity. }
  split; [reflexivity|]. split; [exact Hstep|]. split; [exact Himg|].
  destruct Haw as (Htx & _ & _ & Hcn & _ & _ & Hfr).
  destruct Hfr as (_ & Hq & _).
  split; [exact Htx|]. split; [exact Hq|exact Hcn].
Qed.

End ClientFacts.

(** ** The further properties at concrete inputs *)

Lemma SimpleCodec_consumes_prefix : consumes_prefix SimpleCodec.ReadHeader.
Proof.
  intros s. unfold SimpleCodec.ReadHeader.
  repeat match goal with
         | |- context [match ?l with [] => _ | _ :: _ => _ end] =>
             is_var l; destruct l
         | |- context [if ?b then _ else _] => destruct b
         end;
    match goal with
    | |- exists pre, ?l = pre ++ [] =>
        exists l; symmetry; apply app_nil_r
    | |- exists pre, ?l = pre ++ ?r =>
        first [ exists (take 18 l); reflexivity
              | exists (take 14 l); reflexivity
              | exists (take 9 l); reflexivity
              | exists (take 5 l); reflexivity ]
    end.
Qed.

(** X1 at an acknowledgement-size message with no payload. *)
Lemma protocol_handler_changes_only_chunk_size_witness :
  let c := connectedClient (openConn []) in
  handleProtocolMessage emptyAckSizeMessage c = Some c.
Proof.
  intros c. apply protocol_handler_changes_only_chunk_size.
  - vm_compute. discriminate.
  - left. vm_compute. discriminate.
Defined.

(** X2 at a chunk-size message of two bytes. *)
Lemma short_protocol_message_panics_witness :
  dispatchLoop_step
    (set_inMessages [shortChunkSizeMessage] (connectedClient (openConn [])))
  = Panicked.
Proof.
  apply (short_protocol_message_panics _ shortChunkSizeMessage []).
  - reflexivity.
  - reflexivity.
  - left. reflexivity.
  - simpl. lia.
Defined.

(** X3 at a queue of a chunk-size, a command and an audio message. *)
Lemma dispatch_drains_queue_witness :
  let q := [chunkSizeMessage; commandMessage 3; audioMessage] in
  exists c',
    iterate dispatchLoop_step 3 (set_inMessages q (NewClient (openConn [])))
    = Next c' /\
    inMessages c' = [] /\ connected c' = true.
Proof.
  intros q.
  destruct (dispatch_drains_queue q
              (set_inMessages q (NewClient (openConn []))))
    as (c' & Hrun & Hemp & _ & Hcn & _).
  - reflexivity.
  - constructor; [|constructor; [|constructor; [|constructor]]];
      intros Hid Hty; simpl; try lia; vm_compute in Hid; discriminate.
  - exists c'. split; [exact Hrun|]. split; [exact Hemp|].
    rewrite Hcn. reflexivity.
Defined.

(** X4 at three ids taken when the counter is about to wrap. *)
Lemma transaction_ids_distinct_witness :
  transactionIds 3 (2 ^ 32 - 2) = [2 ^ 32 - 1; 0; 1] /\
  NoDup (transactionIds 3 (2 ^ 32 - 2)).
Proof.
  split; [reflexivity|].
  apply (transaction_ids_distinct 3 (2 ^ 32 - 2)). simpl. lia.
Defined.

(** X5 at a read fault. *)
Lemma receive_loop_leaves_outbound_alone_witness :
  exists c',
    final (receiveLoop_step SimpleCodec.ReadHeader
             SimpleCodec.CalculateTimestamp faultyClient) = Some c' /\
    tx (conn c') = [] /\ outMessages c' = [audioMessage].
Proof.
  eexists. split; [vm_compute; reflexivity|].
  edestruct (receive_loop_leaves_outbound_alone SimpleCodec.ReadHeader
               SimpleCodec.CalculateTimestamp faultyClient)
    as (Htx & _ & Hq & _); [vm_compute; reflexivity|].
  split; [exact Htx|exact Hq].
Defined.

(** X6 at a message of five bytes sent while a byte waits to be read. *)
Lemma send_loop_leaves_inbound_alone_witness :
  exists c',
    final (sendLoop_step SimpleCodec.Header_Write SimpleCodec.NewOutboundHeader
             (clientWith (openConn [9]) 2 2 [fiveByteMessage])) = Some c' /\
    rx (conn c') = [9] /\ inMessages c' = [].
Proof.
  eexists. split; [vm_compute; reflexivity|].
  edestruct (send_loop_leaves_inbound_alone SimpleCodec.Header_Write
               SimpleCodec.NewOutboundHeader
               (clientWith (openConn [9]) 2 2 [fiveByteMessage]))
    as (Hrx & _ & Hq & _); [vm_compute; reflexivity|].
  split; [exact Hrx|exact Hq].
Defined.

(** X7 at a read fault: the connection is closed and the handler is not
    called. *)
Lemma loops_never_call_the_handler_witness :
  exists c',
    final (receiveLoop_step SimpleCodec.ReadHeader
             SimpleCodec.CalculateTimestamp faultyClient) = Some c' /\
    handlerCalls (trace c') = [].
Proof.
  eexists. split; [vm_compute; reflexivity|].
  edestruct (loops_never_call_the_handler SimpleCodec.ReadHeader
               SimpleCodec.Header_Write SimpleCodec.CalculateTimestamp
               SimpleCodec.NewOutboundHeader faultyClient)
    as (_ & Hcalls); [right; right; vm_compute; reflexivity|].
  exact Hcalls.
Defined.

(** X8 at a first chunk on stream 6 while stream 5 is in the middle of a
    message. *)
Lemma chunk_leaves_other_streams_alone_witness :
  let c := midMessageReceiver [2; 3] in
  let h := Header.mk HEADER_FORMAT_FULL 6 0 1 8 1 in
  exists c',
    final (receiveChunk SimpleCodec.CalculateTimestamp c h) = Some c' /\
    inbound c' 5 = inbound c 5.
Proof.
  intros c h. eexists. split; [vm_compute; reflexivity|].
  apply (chunk_leaves_other_streams_alone SimpleCodec.CalculateTimestamp c h).
  - vm_compute. reflexivity.
  - vm_compute. discriminate.
Defined.

(** X9 at a SAME_STREAM header with delta 20 after a FULL header with
    timestamp 100. *)
Lemma same_stream_inherits_stream_id_witness :
  let c := receiverOn (Header.mk HEADER_FORMAT_FULL 5 100 2 8 1) 100 None
             [7; 7; 7] 128 in
  let h := Header.mk HEADER_FORMAT_SAME_STREAM 5 20 3 9 0 in
  exists c',
    final (receiveChunk SimpleCodec.CalculateTimestamp c h) = Some c' /\
    exists cs',
      inbound c' 5 = Some cs' /\
      InboundChunkStream.lastHeader cs'
        = Some (Header.mk HEADER_FORMAT_SAME_STREAM 5 20 3 9 1) /\
      InboundChunkStream.lastInAbsoluteTimestamp cs' = uint32 (100 + 20).
Proof.
  intros c h. eexists. split; [vm_compute; reflexivity|].
  edestruct (same_stream_inherits_stream_id SimpleCodec.CalculateTimestamp
               c h) as (cs' & Hin & Hlh & Hts & _);
    [ vm_compute; reflexivity | reflexivity | reflexivity
    | vm_compute; reflexivity | ].
  exists cs'. split; [exact Hin|]. split; [exact Hlh|exact Hts].
Defined.

(** X10 at a FULL header that arrives in the middle of a message. *)
Lemma new_header_drops_message_in_progress_witness :
  let c := midMessageReceiver [9; 9] in
  let h := Header.mk HEADER_FORMAT_FULL 5 7 2 8 1 in
  exists c' got m,
    receiveChunk SimpleCodec.CalculateTimestamp c h = Next c' /\
    rx (conn c) = got ++ rx (conn c') /\
    chunkMessage c' 5 = Some m /\ Message.Buffer m = got.
Proof.
  intros c h. eexists.
  edestruct (new_header_drops_message_in_progress
               SimpleCodec.CalculateTimestamp c h)
    as (got & m & Hrx & Hm & Hbuf & _);
    [vm_compute; discriminate|vm_compute; reflexivity|].
  exists got, m. split; [vm_compute; reflexivity|].
  split; [exact Hrx|]. split; [exact Hm|exact Hbuf].
Defined.

(** X11 at a read fault. *)
Lemma exit_queues_nothing_witness :
  exists c',
    receiveLoop_step SimpleCodec.ReadHeader SimpleCodec.CalculateTimestamp
      faultyClientWithReply = Exit c' /\
    inMessages c' = [commandMessage 3].
Proof.
  eexists. split; [vm_compute; reflexivity|].
  apply (exit_queues_nothing SimpleCodec.ReadHeader
           SimpleCodec.CalculateTimestamp faultyClientWithReply).
  vm_compute. reflexivity.
Defined.

(** X12 at a FULL header of length zero on a new chunk stream. *)
Lemma empty_message_is_received_witness :
  let c := clientWith (openConn [4; 4]) 128 128 [] in
  let h := Header.mk HEADER_FORMAT_FULL 5 7 0 8 1 in
  exists c',
    receiveChunk SimpleCodec.CalculateTimestamp c h = Next c' /\
    inMessages c' = [Message.mk 8 5 1 7 7 0 []] /\
    conn c' = conn c.
Proof.
  intros c h.
  destruct (empty_message_is_received SimpleCodec.CalculateTimestamp c h)
    as (c' & Hnext & Hq & Hk & _).
  - reflexivity.
  - reflexivity.
  - vm_compute. discriminate.
  - vm_compute. lia.
  - exists c'. split; [exact Hnext|]. split; [exact Hq|exact Hk].
Defined.

(** X13 at a continuation chunk of a message in progress. *)
Lemma reassembly_keeps_declared_length_witness :
  let c := midMessageReceiver [2; 3] in
  let h := Header.mk HEADER_FORMAT_CONTINUATION 5 0 0 0 0 in
  exists c',
    receiveChunk SimpleCodec.CalculateTimestamp c h = Next c' /\
    exists cs', inbound c' 5 = Some cs' /\ stream_ok cs'.
Proof.
  intros c h. eexists. split; [vm_compute; reflexivity|].
  apply (reassembly_keeps_declared_length SimpleCodec.CalculateTimestamp c h).
  - intros cs Hcs. vm_compute in Hcs. injection Hcs as <-.
    split; intros x [= <-]; simpl; lia.
  - simpl. lia.
  - simpl. lia.
  - vm_compute. reflexivity.
Defined.

(** X14 at a chunk-size message that announces zero. *)
Lemma zero_chunk_size_stalls_reassembly_witness :
  let c := connectedClient (openConn [1; 2]) in
  exists c',
    handleProtocolMessage zeroChunkSizeMessage c = Some c' /\
    inChunkSize c' = 0.
Proof.
  intros c.
  destruct (zero_chunk_size_stalls_reassembly SimpleCodec.CalculateTimestamp
              c zeroChunkSizeMessage [])
    as (c' & Hh & Hsz & _); [reflexivity|reflexivity|].
  exists c'. split; [exact Hh|exact Hsz].
Defined.

(** X15 at a message that declares three bytes and holds one. *)
Lemma short_buffer_ends_send_loop_witness :
  let c := clientWith (openConn []) 2 2 [truncatedMessage] in
  exists c',
    sendLoop_step SimpleCodec.Header_Write SimpleCodec.NewOutboundHeader c
    = Exit c' /\
    connected c' = false /\ closed (conn c') = true /\ outMessages c' = [].
Proof.
  intros c.
  destruct (short_buffer_ends_send_loop SimpleCodec.Header_Write
              SimpleCodec.NewOutboundHeader c truncatedMessage [])
    as (c' & Hexit & Hcn & Hcl & _ & Hq).
  - reflexivity.
  - reflexivity.
  - simpl. lia.
  - simpl. lia.
  - exists c'. repeat split; assumption.
Defined.

(** X16 at a message of five bytes and chunks of two. *)
Lemma send_loop_iteration_ends_witness :
  let c := clientWith (openConn []) 2 2 [fiveByteMessage] in
  exists c',
    sendLoop_step SimpleCodec.Header_Write SimpleCodec.NewOutboundHeader c
    = Next c'
    \/ sendLoop_step SimpleCodec.Header_Write SimpleCodec.NewOutboundHeader c
       = Exit c'.
Proof.
  intros c.
  apply (send_loop_iteration_ends SimpleCodec.Header_Write
           SimpleCodec.NewOutboundHeader c fiveByteMessage []).
  - reflexivity.
  - simpl. lia.
  - simpl. lia.
Defined.

(** X17 at a message of five bytes and a chunk size of zero. *)
Lemma zero_chunk_size_send_loop_never_ends_witness :
  sendLoop_step SimpleCodec.Header_Write SimpleCodec.NewOutboundHeader
    (clientWith (openConn []) 0 0 [fiveByteMessage]) = Diverged.
Proof.
  apply (zero_chunk_size_send_loop_never_ends SimpleCodec.Header_Write
           SimpleCodec.NewOutboundHeader
           (clientWith (openConn []) 0 0 [fiveByteMessage])
           fiveByteMessage []).
  - reflexivity.
  - reflexivity.
  - reflexivity.
  - reflexivity.
  - simpl. lia.
Defined.

(** X18 at a message of five bytes followed by one of one byte. *)
Lemma messages_are_sent_in_order_witness :
  let ms := [fiveByteMessage; audioMessage] in
  let c := clientWith (openConn []) 2 2 ms in
  exists c' images,
    iterate (sendLoop_step SimpleCodec.Header_Write
               SimpleCodec.NewOutboundHeader) 2 c = Next c' /\
    length images = 2%nat /\
    tx (conn c') = concat images /\
    outMessages c' = [].
Proof.
  intros ms c.
  destruct (messages_are_sent_in_order SimpleCodec.Header_Write
              SimpleCodec.NewOutboundHeader 2 ms c [])
    as (c' & images & Hrun & Himg & Htx & Hq & _).
  - reflexivity.
  - reflexivity.
  - reflexivity.
  - reflexivity.
  - reflexivity.
  - lia.
  - constructor; [|constructor; [|constructor]];
      split; simpl; try reflexivity; lia.
  - exists c', images. split; [exact Hrun|].
    split; [symmetry; exact (Forall2_length _ _ _ Himg)|].
    split; [exact Htx|exact Hq].
Defined.

(** X19 at a message of five bytes and chunks of two. *)
Lemma send_loop_counts_what_it_writes_witness :
  let c := clientWith (openConn []) 2 2 [fiveByteMessage] in
  exists c',
    final (sendLoop_step SimpleCodec.Header_Write
             SimpleCodec.NewOutboundHeader c) = Some c' /\
    wrote_more c c'.
Proof.
  intros c. eexists. split; [vm_compute; reflexivity|].
  apply (send_loop_counts_what_it_writes SimpleCodec.Header_Write
           SimpleCodec.NewOutboundHeader c).
  vm_compute. reflexivity.
Defined.

(** X20 at the first chunk of a message of five bytes. *)
Lemma receive_loop_counts_what_it_reads_witness :
  let c := clientWith (openConn (wireOf 2 fiveByteMessage)) 2 2 [] in
  exists c',
    final (receiveLoop_step SimpleCodec.ReadHeader
             SimpleCodec.CalculateTimestamp c) = Some c' /\
    read_more c c'.
Proof.
  intros c. eexists. split; [vm_compute; reflexivity|].
  apply (receive_loop_counts_what_it_reads SimpleCodec.ReadHeader
           SimpleCodec.CalculateTimestamp c).
  - exact SimpleCodec_consumes_prefix.
  - vm_compute. reflexivity.
Defined.

(** X21 at a read fault with a command message still queued. *)
Lemma command_after_disconnect_closes_twice_witness :
  exists c2 c3,
    receiveLoop_step SimpleCodec.ReadHeader SimpleCodec.CalculateTimestamp
      faultyClientWithReply = Exit afterReadFault /\
    dispatchLoop_step afterReadFault = Next c2 /\
    sendLoop_step SimpleCodec.Header_Write SimpleCodec.NewOutboundHeader c2
    = Exit c3 /\
    trace c3 = [ConnClose; ConnClose].
Proof.
  destruct (command_after_disconnect_closes_twice SimpleCodec.ReadHeader
              SimpleCodec.Header_Write SimpleCodec.CalculateTimestamp
              SimpleCodec.NewOutboundHeader faultyClientWithReply
              afterReadFault (commandMessage 3) [] audioMessage [])
    as (c2 & c3 & Hd & _ & _ & Hs & _ & Htr).
  - reflexivity.
  - vm_compute. reflexivity.
  - vm_compute. reflexivity.
  - reflexivity.
  - vm_compute. reflexivity.
  - simpl. lia.
  - exists c2, c3. split; [vm_compute; reflexivity|].
    split; [exact Hd|]. split; [exact Hs|exact Htr].
Defined.

(** X22 at a new client and a command of four bytes. *)
Lemma connect_command_is_sent_witness :
  exists c1 c2 bytes,
    connectCommand exampleCommand 0 (NewClient (openConn [])) = (1, Next c1) /\
    sendLoop_step SimpleCodec.Header_Write SimpleCodec.NewOutboundHeader c1
    = Next c2 /\
    tx (conn c2) = bytes /\ outMessages c2 = [] /\ connected c2 = false.
Proof.
  destruct (connect_command_is_sent SimpleCodec.Header_Write
              SimpleCodec.NewOutboundHeader exampleCommand 0 (openConn []))
    as (c1 & c2 & bytes & Hc & _ & Hs & _ & Htx & Hq & Hcn).
  - reflexivity.
  - reflexivity.
  - vm_compute. reflexivity.
  - exists c1, c2, bytes. split; [exact Hc|]. split; [exact Hs|].
    split; [exact Htx|]. split; [exact Hq|exact Hcn].
Defined.
